(** * chsync: schema drift detection and repair for ClickHouse replicas

    A shallow embedding of the Go program (synchronizer, config and main)
    and the properties of its drift check.

    Conventions of the embedding:
    - a Go [string] is a Rocq [string] (a sequence of bytes);
    - a Go [map[string]string] is a [gmap string string]; a [range] over a
      map visits its entries in an order the Go runtime leaves unspecified,
      so every function that ranges over a map takes the visiting order as
      an extra argument, constrained by [range_of];
    - logging, [go] statements and calls to the database driver are
      recorded as a trace of [Event]s; a run-time panic ends the trace;
    - the receiver [sync *Synchronizer] is passed explicitly, and the
      methods that assign to its fields return the updated record. *)

From Stdlib Require Import NArith Ascii String.
From stdpp Require Import gmap strings list fin_maps pretty.

Open Scope string_scope.
Open Scope list_scope.
Open Scope nat_scope.

#[local] Set Warnings "-clear-no-such-hyp".

(** ** The parts of the Go standard library the program calls *)

Module utf8.

Definition RuneError : N := 0xFFFD.

Definition byte_val (b : ascii) : N := N_of_ascii b.

(** A continuation byte lies in [0x80, 0xBF]. *)
Definition in_range (lo hi : N) (b : ascii) : bool :=
  (lo <=? byte_val b)%N && (byte_val b <=? hi)%N.

(** The [first] table of package unicode/utf8, read as: the length of
    the sequence a leading byte announces and the range accepted for
    the second byte; [None] for a byte that cannot lead (0x80-0xC1,
    0xF5-0xFF). ASCII bytes are handled before the table is used. *)
Definition first (b0 : N) : option (nat * (N * N)) :=
  if (b0 <? 0xC2)%N then None
  else if (b0 <=? 0xDF)%N then Some (2, (0x80, 0xBF)%N)
  else if (b0 =? 0xE0)%N then Some (3, (0xA0, 0xBF)%N)
  else if (b0 =? 0xED)%N then Some (3, (0x80, 0x9F)%N)
  else if (b0 <=? 0xEF)%N then Some (3, (0x80, 0xBF)%N)
  else if (b0 =? 0xF0)%N then Some (4, (0x90, 0xBF)%N)
  else if (b0 <=? 0xF3)%N then Some (4, (0x80, 0xBF)%N)
  else if (b0 =? 0xF4)%N then Some (4, (0x80, 0x8F)%N)
  else None.

Definition cont (b : ascii) : N := N.land (byte_val b) 0x3F.

(** [utf8.DecodeRuneInString]: the first rune of [s] and its width in
    bytes; an invalid or truncated sequence decodes to [RuneError]
    with width 1, the empty string to [RuneError] with width 0. *)
Definition DecodeRuneInString (s : string) : N * nat :=
  match s with
  | EmptyString => (RuneError, 0)
  | String c0 t =>
      let b0 := byte_val c0 in
      if (b0 <? 0x80)%N then (b0, 1)
      else
        match first b0 with
        | None => (RuneError, 1)
        | Some (sz, (lo, hi)) =>
            match t with
            | EmptyString => (RuneError, 1)
            | String c1 t1 =>
                if negb (in_range lo hi c1) then (RuneError, 1)
                else if (sz <=? 2)%nat then
                  (N.lor (N.shiftl (N.land b0 0x1F) 6) (cont c1), 2)
                else
                  match t1 with
                  | EmptyString => (RuneError, 1)
                  | String c2 t2 =>
                      if negb (in_range 0x80 0xBF c2) then (RuneError, 1)
                      else if (sz <=? 3)%nat then
                        (N.lor (N.lor (N.shiftl (N.land b0 0x0F) 12)
                                      (N.shiftl (cont c1) 6)) (cont c2), 3)
                      else
                        match t2 with
                        | EmptyString => (RuneError, 1)
                        | String c3 _ =>
                            if negb (in_range 0x80 0xBF c3) then (RuneError, 1)
                            else
                              (N.lor (N.lor (N.lor
                                 (N.shiftl (N.land b0 0x07) 18)
                                 (N.shiftl (cont c1) 12))
                                 (N.shiftl (cont c2) 6)) (cont c3), 4)
                        end
                  end
            end
        end
  end.

(** [for _, r := range s]: the runes of [s], each with the bytes it was
    decoded from. [skip] counts the bytes of the current rune that are
    still to be stepped over. *)
Fixpoint range_from (skip : nat) (s : string) : list (N * string) :=
  match s with
  | EmptyString => []
  | String _ t =>
      match skip with
      | S k => range_from k t
      | O =>
          let '(r, sz) := DecodeRuneInString s in
          (r, substring 0 sz s) :: range_from (sz - 1) t
      end
  end.

Definition range (s : string) : list (N * string) := range_from 0 s.

End utf8.

Module unicode.

(** [unicode.IsSpace]: the Latin-1 spaces and the White_Space property
    above Latin-1. *)
Definition IsSpace (r : N) : bool :=
  if (r <=? 0xFF)%N then
    bool_decide (r ∈ [0x09; 0x0A; 0x0B; 0x0C; 0x0D; 0x20; 0x85; 0xA0]%N)
  else
    (r =? 0x1680)%N || ((0x2000 <=? r)%N && (r <=? 0x200A)%N)
    || (r =? 0x2028)%N || (r =? 0x2029)%N || (r =? 0x202F)%N
    || (r =? 0x205F)%N || (r =? 0x3000)%N.

End unicode.

Module strings.

(** The loop of [strings.FieldsFunc]: [cur] is the field being read,
    if one is open. *)
Fixpoint FieldsFunc_loop (f : N → bool) (rs : list (N * string))
    (cur : option string) : list string :=
  match rs with
  | [] => match cur with Some w => [w] | None => [] end
  | (r, bs) :: rs' =>
      if f r then
        match cur with
        | Some w => w :: FieldsFunc_loop f rs' None
        | None => FieldsFunc_loop f rs' None
        end
      else
        FieldsFunc_loop f rs' (Some (default "" cur +:+ bs))
  end.

Definition FieldsFunc (s : string) (f : N → bool) : list string :=
  FieldsFunc_loop f (utf8.range s) None.

(** [strings.Fields]: the maximal runs of non-space runes of [s]. *)
Definition Fields (s : string) : list string :=
  FieldsFunc s unicode.IsSpace.

(** [strings.Join]. *)
Fixpoint Join (elems : list string) (sep : string) : string :=
  match elems with
  | [] => ""
  | [e] => e
  | e :: rest => e +:+ sep +:+ Join rest sep
  end.

(** [strings.Contains]. *)
Fixpoint Contains (s substr : string) : bool :=
  String.prefix substr s ||
  match s with
  | EmptyString => false
  | String _ t => Contains t substr
  end.

End strings.

(** The line feed, written ["\n"] in the source. *)
Definition LF : string := String (ascii_of_nat 10) EmptyString.

(** ** config.go *)

Record Server := {
  Host : string;
  Port : N;          (* uint16 *)
  User : string;
  Pass : string
}.

Record Table := {
  View : bool;
  Materialized : bool;
  Populate : bool;
  Columns : gmap string string;
  Engine : string;
  AsAnotherTable : string;
  AsSelect : string
}.

Record Database := {
  Name : string;
  Tables : gmap string Table
}.

Record Config := {
  Servers : list Server;
  Databases : list Database
}.

(** [order] is an order in which a [range] statement may visit the map
    [m]: every entry once, in any order. *)
Definition range_of {V} (m : gmap string V) (order : list (string * V)) : Prop :=
  order ≡ₚ map_to_list m.

(** ** The database driver, as the program sees it

    The servers are external: what a connection answers is taken as
    given. [rows_Next] lists the rows for which [Rows.Next] returns true,
    already scanned into (name, type); [rows_Err] is what [Rows.Err]
    returns when it is asked, before any row is read. The driver is left
    open here: database/sql itself answers nil until [Next] has run, so
    with it [rows_Err] is always [None] at the one place where the
    program asks. *)

Record sql_Rows := {
  rows_Next : list (string * string);
  rows_Err : option string
}.

Record QueryResult := {
  Rows : option sql_Rows;
  q_error : option string
}.

Record ExecResult := {
  e_error : option string
}.

Record sql_DB := {
  db_Ping : option string;
  db_Exec : string → option string;
  db_Query : string → list string → QueryResult;
  db_Close : option string
}.

(** [sql.Open]: a connection, or the text of the error. *)
Definition sql_Open_t : Type := string → string → string + sql_DB.

(** ** Traces *)

Inductive Level := DebugLevel | InfoLevel | ErrorLevel.

(** A [go] statement: the method called and its evaluated arguments. *)
Inductive Task :=
| GoCreateTable (i : nat) (name : string) (table : Table)
| GoCreateView (i : nat) (name : string) (view : Table)
| GoModifyColumn (i : nat) (name columnName columnType : string)
| GoAddColumn (i : nat) (name columnName columnType : string)
| GoDropColumn (i : nat) (name columnName : string).

Inductive Event :=
| EvLog (lvl : Level) (fields : gmap string string) (msg : string)
| EvGo (t : Task)
| EvExec (i : nat) (query : string)
| EvQuery (i : nat) (query : string) (args : list string)
| EvOpen (dsn : string)
| EvPing (dsn : string)
| EvClose (i : nat)
| EvRowsClose (i : nat).

(** What a panic carries: the run-time errors [index out of range [i]
    with length n] and [nil pointer dereference], or the value given to
    [panic]. *)
Inductive PanicValue :=
| PanicIndexOutOfRange (i n : nat)
| PanicNilDereference
| PanicError (text : string)
| PanicExecResults (r : list ExecResult).

Inductive Outcome (A : Type) :=
| Return (a : A)
| Panic (v : PanicValue).
Arguments Return {A} a.
Arguments Panic {A} v.

(** A computation: the events it performs, in order, and how it ends. *)
Definition M (A : Type) : Type := list Event * Outcome A.

Definition trace {A} (m : M A) : list Event := m.1.
Definition outcome {A} (m : M A) : Outcome A := m.2.

#[global] Instance M_ret : MRet M := λ A a, ([], Return a).
#[global] Instance M_bind : MBind M := λ A B f m,
  match m with
  | (t, Return a) => let '(t', o) := f a in (t ++ t', o)
  | (t, Panic v) => (t, Panic v)
  end.

Definition emit (e : Event) : M unit := ([e], Return tt).
Definition panic {A} (v : PanicValue) : M A := ([], Panic v).

(** [l[i]] on a slice. *)
Definition index {A} (l : list A) (i : nat) : M A :=
  match l !! i with
  | Some x => mret x
  | None => panic (PanicIndexOutOfRange i (length l))
  end.

(** [defer d] followed by [m]: [d] runs when [m] ends, also by a panic. *)
Definition defer {A} (d : list Event) (m : M A) : M A := (m.1 ++ d, m.2).

(** ** The synchronizer *)

Record Synchronizer := {
  config : Config;
  connections : list sql_DB;
  database : string;
  fix_ : bool;
  dropColumns : bool;
  debug : bool
}.

Definition NewSynchronizer (config : Config) : Synchronizer :=
  {| config := config; connections := []; database := "";
     fix_ := false; dropColumns := false; debug := false |}.

Definition SetFix (sync : Synchronizer) (fix_ : bool) : Synchronizer :=
  {| config := config sync; connections := connections sync;
     database := database sync; fix_ := fix_;
     dropColumns := dropColumns sync; debug := debug sync |}.

Definition SetDropColumns (sync : Synchronizer) (dropColumns : bool) : Synchronizer :=
  {| config := config sync; connections := connections sync;
     database := database sync; fix_ := fix_ sync;
     dropColumns := dropColumns; debug := debug sync |}.

(** [SetupLogger] also raises the level of the logger to debug when
    [debug] is set; the level is read back from the [debug] field. The
    level of the real logger belongs to the process and is never lowered
    again: the two agree as long as [SetupLogger] is called once, on a
    logger at its default level, as [main] does. *)
Definition SetupLogger (sync : Synchronizer) (debug : bool) : Synchronizer :=
  {| config := config sync; connections := connections sync;
     database := database sync; fix_ := fix_ sync;
     dropColumns := dropColumns sync; debug := debug |}.

Definition set_connections (sync : Synchronizer) (c : list sql_DB) : Synchronizer :=
  {| config := config sync; connections := c;
     database := database sync; fix_ := fix_ sync;
     dropColumns := dropColumns sync; debug := debug sync |}.

Definition set_database (sync : Synchronizer) (d : string) : Synchronizer :=
  {| config := config sync; connections := connections sync;
     database := d; fix_ := fix_ sync;
     dropColumns := dropColumns sync; debug := debug sync |}.

(** *** Logging (logrus entries)

    An entry is its field map; the default level of the logger lets
    every message but the debug ones through. *)

Definition log_Error (l : gmap string string) (msg : string) : M unit :=
  emit (EvLog ErrorLevel l msg).

Definition log_Info (l : gmap string string) (msg : string) : M unit :=
  emit (EvLog InfoLevel l msg).

Definition log_Debug (sync : Synchronizer) (l : gmap string string) (msg : string) : M unit :=
  if debug sync then emit (EvLog DebugLevel l msg) else mret tt.

Definition WithField (l : gmap string string) (k v : string) : gmap string string :=
  <[k := v]> l.

Definition WithFields (l fs : gmap string string) : gmap string string :=
  fs ∪ l.

Definition WithError (l : gmap string string) (err : string) : gmap string string :=
  <["error" := err]> l.

(** *** Connect and Close *)

(** [text += err.Error() + "\n"] over [errs]. *)
Definition errors_text (errs : list string) : string :=
  foldl (λ text err, text +:+ (err +:+ LF)) "" errs.

Definition dsn_of (sync : Synchronizer) (server : Server) : string :=
  "tcp://" +:+ Host server +:+ ":" +:+ pretty (Port server)
  +:+ "?username=" +:+ User server +:+ "&password=" +:+ Pass server
  +:+ "&debug=" +:+ pretty (if debug sync then 0%N else 0%N).

Fixpoint Connect_loop (open : sql_Open_t) (sync : Synchronizer)
    (servers : list Server) (errs : list string) (conns : list sql_DB)
    : M (list string * list sql_DB) :=
  match servers with
  | [] => mret (errs, conns)
  | server :: rest =>
      let dsn := dsn_of sync server in
      emit (EvOpen dsn);;
      match open "clickhouse" dsn with
      | inl err => Connect_loop open sync rest (errs ++ [err]) conns
      | inr conn =>
          emit (EvPing dsn);;
          match db_Ping conn with
          | Some err => Connect_loop open sync rest (errs ++ [err]) conns
          | None => Connect_loop open sync rest errs (conns ++ [conn])
          end
      end
  end.

(** Returns the synchronizer with its pool and the error, if any. *)
Definition Connect (open : sql_Open_t) (sync : Synchronizer)
    : M (Synchronizer * option string) :=
  '(errs, conns) ← Connect_loop open sync (Servers (config sync)) [] [];
  let sync := set_connections sync conns in
  if bool_decide (length errs = 0) then mret (sync, None)
  else mret (sync, Some (errors_text errs)).

Fixpoint Close_loop (i : nat) (conns : list sql_DB) (errs : list string)
    : M (list string) :=
  match conns with
  | [] => mret errs
  | conn :: rest =>
      emit (EvClose i);;
      match db_Close conn with
      | Some err => Close_loop (S i) rest (errs ++ [err])
      | None => Close_loop (S i) rest errs
      end
  end.

Definition Close (sync : Synchronizer) : M (option string) :=
  errs ← Close_loop 0 (connections sync) [];
  if bool_decide (length errs = 0) then mret None
  else mret (Some (errors_text errs)).

(** *** Results of statements run on every connection *)

Definition ExecResults_HasError (e : list ExecResult) : bool :=
  existsb (λ r, bool_decide (e_error r ≠ None)) e.

Definition ExecResults_Error (e : list ExecResult) : string :=
  foldl (λ text r,
           match e_error r with
           | Some err => text +:+ (err +:+ LF)
           | None => text
           end) "" e.

(** [r.Rows != nil && r.Rows.Err() != nil] *)
Definition rows_failed (r : QueryResult) : bool :=
  match Rows r with
  | Some rows => bool_decide (rows_Err rows ≠ None)
  | None => false
  end.

Definition QueryResults_HasError (e : list QueryResult) : bool :=
  existsb rows_failed e.

(** [r.Error()] is the method of the embedded [error] of the result,
    which is nil when the query itself succeeded. *)
Fixpoint QueryResults_Error_loop (e : list QueryResult) (text : string) : M string :=
  match e with
  | [] => mret text
  | r :: rest =>
      if rows_failed r then
        match q_error r with
        | Some err => QueryResults_Error_loop rest (text +:+ (err +:+ LF))
        | None => panic PanicNilDereference
        end
      else QueryResults_Error_loop rest text
  end.

Definition QueryResults_Error (e : list QueryResult) : M string :=
  QueryResults_Error_loop e "".

Fixpoint QueryResults_Close_from (i : nat) (e : list QueryResult) : list Event :=
  match e with
  | [] => []
  | r :: rest =>
      match Rows r with
      | Some _ => EvRowsClose i :: QueryResults_Close_from (S i) rest
      | None => QueryResults_Close_from (S i) rest
      end
  end.

Definition QueryResults_Close (e : list QueryResult) : list Event :=
  QueryResults_Close_from 0 e.

Fixpoint Exec_from (i : nat) (conns : list sql_DB) (query : string)
    (results : list ExecResult) : M (list ExecResult) :=
  match conns with
  | [] => mret results
  | conn :: rest =>
      emit (EvExec i query);;
      Exec_from (S i) rest query (results ++ [{| e_error := db_Exec conn query |}])
  end.

Definition Exec (sync : Synchronizer) (query : string) : M (list ExecResult) :=
  Exec_from 0 (connections sync) query [].

Fixpoint Query_from (i : nat) (conns : list sql_DB) (query : string)
    (args : list string) (results : list QueryResult) : M (list QueryResult) :=
  match conns with
  | [] => mret results
  | conn :: rest =>
      emit (EvQuery i query args);;
      Query_from (S i) rest query args (results ++ [db_Query conn query args])
  end.

Definition Query (sync : Synchronizer) (query : string) (args : list string)
    : M (list QueryResult) :=
  Query_from 0 (connections sync) query args [].

(** *** The corrective statements

    Each of these runs in a goroutine of its own. [rng] is the order in
    which the [range] over the declared columns visits them. *)

Definition column_defs (rng : list (string * string)) : list string :=
  (λ '(columnName, columnType), columnName +:+ " " +:+ columnType) <$> rng.

Definition CreateTable_SQL (rng : list (string * string)) (name : string)
    (table : Table) : string :=
  let createSQL := "CREATE TABLE IF NOT EXISTS " +:+ name +:+ " " in
  let createSQL :=
    if bool_decide (size (Columns table) ≠ 0) then
      createSQL +:+ ("(" +:+ strings.Join (column_defs rng) ", " +:+ ") ")
    else if bool_decide (AsAnotherTable table ≠ "") then
      createSQL +:+ ("AS " +:+ AsAnotherTable table +:+ " ")
    else createSQL in
  createSQL +:+ ("ENGINE = " +:+ Engine table).

Definition finish (conn : sql_DB) (sync : Synchronizer) (l : gmap string string)
    (i : nat) (query failed succeeded : string) : M unit :=
  log_Debug sync l query;;
  emit (EvExec i query);;
  match db_Exec conn query with
  | Some err => log_Error (WithError l err) failed
  | None => log_Info l succeeded
  end.

Definition CreateTable (sync : Synchronizer) (rng : list (string * string))
    (i : nat) (name : string) (table : Table) : M unit :=
  conn ← index (connections sync) i;
  server ← index (Servers (config sync)) i;
  let l : gmap string string :=
    {[ "host" := Host server; "database" := database sync; "table" := name ]} in
  finish conn sync l i (CreateTable_SQL rng name table)
         "Failed to create table" "Created table".

Definition CreateView_SQL (rng : list (string * string)) (name : string)
    (view : Table) : string :=
  let createSQL :=
    if Materialized view then "CREATE MATERIALIZED VIEW IF NOT EXISTS "
    else "CREATE VIEW IF NOT EXISTS " in
  let createSQL := createSQL +:+ (name +:+ " ") in
  let createSQL :=
    if bool_decide (size (Columns view) ≠ 0) then
      createSQL +:+ ("(" +:+ strings.Join (column_defs rng) ", " +:+ ") ")
    else createSQL in
  let createSQL :=
    if bool_decide (Engine view ≠ "") then
      createSQL +:+ ("ENGINE = " +:+ Engine view +:+ " ")
    else createSQL in
  let createSQL :=
    if Populate view then createSQL +:+ "POPULATE " else createSQL in
  createSQL +:+ ("AS " +:+ AsSelect view).

Definition CreateView (sync : Synchronizer) (rng : list (string * string))
    (i : nat) (name : string) (view : Table) : M unit :=
  conn ← index (connections sync) i;
  server ← index (Servers (config sync)) i;
  let l : gmap string string :=
    {[ "host" := Host server; "database" := database sync; "view" := name ]} in
  if bool_decide (AsSelect view = "") then
    log_Error l "as_select is not defined"
  else
    finish conn sync l i (CreateView_SQL rng name view)
           "Failed to create view" "Created view".

Definition column_fields (sync : Synchronizer) (server : Server)
    (name columnName : string) : gmap string string :=
  {[ "host" := Host server; "database" := database sync;
     "view" := name; "column" := columnName ]}.

Definition ModifyColumn_SQL (name columnName columnType : string) : string :=
  "ALTER TABLE " +:+ name +:+ " MODIFY COLUMN " +:+ columnName +:+ " " +:+ columnType.

Definition ModifyColumn (sync : Synchronizer) (i : nat)
    (name columnName columnType : string) : M unit :=
  conn ← index (connections sync) i;
  server ← index (Servers (config sync)) i;
  let l := <["type" := columnType]> (column_fields sync server name columnName) in
  finish conn sync l i (ModifyColumn_SQL name columnName columnType)
         "Failed to modify column type" "Modified column type".

Definition AddColumn_SQL (name columnName columnType : string) : string :=
  "ALTER TABLE " +:+ name +:+ " ADD COLUMN " +:+ columnName +:+ " " +:+ columnType.

Definition AddColumn (sync : Synchronizer) (i : nat)
    (name columnName columnType : string) : M unit :=
  conn ← index (connections sync) i;
  server ← index (Servers (config sync)) i;
  let l := <["type" := columnType]> (column_fields sync server name columnName) in
  finish conn sync l i (AddColumn_SQL name columnName columnType)
         "Failed to add column" "Added column".

Definition DropColumn_SQL (name columnName : string) : string :=
  "ALTER TABLE " +:+ name +:+ " DROP COLUMN " +:+ columnName.

Definition DropColumn (sync : Synchronizer) (i : nat)
    (name columnName : string) : M unit :=
  conn ← index (connections sync) i;
  server ← index (Servers (config sync)) i;
  let l := column_fields sync server name columnName in
  finish conn sync l i (DropColumn_SQL name columnName)
         "Failed to drop column" "Dropped column".

(** What a dispatched task does when it runs: [sync] is the synchronizer
    as the goroutine finds it, [rng] the order of its [range] over the
    columns (used by the two create methods only). *)
Definition run_task (sync : Synchronizer) (rng : list (string * string))
    (t : Task) : M unit :=
  match t with
  | GoCreateTable i name table => CreateTable sync rng i name table
  | GoCreateView i name view => CreateView sync rng i name view
  | GoModifyColumn i name c ty => ModifyColumn sync i name c ty
  | GoAddColumn i name c ty => AddColumn sync i name c ty
  | GoDropColumn i name c => DropColumn sync i name c
  end.

(** The statements a trace sends with [Exec]. *)
Definition statements (t : list Event) : list string :=
  omap (λ e, match e with EvExec _ q => Some q | _ => None end) t.

(** The tasks a trace dispatches with [go]. *)
Definition tasks (t : list Event) : list Task :=
  omap (λ e, match e with EvGo k => Some k | _ => None end) t.

(** *** CheckTable *)

Definition when (b : bool) (m : M unit) : M unit := if b then m else mret tt.

(** One turn of [for e.Rows != nil && e.Rows.Next()], after the scan and
    the update of [exists] and [existColumns]. *)
Definition CheckTable_row (sync : Synchronizer) (l : gmap string string)
    (i : nat) (name : string) (table : Table)
    (columnName columnType : string) : M unit :=
  if bool_decide (size (Columns table) = 0) then mret tt
  else
    match Columns table !! columnName with
    | None =>
        log_Error (WithField l "column" columnName) "Table has excess column";;
        when (fix_ sync && dropColumns sync)
             (emit (EvGo (GoDropColumn i name columnName)))
    | Some needType =>
        match strings.Fields needType with
        | [] => panic (PanicIndexOutOfRange 0 0)
        | needType :: _ =>
            when (bool_decide (needType ≠ columnType))
              (log_Error
                 (WithFields l {[ "column" := columnName;
                                  "need type" := needType;
                                  "has type" := columnType ]})
                 "Column type mismatch";;
               when (fix_ sync) (emit (EvGo (GoModifyColumn i name columnName needType))))
        end
    end.

Fixpoint CheckTable_rows (sync : Synchronizer) (l : gmap string string)
    (i : nat) (name : string) (table : Table)
    (rows : list (string * string))
    (exists_ : bool) (existColumns : gset string) : M (bool * gset string) :=
  match rows with
  | [] => mret (exists_, existColumns)
  | (columnName, columnType) :: rest =>
      let exists_ := true in
      let existColumns := {[ columnName ]} ∪ existColumns in
      CheckTable_row sync l i name table columnName columnType;;
      CheckTable_rows sync l i name table rest exists_ existColumns
  end.

(** [for columnName, needType := range table.Columns], visiting in the
    order [rng]. *)
Fixpoint CheckTable_missing (sync : Synchronizer) (l : gmap string string)
    (i : nat) (name : string) (rng : list (string * string))
    (existColumns : gset string) : M unit :=
  match rng with
  | [] => mret tt
  | (columnName, needType) :: rest =>
      (if bool_decide (columnName ∈ existColumns) then mret tt
       else
         log_Error (WithField l "column" columnName) "Table has not enough columns";;
         when (fix_ sync) (emit (EvGo (GoAddColumn i name columnName needType))));;
      CheckTable_missing sync l i name rest existColumns
  end.

(** The rows a result yields: none when [e.Rows] is nil. *)
Definition live_rows (e : QueryResult) : list (string * string) :=
  match Rows e with
  | Some rows => rows_Next rows
  | None => []
  end.

(** The body of [for i, e := range r]: the check of the table on the
    replica [i]. Returns the logger, which the loop carries along. *)
Definition CheckTable_body (sync : Synchronizer) (rng : list (string * string))
    (name : string) (table : Table) (l : gmap string string)
    (i : nat) (e : QueryResult) : M (gmap string string) :=
  server ← index (Servers (config sync)) i;
  let l := WithField l "host" (Host server) in
  '(exists_, existColumns) ←
     CheckTable_rows sync l i name table (live_rows e) false ∅;
  if negb exists_ then
    log_Error l "Table does not exist";;
    when (fix_ sync)
      (if View table then emit (EvGo (GoCreateView i name table))
       else emit (EvGo (GoCreateTable i name table)));;
    mret l
  else
    CheckTable_missing sync l i name rng existColumns;;
    mret l.

Fixpoint CheckTable_loop (sync : Synchronizer) (rng : nat → list (string * string))
    (name : string) (table : Table) (l : gmap string string)
    (i : nat) (r : list QueryResult) : M unit :=
  match r with
  | [] => mret tt
  | e :: rest =>
      l ← CheckTable_body sync (rng i) name table l i e;
      CheckTable_loop sync rng name table l (S i) rest
  end.

Definition catalog_query : string :=
  "SELECT name, type FROM system.columns WHERE database = ? AND table = ?".

(** [rng i] is the order of the [range] over the declared columns in the
    check of replica [i]. *)
Definition CheckTable (sync : Synchronizer) (rng : nat → list (string * string))
    (name : string) (table : Table) : M unit :=
  let l : gmap string string :=
    {[ "database" := database sync; "table" := name ]} in
  r ← Query sync catalog_query [database sync; name];
  when (QueryResults_HasError r)
       (text ← QueryResults_Error r; log_Error l text);;
  defer (QueryResults_Close r)
        (CheckTable_loop sync rng name table l 0 r).

(** *** CheckDatabase, Check and main *)

(** The orders of the [range] statements met while one database is
    checked: over its tables, and over the columns of each table on each
    replica. *)
Record RangeOrder := {
  tables_order : list (string * Table);
  columns_order : string → nat → list (string * string)
}.

Definition valid_order (db : Database) (o : RangeOrder) : Prop :=
  range_of (Tables db) (tables_order o) ∧
  ∀ name table i, Tables db !! name = Some table →
                  range_of (Columns table) (columns_order o name i).

Fixpoint CheckDatabase_tables (sync : Synchronizer)
    (cols : string → nat → list (string * string))
    (tables : list (string * Table)) : M unit :=
  match tables with
  | [] => mret tt
  | (name, table) :: rest =>
      CheckTable sync (cols name) name table;;
      CheckDatabase_tables sync cols rest
  end.

Definition CheckDatabase (sync : Synchronizer) (o : RangeOrder) (db : Database)
    : M Synchronizer :=
  r ← Exec sync ("USE " +:+ Name db);
  if ExecResults_HasError r then panic (PanicExecResults r)
  else
    let sync := set_database sync (Name db) in
    CheckDatabase_tables sync (columns_order o) (tables_order o);;
    mret sync.

Fixpoint Check_from (sync : Synchronizer) (o : nat → RangeOrder) (k : nat)
    (dbs : list Database) : M Synchronizer :=
  match dbs with
  | [] => mret sync
  | db :: rest =>
      sync ← CheckDatabase sync (o k) db;
      Check_from sync o (S k) rest
  end.

(** [o k] gives the orders used while the [k]-th database is checked. *)
Definition Check (sync : Synchronizer) (o : nat → RangeOrder) : M Synchronizer :=
  Check_from sync o 0 (Databases (config sync)).

(** [main] after the flags and the configuration file are read:
    [cfg] is what [ParseConfig] returned, [sync_flag], [dropColumns_flag]
    and [debug_flag] the values of -sync, -drop-columns and -debug. *)
Definition main (open : sql_Open_t) (o : nat → RangeOrder) (cfg : Config)
    (sync_flag dropColumns_flag debug_flag : bool) : M unit :=
  let synchronizer := NewSynchronizer cfg in
  let synchronizer := SetFix synchronizer sync_flag in
  let synchronizer := SetDropColumns synchronizer dropColumns_flag in
  let synchronizer := SetupLogger synchronizer debug_flag in
  '(synchronizer, err) ← Connect open synchronizer;
  match err with
  | Some text => panic (PanicError text)
  | None =>
      synchronizer ← Check synchronizer o;
      err ← Close synchronizer;
      match err with
      | Some text => panic (PanicError text)
      | None => mret tt
      end
  end.

(** ** Divergences

    The program has no type for a divergence: it reports each one as an
    error-level log entry. A divergence is read off the entry by its
    message and fields. *)

Inductive Divergence :=
| ObjectMissing
| ColumnExcess (name : string)
| TypeMismatch (name wantType haveType : string)
| ColumnMissing (name : string).

#[global] Instance Divergence_eq_dec : EqDecision Divergence.
Proof. solve_decision. Defined.

Definition divergence_of (e : Event) : option Divergence :=
  match e with
  | EvLog ErrorLevel fields msg =>
      if bool_decide (msg = "Table does not exist") then Some ObjectMissing
      else if bool_decide (msg = "Table has excess column") then
        ColumnExcess <$> fields !! "column"
      else if bool_decide (msg = "Column type mismatch") then
        c ← fields !! "column";
        want ← fields !! "need type";
        have ← fields !! "has type";
        Some (TypeMismatch c want have)
      else if bool_decide (msg = "Table has not enough columns") then
        ColumnMissing <$> fields !! "column"
      else None
  | _ => None
  end.

Definition divergences (t : list Event) : list Divergence := omap divergence_of t.

Definition is_excess (d : Divergence) : bool :=
  match d with ColumnExcess _ => true | _ => false end.
Definition is_mismatch (d : Divergence) : bool :=
  match d with TypeMismatch _ _ _ => true | _ => false end.
Definition is_missing (d : Divergence) : bool :=
  match d with ColumnMissing _ => true | _ => false end.

(** In [ds], every divergence of the kind [p] comes before every
    divergence of the kind [q]. *)
Definition all_before (p q : Divergence → bool) (ds : list Divergence) : Prop :=
  ∀ i j x y, ds !! i = Some x → ds !! j = Some y → p x = true → q y = true → i < j.

(** The drift detector of the specification, as a pure function: what one
    live row contributes, and the whole list. [order] is the order in
    which the declared columns are visited. *)
Definition detect_row (desired : gmap string string) (row : string * string)
    : option Divergence :=
  if bool_decide (size desired = 0) then None
  else
    match desired !! row.1 with
    | None => Some (ColumnExcess row.1)
    | Some want =>
        match head (strings.Fields want) with
        | Some tok =>
            if bool_decide (tok = row.2) then None
            else Some (TypeMismatch row.1 tok row.2)
        | None => None
        end
    end.

Definition detect_missing (order : list (string * string))
    (live : list (string * string)) : list Divergence :=
  ColumnMissing <$> filter (λ c, c ∉ live.*1) order.*1.

Definition detect (desired : gmap string string) (order : list (string * string))
    (live : list (string * string)) : list Divergence :=
  match live with
  | [] => [ObjectMissing]
  | _ => omap (detect_row desired) live ++ detect_missing order live
  end.

(** A string that is empty or holds white space only. *)
Definition blank (s : string) : bool :=
  forallb (λ x, unicode.IsSpace x.1) (utf8.range s).

(** Every declared type has a first token. *)
Definition types_well_formed (table : Table) : Prop :=
  map_Forall (λ _ want, blank want = false) (Columns table).

#[global] Instance types_well_formed_dec table : Decision (types_well_formed table).
Proof. unfold types_well_formed. apply _. Defined.

(** The live columns are the declared ones: every live row names a
    declared column and carries the first token of its declared type,
    and every declared column is among the live rows. *)
Definition same_columns (desired : gmap string string)
    (live : list (string * string)) : Prop :=
  Forall (λ row, desired !! row.1 ≫= (λ want, head (strings.Fields want))
                 = Some row.2) live
  ∧ map_Forall (λ c _, c ∈ live.*1) desired.

#[global] Instance same_columns_dec desired live : Decision (same_columns desired live).
Proof. unfold same_columns. apply _. Defined.

(** The drift detector as the specification words it: the three groups
    one after the other. *)
Definition detect_grouped (desired : gmap string string)
    (order : list (string * string)) (live : list (string * string))
    : list Divergence :=
  match live with
  | [] => [ObjectMissing]
  | _ =>
      filter (λ d, is_excess d = true) (omap (detect_row desired) live)
      ++ filter (λ d, is_mismatch d = true) (omap (detect_row desired) live)
      ++ detect_missing order live
  end.

(** The declared type of the column a live row names is blank: the
    check of the row stops there, at [strings.Fields(needType)[0]]. *)
Definition declared_blank (desired : gmap string string) (row : string * string)
    : bool :=
  match desired !! row.1 with
  | Some want => blank want
  | None => false
  end.

(** The live rows that come before the first one whose declared type is
    blank: all of them when there is none. *)
Fixpoint rows_checked (desired : gmap string string) (live : list (string * string))
    : list (string * string) :=
  match live with
  | [] => []
  | row :: rest =>
      if declared_blank desired row then [] else row :: rows_checked desired rest
  end.

(** The live columns that are not declared, for a table that declares at
    least one column. *)
Definition undeclared (desired : gmap string string) (live : list (string * string))
    : list string :=
  if bool_decide (size desired = 0) then []
  else filter (λ c, desired !! c = None) live.*1.

(** ** Definitions used to state the properties *)

(** *** Traces *)

(** A property of traces that holds of the empty trace and is kept by
    concatenation holds of a computation as soon as it holds of each of
    its steps. *)
Definition additive (P : list Event → Prop) : Prop :=
  P [] ∧ ∀ t1 t2, P t1 → P t2 → P (t1 ++ t2).

(** The computation ends by a panic. *)
Definition panics {A} (m : M A) : Prop := ∃ v, outcome m = Panic v.

(** An event other than a [go] statement. *)
Definition no_go (e : Event) : bool :=
  match e with EvGo _ => false | _ => true end.

(** The trace without the [go] statements. *)
Definition logged (t : list Event) : list Event := filter (λ e, no_go e = true) t.

(** [m'] does what [m] does, the [go] statements left out. *)
Definition quiet_of {A} (m' m : M A) : Prop :=
  m' = (logged (trace m), outcome m).

(** The synchronizer with both flags off. *)
Definition quiet (sync : Synchronizer) : Synchronizer :=
  SetDropColumns (SetFix sync false) false.

(** An event that corrects nothing: anything but a [go] statement or the
    [Exec] of a statement other than USE. *)
Definition harmless (e : Event) : Prop :=
  match e with
  | EvGo _ => False
  | EvExec _ query => ∃ db, query = "USE " +:+ db
  | _ => True
  end.

(** The endpoints a trace tries to open. *)
Definition opens (t : list Event) : list string :=
  omap (λ e, match e with EvOpen dsn => Some dsn | _ => None end) t.

(** The [go sync.DropColumn(i, name, column)] statements of a trace. *)
Definition dropped (t : list Event) : list (nat * string * string) :=
  omap (λ e, match e with
             | EvGo (GoDropColumn i name c) => Some (i, name, c)
             | _ => None
             end) t.

(** The [go sync.ModifyColumn(i, name, column, type)] statements. *)
Definition modified (t : list Event) : list (nat * string * string * string) :=
  omap (λ e, match e with
             | EvGo (GoModifyColumn i name c ty) => Some (i, name, c, ty)
             | _ => None
             end) t.

(** The columns of the ColumnExcess divergences. *)
Definition excess_columns (ds : list Divergence) : list string :=
  omap (λ d, match d with ColumnExcess c => Some c | _ => None end) ds.

(** The TypeMismatch divergences: column, wanted type, live type. *)
Definition mismatches (ds : list Divergence) : list (string * string * string) :=
  omap (λ d, match d with
             | TypeMismatch c want have => Some (c, want, have)
             | _ => None
             end) ds.

(** The column a divergence names, if it names one. *)
Definition column_of (d : Divergence) : option string :=
  match d with
  | ObjectMissing => None
  | ColumnExcess c | TypeMismatch c _ _ | ColumnMissing c => Some c
  end.

(** *** The steps of a check *)

(** The events of one turn of the loop over the live rows: nothing, or a
    log entry with, when fixes are on, the task that follows it. *)
Inductive row_events (sync : Synchronizer) (name : string) (table : Table) (i : nat)
    (l : gmap string string) (c ty : string)
    : list Event → Outcome unit → Prop :=
| row_skipped :
    size (Columns table) = 0 →
    row_events sync name table i l c ty [] (Return tt)
| row_excess :
    size (Columns table) ≠ 0 →
    Columns table !! c = None →
    row_events sync name table i l c ty
      (EvLog ErrorLevel (WithField l "column" c) "Table has excess column"
       :: if fix_ sync && dropColumns sync
          then [EvGo (GoDropColumn i name c)] else [])
      (Return tt)
| row_blank want :
    size (Columns table) ≠ 0 →
    Columns table !! c = Some want →
    blank want = true →
    row_events sync name table i l c ty [] (Panic (PanicIndexOutOfRange 0 0))
| row_match want :
    size (Columns table) ≠ 0 →
    Columns table !! c = Some want →
    head (strings.Fields want) = Some ty →
    row_events sync name table i l c ty [] (Return tt)
| row_mismatch want tok :
    size (Columns table) ≠ 0 →
    Columns table !! c = Some want →
    head (strings.Fields want) = Some tok →
    tok ≠ ty →
    row_events sync name table i l c ty
      (EvLog ErrorLevel
         (WithFields l {[ "column" := c; "need type" := tok; "has type" := ty ]})
         "Column type mismatch"
       :: if fix_ sync then [EvGo (GoModifyColumn i name c tok)] else [])
      (Return tt).

(** The events of one turn of the loop over the declared columns. *)
Definition missing_events (sync : Synchronizer) (name : string) (i : nat)
    (l : gmap string string) (c want : string)
    (ec : gset string) : list Event :=
  if bool_decide (c ∈ ec) then []
  else EvLog ErrorLevel (WithField l "column" c) "Table has not enough columns"
       :: if fix_ sync then [EvGo (GoAddColumn i name c want)] else [].

(** The events of a check that found no row. *)
Definition object_events (sync : Synchronizer) (name : string) (table : Table)
    (i : nat) (l : gmap string string) : list Event :=
  EvLog ErrorLevel l "Table does not exist"
  :: if fix_ sync
     then [EvGo (if View table then GoCreateView i name table
                 else GoCreateTable i name table)]
     else [].

(** The logger of the check of a replica. *)
Definition with_host (l : gmap string string) (server : Server) : gmap string string :=
  WithField l "host" (Host server).

(** The drops dispatched are those of the excess columns reported, when
    both flags are set, and none otherwise. *)
Definition drops_follow_excess (sync : Synchronizer) (name : string) (i : nat)
    (t : list Event) : Prop :=
  dropped t = if fix_ sync && dropColumns sync
              then (λ c, (i, name, c)) <$> excess_columns (divergences t)
              else [].

(** The modifications dispatched are those of the mismatches reported,
    when fixes are on, and none otherwise. *)
Definition modifies_follow_mismatch (sync : Synchronizer) (name : string) (i : nat)
    (t : list Event) : Prop :=
  modified t = if fix_ sync
               then (λ m, (i, name, m.1.1, m.1.2)) <$> mismatches (divergences t)
               else [].

(** The wanted type of every mismatch reported is the first token of the
    declared type of its column. *)
Definition mismatch_wants_first_token (table : Table) (t : list Event) : Prop :=
  Forall (λ m, ∃ declared, Columns table !! m.1.1 = Some declared
                           ∧ head (strings.Fields declared) = Some m.1.2)
         (mismatches (divergences t)).



(** *** Connecting *)

(** Every text followed by a line feed, one after the other. *)
Definition lines (texts : list string) : string :=
  foldr (λ text rest, text +:+ LF +:+ rest) "" texts.

(** What an endpoint gives: the text of the failure of [sql.Open] or of
    [Ping], or the connection. *)
Definition attempt (open : sql_Open_t) (sync : Synchronizer) (server : Server)
    : string + sql_DB :=
  match open "clickhouse" (dsn_of sync server) with
  | inl err => inl err
  | inr conn =>
      match db_Ping conn with
      | Some err => inl err
      | None => inr conn
      end
  end.

(** The two sides of what an endpoint gives. *)
Definition failure_of (r : string + sql_DB) : option string :=
  match r with inl err => Some err | inr _ => None end.

Definition opened_of (r : string + sql_DB) : option sql_DB :=
  match r with inl _ => None | inr conn => Some conn end.

(** The failure texts and the connections of all endpoints, in order. *)
Definition failures (open : sql_Open_t) (sync : Synchronizer) : list string :=
  omap (λ server, failure_of (attempt open sync server)) (Servers (config sync)).

Definition pool (open : sql_Open_t) (sync : Synchronizer) : list sql_DB :=
  omap (λ server, opened_of (attempt open sync server)) (Servers (config sync)).

(** The synchronizer [main] builds from the flags. *)
Definition main_synchronizer (cfg : Config) (sync_flag dropColumns_flag debug_flag : bool)
    : Synchronizer :=
  SetupLogger (SetDropColumns (SetFix (NewSynchronizer cfg) sync_flag) dropColumns_flag)
              debug_flag.

(** What [main] does once connected. *)
Definition main_checks (o : nat → RangeOrder) (synchronizer : Synchronizer) : M unit :=
  synchronizer ← Check synchronizer o;
  err ← Close synchronizer;
  match err with
  | Some text => panic (PanicError text)
  | None => mret tt
  end.

(** ** Sample inputs *)

Module Sample.

Definition server : Server :=
  {| Host := "ch1"; Port := 9000%N; User := "default"; Pass := "" |}.

Definition table (columns : gmap string string) : Table :=
  {| View := false; Materialized := false; Populate := false;
     Columns := columns; Engine := "Log";
     AsAnotherTable := ""; AsSelect := "" |}.

Definition result (rows : list (string * string)) : QueryResult :=
  {| Rows := Some {| rows_Next := rows; rows_Err := None |}; q_error := None |}.

Definition conn (rows : list (string * string)) : sql_DB :=
  {| db_Ping := None; db_Exec := λ _, None;
     db_Query := λ _ _, result rows; db_Close := None |}.

Definition sync (fix_ dropColumns : bool) (rows : list (string * string))
    : Synchronizer :=
  {| config := {| Servers := [server]; Databases := [] |};
     connections := [conn rows]; database := "db";
     fix_ := fix_; dropColumns := dropColumns; debug := false |}.

End Sample.

(** ** Definitions used to state the further properties *)

(** The connections a trace closes. *)
Definition closes (t : list Event) : list nat :=
  omap (λ e, match e with EvClose i => Some i | _ => None end) t.

(** The row sets a trace closes. *)
Definition rows_closed (t : list Event) : list nat :=
  omap (λ e, match e with EvRowsClose i => Some i | _ => None end) t.

(** The queries a trace sends. *)
Definition queries (t : list Event) : list (nat * string * list string) :=
  omap (λ e, match e with EvQuery i q args => Some (i, q, args) | _ => None end) t.

(** The [go sync.AddColumn(i, name, column, type)] statements of a trace. *)
Definition added (t : list Event) : list (nat * string * string * string) :=
  omap (λ e, match e with
             | EvGo (GoAddColumn i name c ty) => Some (i, name, c, ty)
             | _ => None
             end) t.

(** The columns of the ColumnMissing divergences. *)
Definition missing_columns (ds : list Divergence) : list string :=
  omap (λ d, match d with ColumnMissing c => Some c | _ => None end) ds.

(** The field maps of the log entries of a trace. *)
Definition entries (t : list Event) : list (gmap string string) :=
  omap (λ e, match e with EvLog _ fields _ => Some fields | _ => None end) t.

(** The replica a task is dispatched for. *)
Definition task_index (t : Task) : nat :=
  match t with
  | GoCreateTable i _ _ | GoCreateView i _ _ | GoModifyColumn i _ _ _
  | GoAddColumn i _ _ _ | GoDropColumn i _ _ => i
  end.

(** The query of the catalog for a table gave a row set whose iteration
    failed although the query itself returned no error. *)
Definition failed_without_error (e : QueryResult) : bool :=
  rows_failed e && bool_decide (q_error e = None).

(** A connection on which every statement succeeds, every query gives a
    sound row set and the close succeeds. *)
Definition healthy (conn : sql_DB) : Prop :=
  (∀ query, db_Exec conn query = None)
  ∧ (∀ query args, rows_failed (db_Query conn query args) = false)
  ∧ db_Close conn = None.

(** A log entry or a [go] statement: an event that sends nothing to a
    server. *)
Definition log_or_go (e : Event) : Prop :=
  match e with
  | EvLog _ _ _ | EvGo _ => True
  | _ => False
  end.

(** What the connections of the pool answer to the catalog query of a
    table. *)
Definition catalog_results (sync : Synchronizer) (name : string) : list QueryResult :=
  (λ conn, db_Query conn catalog_query [database sync; name]) <$> connections sync.

(** The additions dispatched name the missing columns reported, when
    fixes are on, and there is none otherwise. *)
Definition adds_follow_missing (sync : Synchronizer) (t : list Event) : Prop :=
  (λ a, a.1.2) <$> added t
  = if fix_ sync then missing_columns (divergences t) else [].

(** Every addition dispatched is for the replica [i] and the table [name]
    and carries a column and a type that the range over the declared
    columns visited together. *)
Definition adds_carry_declared (name : string) (i : nat) (rng : list (string * string))
    (t : list Event) : Prop :=
  Forall (λ a, a.1.1.1 = i ∧ a.1.1.2 = name ∧ (a.1.2, a.2) ∈ rng) (added t).

(** Every log entry of the trace has the value [v] in the field [k]. *)
Definition carries (k v : string) (t : list Event) : Prop :=
  Forall (λ fields : gmap string string, fields !! k = Some v) (entries t).

(** An event of a task for the replica [i]: a log entry or a statement
    executed on the connection [i]. *)
Definition task_event (i : nat) (e : Event) : Prop :=
  match e with
  | EvLog _ _ _ => True
  | EvExec j _ => j = i
  | _ => False
  end.

(** The log entry that ends a task reports what the connection answered
    to the statement: an error entry with the text of the failure, or an
    information entry. *)
Definition reports_answer (conn : sql_DB) (t : list Event) : Prop :=
  ∀ query, query ∈ statements t →
    match db_Exec conn query with
    | Some err => ∃ l msg, last t = Some (EvLog ErrorLevel l msg) ∧ l !! "error" = Some err
    | None => ∃ l msg, last t = Some (EvLog InfoLevel l msg)
    end.

(** * Properties *)

(** ** Tokens *)

Example Fields_default : strings.Fields "UInt8 DEFAULT 0" = ["UInt8"; "DEFAULT"; "0"].
Proof. vm_compute. reflexivity. Qed.

Example Fields_blank : strings.Fields (String (ascii_of_nat 9) "  ") = [].
Proof. vm_compute. reflexivity. Qed.

(* U+00A0 (C2 A0) is a space, U+00E9 (C3 A9) is not. *)
Example Fields_nbsp :
  strings.Fields ("a" +:+ String (ascii_of_nat 194) (String (ascii_of_nat 160) "b"))
  = ["a"; "b"].
Proof. vm_compute. reflexivity. Qed.

Example Fields_e_acute :
  length (strings.Fields ("a" +:+ String (ascii_of_nat 195) (String (ascii_of_nat 169) "b")))
  = 1.
Proof. vm_compute. reflexivity. Qed.

Lemma FieldsFunc_loop_nil (f : N → bool) (rs : list (N * string)) (cur : option string) :
  strings.FieldsFunc_loop f rs cur = [] ↔
  cur = None ∧ forallb (λ x, f x.1) rs = true.
Proof.
  revert cur. induction rs as [|[r bs] rs IH]; intros cur; simpl.
  - destruct cur; split; [discriminate | intros [? _]; discriminate | done | done].
  - destruct (f r); simpl.
    + destruct cur as [w|]; [|apply IH].
      split; [discriminate | intros [? _]; discriminate].
    + rewrite IH. split; intros [? ?]; discriminate.
Qed.

(** [strings.Fields] finds no token exactly in the blank strings. *)
Lemma Fields_nil_blank (s : string) : strings.Fields s = [] ↔ blank s = true.
Proof.
  unfold strings.Fields, strings.FieldsFunc, blank.
  rewrite FieldsFunc_loop_nil. split; [by intros [_ ?] | done].
Qed.

Lemma Fields_head_blank (s : string) : head (strings.Fields s) = None ↔ blank s = true.
Proof.
  rewrite <- Fields_nil_blank. destruct (strings.Fields s); simpl; split; done.
Qed.

Lemma Fields_not_blank (s : string) :
  blank s = false → ∃ tok rest, strings.Fields s = tok :: rest.
Proof.
  intros Hb. destruct (strings.Fields s) as [|tok rest] eqn:E; [|eauto].
  apply Fields_nil_blank in E. congruence.
Qed.

(** ** Traces of computations *)

Lemma bind_Return {A B} (t : list Event) (a : A) (f : A → M B) :
  ((t, Return a) : M A) ≫= f = (t ++ trace (f a), outcome (f a)).
Proof. unfold mbind, M_bind, trace, outcome. by destruct (f a). Qed.

Lemma bind_Panic {A B} (t : list Event) (v : PanicValue) (f : A → M B) :
  ((t, Panic v) : M A) ≫= f = (t, Panic v).
Proof. done. Qed.

Lemma M_eta {A} (m : M A) : m = (trace m, outcome m).
Proof. by destruct m. Qed.

Lemma bind_ret {A B} (a : A) (f : A → M B) : mret a ≫= f = f a.
Proof. unfold mret, M_ret, mbind, M_bind. by destruct (f a). Qed.

Lemma bind_returns {A B} (m : M A) (a : A) (f : A → M B) :
  outcome m = Return a →
  m ≫= f = (trace m ++ trace (f a), outcome (f a)).
Proof. intros H. rewrite (M_eta m), H. apply bind_Return. Qed.

Lemma bind_panics {A B} (m : M A) (v : PanicValue) (f : A → M B) :
  outcome m = Panic v → m ≫= f = (trace m, Panic v).
Proof. intros H. by rewrite (M_eta m), H. Qed.

Lemma additive_bind {A B} (P : list Event → Prop) (m : M A) (f : A → M B) :
  additive P → P (trace m) → (∀ a, P (trace (f a))) → P (trace (m ≫= f)).
Proof.
  intros [_ Happ] Hm Hf. destruct (outcome m) as [a|v] eqn:E.
  - rewrite (bind_returns _ _ _ E). by apply Happ.
  - by rewrite (bind_panics _ _ _ E).
Qed.

Lemma additive_when (P : list Event → Prop) (b : bool) (m : M unit) :
  additive P → (b = true → P (trace m)) → P (trace (when b m)).
Proof. intros [Hnil _] Hm. destruct b; simpl; auto. Qed.

Lemma log_then_when (l : gmap string string) (msg : string) (b : bool) (e : Event) :
  (log_Error l msg;; when b (emit e))
  = (EvLog ErrorLevel l msg :: if b then [e] else [], Return tt).
Proof. by destruct b. Qed.

Lemma additive_Forall (Q : Event → Prop) : additive (Forall Q).
Proof. split; [constructor|]. intros t1 t2 H1 H2. by apply Forall_app. Qed.

Lemma divergences_app (t1 t2 : list Event) :
  divergences (t1 ++ t2) = divergences t1 ++ divergences t2.
Proof. apply omap_app. Qed.

Lemma divergences_cons (e : Event) (t : list Event) :
  divergences (e :: t) = option_list (divergence_of e) ++ divergences t.
Proof. unfold divergences. simpl. by destruct (divergence_of e). Qed.

Lemma tasks_app (t1 t2 : list Event) : tasks (t1 ++ t2) = tasks t1 ++ tasks t2.
Proof. apply omap_app. Qed.

Lemma statements_app (t1 t2 : list Event) :
  statements (t1 ++ t2) = statements t1 ++ statements t2.
Proof. apply omap_app. Qed.

(** ** Reading divergences off the log *)

Lemma divergence_of_object (l : gmap string string) :
  divergence_of (EvLog ErrorLevel l "Table does not exist") = Some ObjectMissing.
Proof. done. Qed.

Lemma divergence_of_excess (l : gmap string string) (c : string) :
  divergence_of (EvLog ErrorLevel (WithField l "column" c) "Table has excess column")
  = Some (ColumnExcess c).
Proof.
  unfold divergence_of, WithField.
  rewrite bool_decide_eq_false_2 by discriminate.
  rewrite bool_decide_eq_true_2 by reflexivity.
  by rewrite lookup_insert_eq.
Qed.

Lemma divergence_of_mismatch (l : gmap string string) (c want have : string) :
  divergence_of
    (EvLog ErrorLevel
       (WithFields l {[ "column" := c; "need type" := want; "has type" := have ]})
       "Column type mismatch")
  = Some (TypeMismatch c want have).
Proof.
  unfold divergence_of, WithFields.
  rewrite !bool_decide_eq_false_2 by discriminate.
  rewrite bool_decide_eq_true_2 by reflexivity.
  rewrite (lookup_union_Some_l _ l "column" c) by by simplify_map_eq.
  rewrite (lookup_union_Some_l _ l "need type" want) by by simplify_map_eq.
  rewrite (lookup_union_Some_l _ l "has type" have) by by simplify_map_eq.
  done.
Qed.

Lemma divergence_of_missing (l : gmap string string) (c : string) :
  divergence_of (EvLog ErrorLevel (WithField l "column" c) "Table has not enough columns")
  = Some (ColumnMissing c).
Proof.
  unfold divergence_of, WithField.
  rewrite !bool_decide_eq_false_2 by discriminate.
  rewrite bool_decide_eq_true_2 by reflexivity.
  by rewrite lookup_insert_eq.
Qed.

(** ** The check of one replica *)

Section replica.
Variables (sync : Synchronizer) (name : string) (table : Table) (i : nat).

Lemma CheckTable_row_events (l : gmap string string) (c ty : string) :
  row_events sync name table i l c ty (trace (CheckTable_row sync l i name table c ty))
                    (outcome (CheckTable_row sync l i name table c ty)).
Proof.
  unfold CheckTable_row. case_bool_decide as Hsz; [by constructor|].
  destruct (Columns table !! c) as [want|] eqn:Hc.
  - destruct (strings.Fields want) as [|tok rest] eqn:Hf.
    + eapply row_blank; [done..|]. by apply Fields_nil_blank.
    + case_bool_decide as Hne; simpl.
      * assert (head (strings.Fields want) = Some tok) as Hh by by rewrite Hf.
        pose proof (row_mismatch sync name table i l c ty want tok Hsz Hc Hh Hne) as H.
        by destruct (fix_ sync).
      * subst ty.
        eapply row_match; [done..|]. by rewrite Hf.
  - pose proof (row_excess sync name table i l c ty Hsz Hc) as H. simpl.
    by destruct (fix_ sync && dropColumns sync).
Qed.

Lemma row_events_divergences l c ty t o :
  row_events sync name table i l c ty t o →
  divergences t = option_list (detect_row (Columns table) (c, ty)).
Proof.
  unfold detect_row. intros H; destruct H; cbn [fst snd].
  - by rewrite bool_decide_eq_true_2.
  - rewrite bool_decide_eq_false_2 by done. rewrite H0.
    rewrite divergences_cons, divergence_of_excess. by destruct (_ && _).
  - rewrite bool_decide_eq_false_2 by done. rewrite H0.
    apply Fields_head_blank in H1. by rewrite H1.
  - rewrite bool_decide_eq_false_2 by done. rewrite H0, H1.
    by rewrite bool_decide_eq_true_2.
  - rewrite bool_decide_eq_false_2 by done. rewrite H0, H1.
    rewrite bool_decide_eq_false_2 by done.
    rewrite divergences_cons, divergence_of_mismatch. by destruct (fix_ sync).
Qed.

Lemma row_events_returns l c ty t o :
  types_well_formed table → row_events sync name table i l c ty t o → o = Return tt.
Proof.
  intros Hwf H; destruct H; try done.
  apply Hwf in H0. congruence.
Qed.

(** *** The loop over the live rows *)

Lemma CheckTable_rows_additive (P : list Event → Prop) l rows ex ec :
  additive P →
  (∀ c ty, P (trace (CheckTable_row sync l i name table c ty))) →
  P (trace (CheckTable_rows sync l i name table rows ex ec)).
Proof.
  intros HP Hrow. revert ex ec.
  induction rows as [|[c ty] rows IH]; intros ex ec; simpl.
  - apply HP.
  - apply additive_bind; auto.
Qed.

Lemma CheckTable_row_returns l c ty :
  types_well_formed table →
  outcome (CheckTable_row sync l i name table c ty) = Return tt.
Proof. intros Hwf. eapply row_events_returns, CheckTable_row_events. done. Qed.

Lemma CheckTable_row_divergences l c ty :
  divergences (trace (CheckTable_row sync l i name table c ty))
  = option_list (detect_row (Columns table) (c, ty)).
Proof. eapply row_events_divergences, CheckTable_row_events. Qed.

Lemma CheckTable_rows_returns l rows ex ec :
  types_well_formed table →
  outcome (CheckTable_rows sync l i name table rows ex ec)
  = Return (ex || bool_decide (rows ≠ []), list_to_set rows.*1 ∪ ec).
Proof.
  intros Hwf. revert ex ec.
  induction rows as [|[c ty] rows IH]; intros ex ec; simpl.
  - rewrite orb_false_r. f_equal. f_equal. set_solver.
  - rewrite (bind_returns _ tt) by by apply CheckTable_row_returns.
    unfold outcome at 1. simpl. fold (outcome (CheckTable_rows sync l i name table rows true ({[c]} ∪ ec))).
    rewrite IH. rewrite orb_true_r. simpl. f_equal. f_equal. set_solver.
Qed.

Lemma CheckTable_rows_divergences l rows ex ec :
  types_well_formed table →
  divergences (trace (CheckTable_rows sync l i name table rows ex ec))
  = omap (detect_row (Columns table)) rows.
Proof.
  intros Hwf. revert ex ec.
  induction rows as [|[c ty] rows IH]; intros ex ec; simpl; [done|].
  rewrite (bind_returns _ tt) by by apply CheckTable_row_returns.
  unfold trace at 1. simpl. rewrite divergences_app, CheckTable_row_divergences.
  rewrite IH. by destruct (detect_row _ _).
Qed.

(** *** The loop over the declared columns *)

Lemma CheckTable_missing_cons l c want rng ec :
  CheckTable_missing sync l i name ((c, want) :: rng) ec
  = (missing_events sync name i l c want ec
       ++ trace (CheckTable_missing sync l i name rng ec),
     outcome (CheckTable_missing sync l i name rng ec)).
Proof.
  cbn [CheckTable_missing]. unfold missing_events.
  case_bool_decide; [rewrite bind_ret; apply M_eta|].
  rewrite log_then_when. by rewrite bind_Return.
Qed.

Lemma CheckTable_missing_additive (P : list Event → Prop) l rng ec :
  additive P →
  (∀ c want, (c, want) ∈ rng → P (missing_events sync name i l c want ec)) →
  P (trace (CheckTable_missing sync l i name rng ec)).
Proof.
  intros HP Hstep. induction rng as [|[c want] rng IH].
  - apply HP.
  - rewrite CheckTable_missing_cons. apply HP.
    + apply Hstep. by left.
    + apply IH. intros c' want' Hin. apply Hstep. by right.
Qed.

Lemma CheckTable_missing_returns l rng ec :
  outcome (CheckTable_missing sync l i name rng ec) = Return tt.
Proof.
  induction rng as [|[c want] rng IH]; [done|].
  by rewrite CheckTable_missing_cons.
Qed.

Lemma CheckTable_missing_divergences l rng ec :
  divergences (trace (CheckTable_missing sync l i name rng ec))
  = ColumnMissing <$> filter (λ c, c ∉ ec) rng.*1.
Proof.
  induction rng as [|[c want] rng IH]; [done|].
  rewrite CheckTable_missing_cons. cbn [trace fst].
  rewrite divergences_app, IH, fmap_cons, filter_cons. cbn [fst].
  unfold missing_events. case_bool_decide as Hin.
  - by rewrite decide_False by by intros ?.
  - rewrite decide_True by done.
    rewrite divergences_cons, divergence_of_missing. by destruct (fix_ sync).
Qed.

(** *** The body of the loop over the replicas *)

Lemma CheckTable_body_object l l' :
  (log_Error l "Table does not exist";;
   when (fix_ sync)
     (if View table then emit (EvGo (GoCreateView i name table))
      else emit (EvGo (GoCreateTable i name table)));;
   mret l' : M (gmap string string))
  = (object_events sync name table i l, Return l').
Proof. unfold object_events. by destruct (fix_ sync), (View table). Qed.

Lemma CheckTable_body_empty rng l e server :
  Servers (config sync) !! i = Some server →
  live_rows e = [] →
  CheckTable_body sync rng name table l i e
  = (object_events sync name table i (with_host l server), Return (with_host l server)).
Proof.
  intros Hs He. unfold CheckTable_body, index. rewrite Hs, bind_ret, He.
  cbn [CheckTable_rows]. rewrite bind_ret. cbn [negb].
  apply CheckTable_body_object.
Qed.

Lemma CheckTable_body_rows rng l e server :
  Servers (config sync) !! i = Some server →
  types_well_formed table →
  live_rows e ≠ [] →
  CheckTable_body sync rng name table l i e
  = (trace (CheckTable_rows sync (with_host l server) i name table
              (live_rows e) false ∅)
     ++ trace (CheckTable_missing sync (with_host l server) i name rng
                 (list_to_set (live_rows e).*1 ∪ ∅)),
     Return (with_host l server)).
Proof.
  intros Hs Hwf He. unfold CheckTable_body, index. rewrite Hs, bind_ret.
  fold (with_host l server).
  rewrite (bind_returns _ _ _ (CheckTable_rows_returns _ _ _ _ Hwf)).
  rewrite bool_decide_eq_true_2 by done. cbn [orb negb].
  rewrite (bind_returns _ tt) by apply CheckTable_missing_returns.
  by rewrite app_nil_r.
Qed.

Lemma CheckTable_body_additive (P : list Event → Prop) rng l e :
  additive P →
  (∀ l c ty, P (trace (CheckTable_row sync l i name table c ty))) →
  (∀ l c want ec, (c, want) ∈ rng → P (missing_events sync name i l c want ec)) →
  (∀ l, P (object_events sync name table i l)) →
  P (trace (CheckTable_body sync rng name table l i e)).
Proof.
  intros HP Hrow Hmiss Hobj. unfold CheckTable_body.
  apply additive_bind; [done| |].
  { unfold index. destruct (_ !! i); apply HP. }
  intros server. apply additive_bind; [done| |].
  { by apply CheckTable_rows_additive. }
  intros [ex ec]. destruct ex; cbn [negb].
  - apply additive_bind; [done| |intros; apply HP].
    apply CheckTable_missing_additive; [done|]. intros c want Hin. by apply Hmiss.
  - rewrite CheckTable_body_object. apply Hobj.
Qed.

(** *** A declared type that is blank *)

Lemma CheckTable_row_checked l c ty :
  declared_blank (Columns table) (c, ty) = false →
  outcome (CheckTable_row sync l i name table c ty) = Return tt.
Proof.
  intros Hb. destruct (CheckTable_row_events l c ty) as [| |want ? Hc Hw| |]; try done.
  unfold declared_blank in Hb. cbn [fst] in Hb. rewrite Hc in Hb. congruence.
Qed.

Lemma CheckTable_row_stops l c ty :
  declared_blank (Columns table) (c, ty) = true →
  CheckTable_row sync l i name table c ty = ([], Panic (PanicIndexOutOfRange 0 0)).
Proof.
  unfold declared_blank. cbn [fst].
  destruct (Columns table !! c) as [want|] eqn:Hc; [|done]. intros Hb.
  unfold CheckTable_row. rewrite bool_decide_eq_false_2.
  - rewrite Hc. apply Fields_nil_blank in Hb. by rewrite Hb.
  - intros Hsz. apply map_size_empty_iff in Hsz.
    rewrite Hsz in Hc. by rewrite lookup_empty in Hc.
Qed.

(** The loop over the live rows reports what the detector finds in the
    rows checked, and panics at the first row whose declared type is
    blank. *)
Lemma CheckTable_rows_checked l rows ex ec :
  divergences (trace (CheckTable_rows sync l i name table rows ex ec))
  = omap (detect_row (Columns table)) (rows_checked (Columns table) rows)
  ∧ outcome (CheckTable_rows sync l i name table rows ex ec)
    = if bool_decide (rows_checked (Columns table) rows = rows)
      then Return (ex || bool_decide (rows ≠ []), list_to_set rows.*1 ∪ ec)
      else Panic (PanicIndexOutOfRange 0 0).
Proof.
  revert ex ec. induction rows as [|[c ty] rows IH]; intros ex ec.
  - cbn. rewrite orb_false_r. split; [done|]. f_equal. f_equal. set_solver.
  - cbn [CheckTable_rows rows_checked].
    destruct (declared_blank (Columns table) (c, ty)) eqn:Hb.
    + rewrite (CheckTable_row_stops _ _ _ Hb), bind_Panic.
      by rewrite bool_decide_eq_false_2.
    + rewrite (bind_returns _ tt) by by apply CheckTable_row_checked.
      cbn [trace outcome fst snd].
      destruct (IH true ({[c]} ∪ ec)) as [Hd Ho].
      rewrite divergences_app, CheckTable_row_divergences, Hd, Ho.
      split.
      { change (omap ?f (?x :: ?r)) with
          (match f x with Some y => y :: omap f r | None => omap f r end).
        by destruct (detect_row _ _). }
      case_bool_decide as Hr.
      * rewrite (bool_decide_eq_true_2 (_ :: _ = _)) by by rewrite Hr.
        rewrite orb_true_r. cbn [orb]. f_equal. f_equal. set_solver.
      * rewrite (bool_decide_eq_false_2 (_ :: _ = _)); [done|]. intros [=]. done.
Qed.

End replica.

(** ** Order of the divergences *)

Lemma all_before_app (p q : Divergence → bool) (l1 l2 : list Divergence) :
  Forall (λ x, q x = false) l1 →
  Forall (λ y, p y = false) l2 →
  all_before p q (l1 ++ l2).
Proof.
  intros H1 H2 i j x y Hi Hj Hp Hq.
  destruct (decide (j < length l1)) as [Hlt|Hge].
  - rewrite lookup_app_l in Hj by done.
    rewrite Forall_forall in H1. apply list_elem_of_lookup_2, H1 in Hj. congruence.
  - destruct (decide (i < length l1)) as [Hlt'|Hge']; [lia|].
    rewrite lookup_app_r in Hi by lia.
    rewrite Forall_forall in H2. apply list_elem_of_lookup_2, H2 in Hi. congruence.
Qed.

Lemma detect_row_not_missing (desired : gmap string string) (live : list (string * string)) :
  Forall (λ d, is_missing d = false) (omap (detect_row desired) live).
Proof.
  apply Forall_forall. intros d Hd. apply list_elem_of_omap in Hd as (row & _ & Hd).
  unfold detect_row in Hd. repeat case_match; by simplify_eq.
Qed.

Lemma detect_missing_kind (order live : list (string * string)) :
  Forall (λ d, is_excess d = false ∧ is_mismatch d = false) (detect_missing order live).
Proof.
  apply Forall_forall. intros d Hd. unfold detect_missing in Hd.
  apply list_elem_of_fmap in Hd as (c & -> & _). done.
Qed.

Lemma divergences_object_events sync name table i l :
  divergences (object_events sync name table i l) = [ObjectMissing].
Proof. unfold object_events. by destruct (fix_ sync). Qed.

Lemma filter_not_in_set (ec : list string) (l : list string) :
  filter (λ c, c ∉ (list_to_set ec ∪ ∅ : gset string)) l = filter (λ c, c ∉ ec) l.
Proof. apply list_filter_iff. intros c. set_solver. Qed.

(** What one check reports, on any table: nothing when the replica is
    not among the servers, ObjectMissing alone when no row is read, and
    otherwise what the detector finds in the rows checked, followed, when
    every row was checked, by the declared columns no row names. *)
Lemma CheckTable_body_divergences sync rng name table l i e :
  divergences (trace (CheckTable_body sync rng name table l i e))
  = match Servers (config sync) !! i with
    | None => []
    | Some _ =>
        match live_rows e with
        | [] => [ObjectMissing]
        | _ =>
            omap (detect_row (Columns table))
                 (rows_checked (Columns table) (live_rows e))
            ++ (if bool_decide (rows_checked (Columns table) (live_rows e)
                                = live_rows e)
                then ColumnMissing <$> filter (λ c, c ∉ (live_rows e).*1) rng.*1
                else [])
        end
    end.
Proof.
  destruct (Servers (config sync) !! i) as [server|] eqn:Hs.
  2:{ unfold CheckTable_body, index. by rewrite Hs. }
  destruct (live_rows e) as [|row rows] eqn:He.
  { rewrite (CheckTable_body_empty _ _ _ _ _ _ _ server) by done.
    apply divergences_object_events. }
  rewrite <- He. unfold CheckTable_body, index. rewrite Hs, bind_ret.
  fold (with_host l server).
  destruct (CheckTable_rows_checked sync name table i (with_host l server)
              (live_rows e) false ∅) as [Hd Ho].
  case_bool_decide as Hr.
  - rewrite (bind_returns _ _ _ Ho).
    rewrite (bool_decide_eq_true_2 (live_rows e ≠ [])) by by rewrite He.
    cbn [orb negb]. rewrite (bind_returns _ tt) by apply CheckTable_missing_returns.
    cbn [trace fst mret M_ret]. rewrite app_nil_r, divergences_app, Hd.
    by rewrite CheckTable_missing_divergences, filter_not_in_set.
  - rewrite (bind_panics _ _ _ Ho). cbn [trace fst]. by rewrite Hd, app_nil_r.
Qed.

Lemma rows_checked_well_formed (table : Table) (live : list (string * string)) :
  types_well_formed table → rows_checked (Columns table) live = live.
Proof.
  intros Hwf. induction live as [|[c ty] live IH]; [done|].
  cbn [rows_checked]. unfold declared_blank. cbn [fst].
  destruct (Columns table !! c) as [want|] eqn:Hc; [|by rewrite IH].
  apply Hwf in Hc. cbn beta in Hc. by rewrite Hc, IH.
Qed.

(** What one check reports on a well-formed table is what the detector
    computes: a pass over the live rows, then a pass over the declared
    columns. *)
Lemma CheckTable_body_detect sync rng name table l i e server :
  Servers (config sync) !! i = Some server →
  types_well_formed table →
  divergences (trace (CheckTable_body sync rng name table l i e))
  = detect (Columns table) rng (live_rows e).
Proof.
  intros Hs Hwf. destruct (live_rows e) as [|row rows] eqn:He.
  - rewrite (CheckTable_body_empty _ _ _ _ _ _ _ server) by done.
    apply divergences_object_events.
  - rewrite (CheckTable_body_rows _ _ _ _ _ _ _ server) by (done || by rewrite He).
    cbn [trace fst]. rewrite divergences_app.
    rewrite CheckTable_rows_divergences by done.
    rewrite CheckTable_missing_divergences, filter_not_in_set.
    by rewrite He.
Qed.

(** C1, as the code has it. For every table, one check of one replica
    reports exactly: for no live row, ObjectMissing alone; otherwise what
    the live rows give, excess columns and type mismatches interleaved in
    the discovery order of the rows, and after all of them the missing
    columns, in the order in which the range over the declared columns
    visits them. The rows are checked up to the first one whose declared
    type is blank, where the check panics and reports nothing more; on a
    table whose declared types all have a first token that is every row.
    Nothing is reported for a replica that is not among the servers. *)
Theorem C1_live_then_missing sync rng name table l i e :
  let ds := divergences (trace (CheckTable_body sync rng name table l i e)) in
  let checked := rows_checked (Columns table) (live_rows e) in
  ds = match Servers (config sync) !! i with
       | None => []
       | Some _ =>
           match live_rows e with
           | [] => [ObjectMissing]
           | _ =>
               omap (detect_row (Columns table)) checked
               ++ (if bool_decide (checked = live_rows e)
                   then ColumnMissing <$> filter (λ c, c ∉ (live_rows e).*1) rng.*1
                   else [])
           end
       end
  ∧ (types_well_formed table → checked = live_rows e)
  ∧ all_before is_excess is_missing ds
  ∧ all_before is_mismatch is_missing ds.
Proof.
  intros ds checked. subst ds checked.
  rewrite CheckTable_body_divergences.
  split; [done|]. split; [apply rows_checked_well_formed|].
  assert (∀ p, all_before p is_missing []) as Hnil.
  { intros p i' j x y Hi. by rewrite lookup_nil in Hi. }
  destruct (Servers (config sync) !! i); [|by split].
  destruct (live_rows e) as [|row rows].
  - split; intros i' j x y Hi Hj Hp Hq;
      apply list_elem_of_lookup_2, list_elem_of_singleton in Hi; by subst.
  - assert (Forall (λ d, is_excess d = false ∧ is_mismatch d = false)
              (if bool_decide (rows_checked (Columns table) (row :: rows) = row :: rows)
               then ColumnMissing <$> filter (λ c, c ∉ (row :: rows).*1) rng.*1
               else [])) as Hmiss.
    { case_bool_decide; [apply detect_missing_kind|constructor]. }
    split; (apply all_before_app; [apply detect_row_not_missing|]);
      (eapply Forall_impl; [apply Hmiss|]); by intros ? [? ?].
Qed.

(** A table with a blank declared type, on a column the replica has not:
    the check reads its one row, reports the mismatch and then the
    missing column. *)
Lemma C1_live_then_missing_witness :
  let rows := [("a", "Int")] in
  let rng := [("b", " "); ("a", "String")] in
  let table := Sample.table {[ "a" := "String"; "b" := " " ]} in
  let ds := divergences (trace (CheckTable_body (Sample.sync true false rows)
                                  rng "t" table ∅ 0 (Sample.result rows))) in
  ds = [TypeMismatch "a" "String" "Int"; ColumnMissing "b"]
  ∧ all_before is_excess is_missing ds
  ∧ all_before is_mismatch is_missing ds.
Proof.
  intros rows rng table.
  pose proof (C1_live_then_missing (Sample.sync true false rows) rng "t" table ∅ 0
                (Sample.result rows)) as H.
  cbv zeta in H. destruct H as (Hds & _ & Hexcess & Hmismatch).
  split_and!; [|exact Hexcess|exact Hmismatch].
  rewrite Hds. vm_compute. reflexivity.
Defined.

(** C1 as stated fails: a type mismatch found on an earlier live row is
    reported before an excess column found on a later one. *)
Lemma C1_counterexample :
  let rows := [("a", "Int"); ("x", "String")] in
  let rng := [("a", "String")] in
  let table := Sample.table {[ "a" := "String" ]} in
  let ds := divergences (trace (CheckTable_body (Sample.sync false false rows)
                                  rng "t" table ∅ 0 (Sample.result rows))) in
  range_of (Columns table) rng
  ∧ ds = [TypeMismatch "a" "String" "Int"; ColumnExcess "x"]
  ∧ ¬ all_before is_excess is_mismatch ds
  ∧ ds ≠ detect_grouped (Columns table) rng rows.
Proof.
  cbv zeta. split; [by vm_compute|].
  assert (divergences (trace (CheckTable_body (Sample.sync false false
            [("a", "Int"); ("x", "String")]) [("a", "String")] "t"
            (Sample.table {[ "a" := "String" ]}) ∅ 0
            (Sample.result [("a", "Int"); ("x", "String")])))
          = [TypeMismatch "a" "String" "Int"; ColumnExcess "x"]) as ->
    by (vm_compute; reflexivity).
  split; [done|]. split.
  - intros H.
    specialize (H 1 0 (ColumnExcess "x") (TypeMismatch "a" "String" "Int")
                  eq_refl eq_refl eq_refl eq_refl). lia.
  - vm_compute. discriminate.
Qed.

(** ** Matching columns *)

Lemma same_columns_well_formed (table : Table) (live : list (string * string)) :
  same_columns (Columns table) live → types_well_formed table.
Proof.
  intros [Hlive Hdes] c want Hc. cbn beta.
  specialize (Hdes c want Hc). cbn beta in Hdes.
  apply list_elem_of_fmap in Hdes as ([c' ty] & -> & Hrow).
  rewrite Forall_forall in Hlive. specialize (Hlive _ Hrow).
  cbn [fst snd] in *. rewrite Hc in Hlive. cbn in Hlive.
  destruct (blank want) eqn:Hb; [|done].
  apply Fields_head_blank in Hb. congruence.
Qed.

Lemma CheckTable_row_same sync name table i l c ty :
  Columns table !! c ≫= (λ want, head (strings.Fields want)) = Some ty →
  CheckTable_row sync l i name table c ty = ([], Return tt).
Proof.
  intros Hrow. rewrite (M_eta (CheckTable_row _ _ _ _ _ _ _)).
  destruct (CheckTable_row_events sync name table i l c ty)
    as [?|? Hc|want ? Hc Hb|want ? Hc Hh|want tok ? Hc Hh Hne]; try done;
    rewrite Hc in Hrow; cbn in Hrow.
  - done.
  - apply Fields_head_blank in Hb. congruence.
  - congruence.
Qed.

(** C2, as the code has it: when at least one live row is returned and
    the live columns are the declared ones, the check of the replica
    writes no log entry and dispatches no task. *)
Theorem C2_same_columns_silent sync rng name table l i e server :
  Servers (config sync) !! i = Some server →
  range_of (Columns table) rng →
  live_rows e ≠ [] →
  same_columns (Columns table) (live_rows e) →
  CheckTable_body sync rng name table l i e = ([], Return (with_host l server)).
Proof.
  intros Hs Hrng He Hsame.
  rewrite (CheckTable_body_rows _ _ _ _ _ _ _ server)
    by eauto using same_columns_well_formed.
  destruct Hsame as [Hlive Hdes].
  assert (additive (λ t : list Event, t = [])) as Hadd.
  { split; [done|]. by intros ? ? -> ->. }
  f_equal. apply app_nil. split.
  - clear He Hdes. generalize false, (∅ : gset string).
    induction (live_rows e) as [|[c ty] rows IH]; intros ex ec; [done|].
    apply Forall_cons in Hlive as [Hrow Hlive]. cbn [CheckTable_rows].
    rewrite CheckTable_row_same by done. rewrite bind_Return.
    cbn [trace fst app]. by apply IH.
  - apply (CheckTable_missing_additive sync name i (λ t, t = [])); [done|].
    intros c want Hin. unfold missing_events.
    rewrite bool_decide_eq_true_2; [done|].
    rewrite Hrng in Hin. apply elem_of_map_to_list in Hin.
    specialize (Hdes c want Hin). set_solver.
Qed.

Lemma C2_same_columns_silent_witness :
  let rows := [("id", "UInt64"); ("flag", "UInt8")] in
  let rng := [("flag", "UInt8 DEFAULT 0"); ("id", "UInt64")] in
  let table := Sample.table {[ "id" := "UInt64"; "flag" := "UInt8 DEFAULT 0" ]} in
  CheckTable_body (Sample.sync true true rows) rng "t" table ∅ 0 (Sample.result rows)
  = ([], Return (with_host ∅ Sample.server)).
Proof.
  intros rows rng table.
  assert (range_of (Columns table) rng) as Hrng.
  { unfold range_of. vm_compute. apply perm_swap. }
  assert (same_columns (Columns table) rows) as Hsame
    by (refine (bool_decide_unpack _ _); vm_compute; exact I).
  assert (rows ≠ []) as Hrows by discriminate.
  exact (C2_same_columns_silent (Sample.sync true true rows) rng "t" table ∅ 0
           (Sample.result rows) Sample.server eq_refl Hrng Hrows Hsame).
Defined.

(** C2 as stated fails when nothing is declared and nothing is returned:
    both column sets are empty, hence equal, yet the table is reported
    missing and, with fixes on, a create task is dispatched. *)
Lemma C2_counterexample :
  let table := {| View := false; Materialized := false; Populate := false;
                  Columns := ∅; Engine := "Log";
                  AsAnotherTable := "other"; AsSelect := "" |} in
  let m := CheckTable_body (Sample.sync true false []) [] "t" table ∅ 0
             (Sample.result []) in
  range_of (Columns table) []
  ∧ same_columns (Columns table) (live_rows (Sample.result []))
  ∧ divergences (trace m) = [ObjectMissing]
  ∧ tasks (trace m) = [GoCreateTable 0 "t" table].
Proof.
  cbv zeta. split; [by vm_compute|]. split.
  - refine (bool_decide_unpack _ _). vm_compute. exact I.
  - split; vm_compute; reflexivity.
Qed.

(** ** A replica that returns no row *)

(** C3: when no row is returned for a replica, its check reports
    ObjectMissing and nothing else, whatever the table declares. *)
Theorem C3_no_rows_object_missing sync rng name table l i e server :
  Servers (config sync) !! i = Some server →
  live_rows e = [] →
  let m := CheckTable_body sync rng name table l i e in
  divergences (trace m) = [ObjectMissing]
  ∧ outcome m = Return (with_host l server).
Proof.
  intros Hs He m. subst m.
  rewrite (CheckTable_body_empty _ _ _ _ _ _ _ server) by done.
  split; [apply divergences_object_events|done].
Qed.

Lemma C3_no_rows_object_missing_witness :
  let table := Sample.table {[ "id" := "UInt64"; "name" := "" ]} in
  let m := CheckTable_body (Sample.sync true true []) [("id", "UInt64"); ("name", "")]
             "t" table ∅ 0 (Sample.result []) in
  divergences (trace m) = [ObjectMissing]
  ∧ outcome m = Return (with_host ∅ Sample.server).
Proof.
  intros table.
  exact (C3_no_rows_object_missing (Sample.sync true true [])
           [("id", "UInt64"); ("name", "")] "t" table ∅ 0 (Sample.result [])
           Sample.server eq_refl eq_refl).
Defined.

(** ** What the flags change *)

Lemma logged_app (t1 t2 : list Event) : logged (t1 ++ t2) = logged t1 ++ logged t2.
Proof. apply filter_app. Qed.

Lemma quiet_of_bind {A B} (m' m : M A) (f' f : A → M B) :
  quiet_of m' m → (∀ a, quiet_of (f' a) (f a)) → quiet_of (m' ≫= f') (m ≫= f).
Proof.
  unfold quiet_of. intros -> Hf. destruct (outcome m) as [a|v] eqn:E.
  - rewrite (bind_returns m a f E), bind_Return, Hf. cbn [trace outcome fst snd].
    by rewrite logged_app.
  - by rewrite (bind_panics m v f E), bind_Panic.
Qed.

Lemma logged_id (t : list Event) : Forall (λ e, no_go e = true) t → logged t = t.
Proof.
  unfold logged. induction 1 as [|e t He _ IH]; [done|].
  rewrite filter_cons, decide_True by done. by rewrite IH.
Qed.

Lemma quiet_of_refl {A} (m : M A) : Forall (λ e, no_go e = true) (trace m) → quiet_of m m.
Proof. intros H. unfold quiet_of. rewrite logged_id by done. apply M_eta. Qed.

Lemma divergences_logged (t : list Event) : divergences (logged t) = divergences t.
Proof.
  induction t as [|e t IH]; [done|]. unfold logged. rewrite filter_cons.
  destruct e; cbn [no_go]; try (rewrite decide_True by done);
    try (rewrite decide_False by done);
    rewrite ?divergences_cons; fold (logged t); by rewrite IH.
Qed.

Section flags.
Variables (sync : Synchronizer) (name : string) (table : Table) (i : nat).

Lemma quiet_row l c ty :
  quiet_of (CheckTable_row (quiet sync) l i name table c ty)
           (CheckTable_row sync l i name table c ty).
Proof.
  unfold quiet_of, CheckTable_row. case_bool_decide; [done|].
  destruct (Columns table !! c) as [want|]; cbn [fix_ dropColumns quiet SetFix SetDropColumns andb].
  - destruct (strings.Fields want) as [|tok rest]; [done|].
    case_bool_decide; [|done]. cbn [when]. rewrite !log_then_when.
    by destruct (fix_ sync).
  - rewrite !log_then_when. by destruct (fix_ sync && dropColumns sync).
Qed.

Lemma quiet_rows l rows ex ec :
  quiet_of (CheckTable_rows (quiet sync) l i name table rows ex ec)
           (CheckTable_rows sync l i name table rows ex ec).
Proof.
  revert ex ec. induction rows as [|[c ty] rows IH]; intros ex ec; [done|].
  cbn [CheckTable_rows]. apply quiet_of_bind; [apply quiet_row|].
  intros _. apply IH.
Qed.

Lemma quiet_missing l rng ec :
  quiet_of (CheckTable_missing (quiet sync) l i name rng ec)
           (CheckTable_missing sync l i name rng ec).
Proof.
  induction rng as [|[c want] rng IH]; [done|].
  cbn [CheckTable_missing]. apply quiet_of_bind; [|intros _; apply IH].
  case_bool_decide; [done|]. rewrite !log_then_when.
  unfold quiet_of. cbn [fix_ quiet SetFix SetDropColumns]. by destruct (fix_ sync).
Qed.

Lemma quiet_body rng l e :
  quiet_of (CheckTable_body (quiet sync) rng name table l i e)
           (CheckTable_body sync rng name table l i e).
Proof.
  unfold CheckTable_body. apply quiet_of_bind.
  { apply quiet_of_refl. cbn [config quiet SetFix SetDropColumns].
    unfold index. by destruct (_ !! i). }
  intros server. apply quiet_of_bind; [apply quiet_rows|].
  intros [ex ec]. destruct ex; cbn [negb].
  - apply quiet_of_bind; [apply quiet_missing|]. intros _. by apply quiet_of_refl.
  - rewrite !CheckTable_body_object. unfold quiet_of, object_events.
    cbn [fix_ quiet SetFix SetDropColumns trace outcome fst snd].
    by destruct (fix_ sync).
Qed.

(** The divergences a check reports are those it reports with both
    flags off. *)
Lemma divergences_quiet rng l e :
  divergences (trace (CheckTable_body sync rng name table l i e))
  = divergences (trace (CheckTable_body (quiet sync) rng name table l i e)).
Proof.
  pose proof (quiet_body rng l e) as H. unfold quiet_of in H.
  rewrite H. cbn [trace fst]. by rewrite divergences_logged.
Qed.

End flags.

Lemma quiet_flags (sync : Synchronizer) (fx dc : bool) :
  quiet (SetDropColumns (SetFix sync fx) dc) = quiet sync.
Proof. done. Qed.

(** ** Excess columns and type mismatches *)

Lemma divergences_log_go l msg (b : bool) (k : Task) d :
  divergence_of (EvLog ErrorLevel l msg) = Some d →
  divergences (EvLog ErrorLevel l msg :: if b then [EvGo k] else []) = [d].
Proof. intros H. rewrite divergences_cons, H. by destruct b. Qed.

(** The statement a task sends, if the replica it names exists. *)
Lemma finish_statements conn sync l i query failed succeeded :
  statements (trace (finish conn sync l i query failed succeeded)) = [query].
Proof.
  unfold finish, log_Debug, log_Error, log_Info, emit.
  destruct (debug sync), (db_Exec conn query); reflexivity.
Qed.

Section fixes.
Variables (sync : Synchronizer) (name : string) (table : Table) (i : nat).

Lemma drops_follow_excess_additive : additive (drops_follow_excess sync name i).
Proof.
  unfold drops_follow_excess. split; [by destruct (_ && _)|].
  intros t1 t2 H1 H2. unfold dropped in *. rewrite omap_app, H1, H2.
  destruct (_ && _); [|done].
  unfold excess_columns. by rewrite divergences_app, omap_app, fmap_app.
Qed.

Lemma modifies_follow_mismatch_additive : additive (modifies_follow_mismatch sync name i).
Proof.
  unfold modifies_follow_mismatch. split; [by destruct (fix_ sync)|].
  intros t1 t2 H1 H2. unfold modified in *. rewrite omap_app, H1, H2.
  destruct (fix_ sync); [|done].
  unfold mismatches. by rewrite divergences_app, omap_app, fmap_app.
Qed.

Lemma mismatch_wants_first_token_additive : additive (mismatch_wants_first_token table).
Proof.
  unfold mismatch_wants_first_token. split; [constructor|].
  intros t1 t2 H1 H2. unfold mismatches.
  rewrite divergences_app, omap_app. by apply Forall_app.
Qed.

Lemma fixes_row l c ty :
  let t := trace (CheckTable_row sync l i name table c ty) in
  drops_follow_excess sync name i t ∧ modifies_follow_mismatch sync name i t
∧ mismatch_wants_first_token table t.
Proof.
  unfold drops_follow_excess, modifies_follow_mismatch, mismatch_wants_first_token.
  destruct (CheckTable_row_events sync name table i l c ty)
    as [?|? Hc|want ? Hc Hb|want ? Hc Hh|want tok ? Hc Hh Hne]; cbn zeta;
    rewrite ?(divergences_log_go _ _ _ _ _ (divergence_of_excess _ _)),
            ?(divergences_log_go _ _ _ _ _ (divergence_of_mismatch _ _ _ _)).
  1,3,4: by (split_and!; [by destruct (_ && _)|by destruct (fix_ sync)|constructor]).
  - split_and!; [by destruct (_ && _)| by destruct (fix_ sync), (dropColumns sync) | constructor].
  - split_and!.
    + by destruct (fix_ sync), (dropColumns sync).
    + by destruct (fix_ sync).
    + repeat constructor. by exists want.
Qed.

Lemma fixes_missing l c want ec :
  let t := missing_events sync name i l c want ec in
  drops_follow_excess sync name i t ∧ modifies_follow_mismatch sync name i t
∧ mismatch_wants_first_token table t.
Proof.
  unfold drops_follow_excess, modifies_follow_mismatch, mismatch_wants_first_token,
    missing_events.
  case_bool_decide; cbn zeta;
    rewrite ?(divergences_log_go _ _ _ _ _ (divergence_of_missing _ _)).
  - split_and!; [by destruct (_ && _)|by destruct (fix_ sync)|constructor].
  - split_and!; [by destruct (fix_ sync), (dropColumns sync)|by destruct (fix_ sync)|constructor].
Qed.

Lemma fixes_object l :
  let t := object_events sync name table i l in
  drops_follow_excess sync name i t ∧ modifies_follow_mismatch sync name i t
∧ mismatch_wants_first_token table t.
Proof.
  unfold drops_follow_excess, modifies_follow_mismatch, mismatch_wants_first_token,
    object_events. cbn zeta.
  rewrite (divergences_log_go _ _ _ _ _ (divergence_of_object _)).
  split_and!; [|by destruct (fix_ sync), (View table)|constructor].
  by destruct (fix_ sync), (dropColumns sync), (View table).
Qed.

Lemma fixes_body rng l e :
  let t := trace (CheckTable_body sync rng name table l i e) in
  drops_follow_excess sync name i t ∧ modifies_follow_mismatch sync name i t
∧ mismatch_wants_first_token table t.
Proof.
  cbn zeta. split_and!; apply CheckTable_body_additive;
    auto using drops_follow_excess_additive, modifies_follow_mismatch_additive,
      mismatch_wants_first_token_additive;
    intros; first [eapply fixes_row | eapply fixes_missing | eapply fixes_object].
Qed.

End fixes.

Lemma task_statements sync i (l : Server → gmap string string) query failed succeeded :
  statements (trace (conn ← index (connections sync) i;
                     server ← index (Servers (config sync)) i;
                     finish conn sync (l server) i query failed succeeded))
  = match connections sync !! i, Servers (config sync) !! i with
    | Some _, Some _ => [query]
    | _, _ => []
    end.
Proof.
  unfold index. destruct (connections sync !! i) as [conn|]; [|done].
  rewrite bind_ret. destruct (Servers (config sync) !! i) as [server|]; [|done].
  rewrite bind_ret. apply finish_statements.
Qed.

Lemma excess_columns_detect_row (desired : gmap string string)
    (rows : list (string * string)) :
  excess_columns (omap (detect_row desired) rows) = undeclared desired rows.
Proof.
  unfold undeclared. induction rows as [|[c ty] rows IH].
  { by case_bool_decide. }
  change (omap ?f (?x :: ?r)) with
    (match f x with Some y => y :: omap f r | None => omap f r end).
  rewrite fmap_cons, filter_cons. unfold detect_row at 1. cbn [fst snd].
  case_bool_decide as Hsz; [done|].
  destruct (desired !! c) as [want|] eqn:Hc.
  - rewrite decide_False by done.
    destruct (head (strings.Fields want)); [case_bool_decide|]; apply IH.
  - rewrite decide_True by done. cbn. f_equal. apply IH.
Qed.

Lemma excess_columns_missing (cs : list string) :
  excess_columns (ColumnMissing <$> cs) = [].
Proof. by induction cs. Qed.

(** The excess columns one check reports are the live columns it
    reaches that the table does not declare. *)
Lemma CheckTable_body_excess sync rng name table l i e :
  excess_columns (divergences (trace (CheckTable_body sync rng name table l i e)))
  = match Servers (config sync) !! i with
    | None => []
    | Some _ => undeclared (Columns table) (rows_checked (Columns table) (live_rows e))
    end.
Proof.
  rewrite CheckTable_body_divergences.
  destruct (Servers (config sync) !! i); [|done].
  destruct (live_rows e) as [|row rows] eqn:He.
  { unfold undeclared. cbn. by case_bool_decide. }
  unfold excess_columns at 1. rewrite omap_app.
  fold (excess_columns (omap (detect_row (Columns table))
                          (rows_checked (Columns table) (row :: rows)))).
  rewrite excess_columns_detect_row.
  case_bool_decide; [|by rewrite app_nil_r].
  fold (excess_columns (ColumnMissing <$> filter (λ c, c ∉ (row :: rows).*1) rng.*1)).
  by rewrite excess_columns_missing, app_nil_r.
Qed.

(** An excess column among the divergences of a trace is an error entry
    of that trace. *)
Lemma excess_columns_logged (t : list Event) (c : string) :
  c ∈ excess_columns (divergences t) →
  ∃ fields, EvLog ErrorLevel fields "Table has excess column" ∈ t
            ∧ fields !! "column" = Some c.
Proof.
  unfold excess_columns, divergences. intros H.
  apply list_elem_of_omap in H as (d & Hd & Hc).
  apply list_elem_of_omap in Hd as (ev & Hev & Hdiv).
  destruct d; simplify_eq.
  destruct ev as [lvl fields msg| | | | | | |]; try done.
  destruct lvl; try done. cbn in Hdiv.
  repeat case_bool_decide; simplify_option_eq; eauto.
Qed.

(** C5: the excess columns that the check of a replica reports are the
    live columns it reads that the table does not declare, each logged
    as an error entry whatever the flags; the check dispatches a drop of
    an excess column exactly when both flags are set, one per ColumnExcess
    divergence and in the same order; the divergences themselves are
    reported the same way whatever the flags, a live row reporting what
    the detector finds in it; a dispatched drop sends ALTER TABLE ... DROP
    COLUMN to the replica it names. *)
Theorem C5_drop_needs_both_flags sync rng name table l i e :
  let t := trace (CheckTable_body sync rng name table l i e) in
  excess_columns (divergences t)
  = match Servers (config sync) !! i with
    | None => []
    | Some _ => undeclared (Columns table) (rows_checked (Columns table) (live_rows e))
    end
  ∧ (types_well_formed table → rows_checked (Columns table) (live_rows e) = live_rows e)
  ∧ (∀ c, c ∈ excess_columns (divergences t) →
          ∃ fields, EvLog ErrorLevel fields "Table has excess column" ∈ t
                    ∧ fields !! "column" = Some c)
  ∧ dropped t = (if fix_ sync && dropColumns sync
                 then (λ c, (i, name, c)) <$> excess_columns (divergences t)
                 else [])
  ∧ (∀ fx dc,
       divergences (trace (CheckTable_body (SetDropColumns (SetFix sync fx) dc)
                             rng name table l i e))
       = divergences t)
  ∧ (∀ l' c ty,
       divergences (trace (CheckTable_row sync l' i name table c ty))
       = option_list (detect_row (Columns table) (c, ty)))
  ∧ (∀ sync' rng' c,
       statements (trace (run_task sync' rng' (GoDropColumn i name c)))
       = match connections sync' !! i, Servers (config sync') !! i with
         | Some _, Some _ => ["ALTER TABLE " +:+ name +:+ " DROP COLUMN " +:+ c]
         | _, _ => []
         end).
Proof.
  cbn zeta. split_and!.
  - apply CheckTable_body_excess.
  - apply rows_checked_well_formed.
  - apply excess_columns_logged.
  - apply fixes_body.
  - intros fx dc.
    by rewrite (divergences_quiet (SetDropColumns _ _)), quiet_flags, <- divergences_quiet.
  - intros l' c ty. apply CheckTable_row_divergences.
  - intros sync' rng' c. cbn [run_task]. unfold DropColumn.
    apply (task_statements sync' i (λ server, column_fields sync' server name c)).
Qed.

(** C7, as the code has it: with fixes on, the check dispatches one
    modification per TypeMismatch divergence, in the same order, and the
    type it passes is the wanted type of the divergence, which is the
    first token of the declared type; the task sends ALTER TABLE ...
    MODIFY COLUMN with that token. With fixes off it dispatches none. *)
Theorem C7_modify_to_first_token sync rng name table l i e :
  let t := trace (CheckTable_body sync rng name table l i e) in
  modified t = (if fix_ sync
                then (λ m, (i, name, m.1.1, m.1.2)) <$> mismatches (divergences t)
                else [])
  ∧ Forall (λ m, ∃ declared, Columns table !! m.1.1 = Some declared
                             ∧ head (strings.Fields declared) = Some m.1.2)
           (mismatches (divergences t))
  ∧ (∀ sync' rng' c tok,
       statements (trace (run_task sync' rng' (GoModifyColumn i name c tok)))
       = match connections sync' !! i, Servers (config sync') !! i with
         | Some _, Some _ =>
             ["ALTER TABLE " +:+ name +:+ " MODIFY COLUMN " +:+ c +:+ " " +:+ tok]
         | _, _ => []
         end).
Proof.
  cbn zeta. split_and!.
  - apply fixes_body.
  - apply fixes_body.
  - intros sync' rng' c tok. cbn [run_task]. unfold ModifyColumn.
    apply (task_statements sync' i
             (λ server, <["type" := tok]> (column_fields sync' server name c))).
Qed.

(** C7 as stated fails for a declared type with a modifier: the statement
    carries the first token only. *)
Lemma C7_counterexample :
  let rows := [("flag", "UInt16")] in
  let table := Sample.table {[ "flag" := "UInt8 DEFAULT 0" ]} in
  let sync := Sample.sync true false rows in
  let t := trace (CheckTable_body sync [("flag", "UInt8 DEFAULT 0")] "t" table ∅ 0
                    (Sample.result rows)) in
  divergences t = [TypeMismatch "flag" "UInt8" "UInt16"]
  ∧ tasks t = [GoModifyColumn 0 "t" "flag" "UInt8"]
  ∧ statements (trace (run_task sync [] (GoModifyColumn 0 "t" "flag" "UInt8")))
    = ["ALTER TABLE t MODIFY COLUMN flag UInt8"]
  ∧ strings.Contains "ALTER TABLE t MODIFY COLUMN flag UInt8" "UInt8 DEFAULT 0" = false.
Proof. cbv zeta. split_and!; vm_compute; reflexivity. Qed.

(** ** Connecting *)

Lemma append_cons (a : ascii) (s1 s2 : string) :
  String a s1 +:+ s2 = String a (s1 +:+ s2).
Proof. reflexivity. Qed.

Lemma append_assoc (s1 s2 s3 : string) : (s1 +:+ s2) +:+ s3 = s1 +:+ (s2 +:+ s3).
Proof.
  induction s1 as [|a s1 IH]; [reflexivity|].
  rewrite !append_cons. by rewrite IH.
Qed.

Lemma append_nil_r (s : string) : s +:+ "" = s.
Proof.
  induction s as [|a s IH]; [reflexivity|].
  rewrite append_cons. by rewrite IH.
Qed.


Lemma errors_text_lines (errs : list string) : errors_text errs = lines errs.
Proof.
  unfold errors_text.
  enough (∀ acc, foldl (λ text err, text +:+ (err +:+ LF)) acc errs
                 = acc +:+ lines errs) as H by apply (H "").
  induction errs as [|err errs IH]; intros acc; cbn [foldl lines foldr].
  - by rewrite append_nil_r.
  - fold (lines errs). rewrite IH. by rewrite !append_assoc.
Qed.

Lemma lines_Join (err : string) (errs : list string) :
  lines (err :: errs) = strings.Join (err :: errs) LF +:+ LF.
Proof.
  revert err. induction errs as [|err' errs IH]; intros err.
  - cbn. by rewrite append_nil_r.
  - change (lines (err :: err' :: errs)) with (err +:+ LF +:+ lines (err' :: errs)).
    change (strings.Join (err :: err' :: errs) LF)
      with (err +:+ LF +:+ strings.Join (err' :: errs) LF).
    by rewrite IH, !append_assoc.
Qed.

Lemma omap_cons {A B} (f : A → option B) (x : A) (l : list A) :
  omap f (x :: l) = match f x with Some y => y :: omap f l | None => omap f l end.
Proof. done. Qed.

Lemma opens_app (t1 t2 : list Event) : opens (t1 ++ t2) = opens t1 ++ opens t2.
Proof. apply omap_app. Qed.

Lemma Connect_loop_spec open sync servers errs conns :
  outcome (Connect_loop open sync servers errs conns)
  = Return (errs ++ omap (λ server, failure_of (attempt open sync server)) servers,
            conns ++ omap (λ server, opened_of (attempt open sync server)) servers)
  ∧ opens (trace (Connect_loop open sync servers errs conns))
    = dsn_of sync <$> servers.
Proof.
  revert errs conns. induction servers as [|server servers IH]; intros errs conns.
  - cbn. by rewrite !app_nil_r.
  - cbn [Connect_loop]. unfold emit. rewrite bind_Return.
    rewrite fmap_cons, !(omap_cons _ server).
    pose proof (eq_refl : attempt open sync server = attempt open sync server) as Ha.
    unfold attempt at 2 in Ha.
    destruct (open "clickhouse" (dsn_of sync server)) as [err|conn].
    + rewrite Ha. cbn [trace outcome fst snd failure_of opened_of].
      rewrite opens_app.
      destruct (IH (errs ++ [err]) conns) as [-> ->].
      split; [|done]. by rewrite <- app_assoc.
    + rewrite bind_Return. cbn [trace outcome fst snd].
      rewrite !opens_app.
      destruct (db_Ping conn) as [err|]; rewrite Ha; cbn [failure_of opened_of].
      * destruct (IH (errs ++ [err]) conns) as [-> ->].
        split; [|done]. by rewrite <- app_assoc.
      * destruct (IH errs (conns ++ [conn])) as [-> ->].
        split; [|done]. by rewrite <- app_assoc.
Qed.

Lemma Connect_spec open sync :
  outcome (Connect open sync)
  = Return (set_connections sync (pool open sync),
            match failures open sync with
            | [] => None
            | errs => Some (lines errs)
            end)
  ∧ opens (trace (Connect open sync)) = dsn_of sync <$> Servers (config sync).
Proof.
  unfold Connect.
  destruct (Connect_loop_spec open sync (Servers (config sync)) [] []) as [Ho Ht].
  rewrite (bind_returns _ _ _ Ho). cbn [app]. fold (failures open sync) (pool open sync).
  destruct (failures open sync) as [|err errs] eqn:E.
  - cbn. by rewrite app_nil_r.
  - rewrite bool_decide_eq_false_2 by done.
    cbn [trace outcome fst snd mret M_ret]. rewrite app_nil_r, errors_text_lines.
    by split.
Qed.

(** When no endpoint fails, the pool has one connection per server, at
    the position of the server. *)
Lemma pool_lookup open sync i server conn :
  failures open sync = [] →
  Servers (config sync) !! i = Some server →
  open "clickhouse" (dsn_of sync server) = inr conn →
  pool open sync !! i = Some conn.
Proof.
  unfold failures, pool. revert i.
  induction (Servers (config sync)) as [|s servers IH]; intros i Hf Hs Ho; [done|].
  rewrite omap_cons in Hf. rewrite omap_cons.
  destruct (attempt open sync s) as [err|c] eqn:Ha;
    cbn [failure_of opened_of] in Hf |- *; [done|].
  destruct i as [|i]; cbn in Hs |- *.
  - simplify_eq. unfold attempt in Ha. rewrite Ho in Ha.
    destruct (db_Ping conn); by simplify_eq.
  - by apply IH.
Qed.

Lemma main_connect_failed open o cfg f d g err errs :
  failures open (main_synchronizer cfg f d g) = err :: errs →
  main open o cfg f d g
  = (trace (Connect open (main_synchronizer cfg f d g)),
     Panic (PanicError (lines (err :: errs)))).
Proof.
  intros Hf. unfold main. fold (main_synchronizer cfg f d g).
  destruct (Connect_spec open (main_synchronizer cfg f d g)) as [Ho _].
  rewrite Hf in Ho. rewrite (bind_returns _ _ _ Ho). cbn [trace outcome panic fst snd].
  by rewrite app_nil_r.
Qed.

Lemma main_connected open o cfg f d g :
  failures open (main_synchronizer cfg f d g) = [] →
  let m := main_checks o (set_connections (main_synchronizer cfg f d g)
                            (pool open (main_synchronizer cfg f d g))) in
  main open o cfg f d g
  = (trace (Connect open (main_synchronizer cfg f d g)) ++ trace m, outcome m).
Proof.
  intros Hf. cbn zeta. unfold main. fold (main_synchronizer cfg f d g).
  destruct (Connect_spec open (main_synchronizer cfg f d g)) as [Ho _].
  rewrite Hf in Ho. by rewrite (bind_returns _ _ _ Ho).
Qed.

(** C6, as the code has it: [Connect] tries every endpoint, in order, whatever the earlier
    ones gave; the pool holds the connections that opened and answered
    the ping, in endpoint order; the error is nil when none failed and
    otherwise one message made of the failure texts in endpoint order,
    each followed by a line feed, that is, the texts joined by line feeds
    and a final line feed; and on such an error [main] panics with it
    right after [Connect], having done nothing else. *)
Theorem C6_connect_collects open sync :
  outcome (Connect open sync)
  = Return (set_connections sync (pool open sync),
            match failures open sync with
            | [] => None
            | errs => Some (lines errs)
            end)
  ∧ opens (trace (Connect open sync)) = dsn_of sync <$> Servers (config sync)
  ∧ (∀ err errs, lines (err :: errs) = strings.Join (err :: errs) LF +:+ LF)
  ∧ (∀ o cfg f d g,
       match failures open (main_synchronizer cfg f d g) with
       | [] => True
       | errs =>
           main open o cfg f d g
           = (trace (Connect open (main_synchronizer cfg f d g)),
              Panic (PanicError (lines errs)))
       end).
Proof.
  destruct (Connect_spec open sync) as [Ho Ht]. split_and!; [done..| |].
  { intros err errs. apply lines_Join. }
  intros o cfg f d g.
  destruct (failures open (main_synchronizer cfg f d g)) as [|err errs] eqn:Hf; [done|].
  by apply main_connect_failed.
Qed.

(** C6 as stated fails: with two endpoints that both fail, the message
    that [Connect] returns is not the two failure texts joined by line
    feeds; it ends with one more line feed. *)
Lemma C6_counterexample :
  let server host := {| Host := host; Port := 9000%N; User := "u"; Pass := "p" |} in
  let open : sql_Open_t := λ _ dsn,
    if bool_decide (dsn = "tcp://a:9000?username=u&password=p&debug=0")
    then inl "a: refused" else inl "b: refused" in
  let sync := NewSynchronizer {| Servers := [server "a"; server "b"];
                                 Databases := [] |} in
  outcome (Connect open sync)
  = Return (set_connections sync [],
            Some ("a: refused" +:+ LF +:+ "b: refused" +:+ LF))
  ∧ strings.Join ["a: refused"; "b: refused"] LF = "a: refused" +:+ LF +:+ "b: refused"
  ∧ "a: refused" +:+ LF +:+ "b: refused" +:+ LF
    ≠ strings.Join ["a: refused"; "b: refused"] LF.
Proof. cbv zeta. split_and!; [vm_compute; reflexivity..|vm_compute; discriminate]. Qed.

(** Two of three endpoints fail, one to open and one to answer the ping:
    the pool has the one live connection and the message both texts. *)
Example Connect_two_of_three_fail :
  let live := Sample.conn [] in
  let dead := {| db_Ping := Some "ping: timeout"; db_Exec := λ _, None;
                 db_Query := λ _ _, Sample.result []; db_Close := None |} in
  let server host := {| Host := host; Port := 9000%N; User := "u"; Pass := "p" |} in
  let open : sql_Open_t := λ _ dsn,
    if bool_decide (dsn = "tcp://a:9000?username=u&password=p&debug=0") then inl "open: refused"
    else if bool_decide (dsn = "tcp://b:9000?username=u&password=p&debug=0") then inr live
    else inr dead in
  let sync := NewSynchronizer {| Servers := [server "a"; server "b"; server "c"];
                                 Databases := [] |} in
  length (pool open sync) = 1
  ∧ failures open sync = ["open: refused"; "ping: timeout"]
  ∧ lines (failures open sync) = "open: refused" +:+ LF +:+ "ping: timeout" +:+ LF.
Proof. cbv zeta. split_and!; vm_compute; reflexivity. Qed.

(** ** A run without fixes *)

Lemma additive_bind_returned {A B} (P : list Event → Prop) (m : M A) (f : A → M B) :
  additive P → P (trace m) →
  (∀ a, outcome m = Return a → P (trace (f a))) →
  P (trace (m ≫= f)).
Proof.
  intros [_ Happ] Hm Hf. destruct (outcome m) as [a|v] eqn:E.
  - rewrite (bind_returns _ _ _ E). apply Happ; auto.
  - by rewrite (bind_panics _ _ _ E).
Qed.

Lemma Exec_from_spec i conns query results :
  Exec_from i conns query results
  = (imap (λ k _, EvExec (i + k) query) conns,
     Return (results ++ ((λ conn, {| e_error := db_Exec conn query |}) <$> conns))).
Proof.
  revert i results. induction conns as [|conn conns IH]; intros i results.
  - cbn. by rewrite app_nil_r.
  - cbn [Exec_from]. unfold emit. rewrite bind_Return, IH.
    cbn [trace outcome fst snd imap fmap list_fmap app]. rewrite <- app_assoc.
    rewrite Nat.add_0_r. f_equal. f_equal.
    apply imap_ext. intros k c _. cbn. f_equal. lia.
Qed.

Lemma Query_from_spec i conns query args results :
  Query_from i conns query args results
  = (imap (λ k _, EvQuery (i + k) query args) conns,
     Return (results ++ ((λ conn, db_Query conn query args) <$> conns))).
Proof.
  revert i results. induction conns as [|conn conns IH]; intros i results.
  - cbn. by rewrite app_nil_r.
  - cbn [Query_from]. unfold emit. rewrite bind_Return, IH.
    cbn [trace outcome fst snd imap fmap list_fmap app]. rewrite <- app_assoc.
    rewrite Nat.add_0_r. f_equal. f_equal.
    apply imap_ext. intros k c _. cbn. f_equal. lia.
Qed.

Lemma QueryResults_Error_silent e text :
  trace (QueryResults_Error_loop e text) = [].
Proof.
  revert text. induction e as [|r e IH]; intros text; [done|].
  cbn [QueryResults_Error_loop]. destruct (rows_failed r); [|apply IH].
  destruct (q_error r); [apply IH|done].
Qed.

Lemma trace_defer {A} (d : list Event) (m : M A) : trace (defer d m) = trace m ++ d.
Proof. done. Qed.

Lemma outcome_defer {A} (d : list Event) (m : M A) : outcome (defer d m) = outcome m.
Proof. done. Qed.

Section no_fix.
Variable sync : Synchronizer.
Hypothesis Hfix : fix_ sync = false.

Lemma harmless_body rng name table l i e :
  Forall harmless (trace (CheckTable_body sync rng name table l i e)).
Proof.
  apply CheckTable_body_additive; [apply additive_Forall|..].
  - intros l' c ty.
    destruct (CheckTable_row_events sync name table i l' c ty);
      rewrite ?Hfix; cbn [andb]; by repeat constructor.
  - intros l' c want ec _. unfold missing_events. rewrite Hfix.
    case_bool_decide; by repeat constructor.
  - intros l'. unfold object_events. rewrite Hfix. by repeat constructor.
Qed.

Lemma harmless_loop rng name table l i r :
  Forall harmless (trace (CheckTable_loop sync rng name table l i r)).
Proof.
  revert l i. induction r as [|e r IH]; intros l i; [constructor|].
  cbn [CheckTable_loop]. apply additive_bind; auto using additive_Forall, harmless_body.
Qed.

Lemma harmless_CheckTable rng name table :
  Forall harmless (trace (CheckTable sync rng name table)).
Proof.
  unfold CheckTable, Query. rewrite Query_from_spec, bind_Return.
  cbn [trace fst]. apply Forall_app. split.
  { apply Forall_forall. intros ev Hev.
    apply elem_of_lookup_imap in Hev as (k & c & -> & _). done. }
  apply additive_bind; [apply additive_Forall| |].
  - apply additive_when; [apply additive_Forall|]. intros _.
    apply additive_bind; [apply additive_Forall| |].
    + unfold QueryResults_Error. rewrite QueryResults_Error_silent. constructor.
    + intros text. by repeat constructor.
  - intros _. rewrite trace_defer. apply Forall_app. split; [apply harmless_loop|].
    unfold QueryResults_Close. generalize 0.
    induction (_ ++ _) as [|r rs IH]; intros k; [constructor|].
    cbn [QueryResults_Close_from]. destruct (Rows r); [constructor; [done|]|]; apply IH.
Qed.

Lemma harmless_tables cols tables :
  Forall harmless (trace (CheckDatabase_tables sync cols tables)).
Proof.
  induction tables as [|[name table] tables IH]; [constructor|].
  cbn [CheckDatabase_tables].
  apply additive_bind; auto using additive_Forall, harmless_CheckTable.
Qed.

End no_fix.

Lemma CheckDatabase_returned sync o db sync' :
  outcome (CheckDatabase sync o db) = Return sync' →
  sync' = set_database sync (Name db).
Proof.
  unfold CheckDatabase, Exec. rewrite Exec_from_spec, bind_Return. cbn [outcome snd].
  destruct (ExecResults_HasError _); [done|].
  destruct (outcome (CheckDatabase_tables (set_database sync (Name db))
                       (columns_order o) (tables_order o))) as [[]|v] eqn:E.
  - rewrite (bind_returns _ _ _ E). cbn. by intros [= <-].
  - by rewrite (bind_panics _ _ _ E).
Qed.

Lemma harmless_CheckDatabase sync o db :
  fix_ sync = false → Forall harmless (trace (CheckDatabase sync o db)).
Proof.
  intros Hfix. unfold CheckDatabase, Exec. rewrite Exec_from_spec, bind_Return.
  cbn [trace fst]. apply Forall_app. split.
  { apply Forall_forall. intros ev Hev.
    apply elem_of_lookup_imap in Hev as (k & c & -> & _). by eexists. }
  destruct (ExecResults_HasError _); [constructor|].
  apply additive_bind; [apply additive_Forall| |intros; constructor].
  by apply harmless_tables.
Qed.

Lemma harmless_Check_from sync o k dbs :
  fix_ sync = false → Forall harmless (trace (Check_from sync o k dbs)).
Proof.
  revert sync k. induction dbs as [|db dbs IH]; intros sync k Hfix; [constructor|].
  cbn [Check_from]. apply additive_bind_returned; [apply additive_Forall|..].
  - by apply harmless_CheckDatabase.
  - intros sync' Hs. apply CheckDatabase_returned in Hs as ->. by apply IH.
Qed.

Lemma harmless_Close sync : Forall harmless (trace (Close sync)).
Proof.
  unfold Close. apply additive_bind; [apply additive_Forall| |].
  - generalize 0, (@nil string).
    induction (connections sync) as [|conn conns IH]; intros i errs; [constructor|].
    cbn [Close_loop]. unfold emit. rewrite bind_Return. constructor; [done|].
    destruct (db_Close conn); apply IH.
  - intros errs. case_bool_decide; constructor.
Qed.

Lemma harmless_Connect open sync : Forall harmless (trace (Connect open sync)).
Proof.
  unfold Connect. apply additive_bind; [apply additive_Forall| |].
  - generalize (@nil string), (@nil sql_DB).
    induction (Servers (config sync)) as [|server servers IH]; intros errs conns;
      [constructor|].
    cbn [Connect_loop]. unfold emit. rewrite bind_Return. constructor; [done|].
    destruct (open _ _) as [err|conn]; [apply IH|].
    rewrite bind_Return. constructor; [done|]. destruct (db_Ping conn); apply IH.
  - intros [errs conns]. case_bool_decide; constructor.
Qed.

Lemma Connect_returned open sync sync' err :
  outcome (Connect open sync) = Return (sync', err) →
  sync' = set_connections sync (pool open sync).
Proof. destruct (Connect_spec open sync) as [-> _]. by intros [= <- _]. Qed.

(** C4: in a run without -sync, whatever the configuration, the servers,
    the orders of iteration and the other flags, no task is dispatched
    and the only statements executed are USE statements. *)
Theorem C4_no_fix_no_corrective_statement open o cfg dropColumns_flag debug_flag :
  let t := trace (main open o cfg false dropColumns_flag debug_flag) in
  Forall harmless t
  ∧ tasks t = []
  ∧ Forall (λ query, ∃ db, query = "USE " +:+ db) (statements t).
Proof.
  cbn zeta.
  assert (Forall harmless (trace (main open o cfg false dropColumns_flag debug_flag))) as H.
  { unfold main. apply additive_bind_returned; [apply additive_Forall|..].
    - apply harmless_Connect.
    - intros [sync' err] Hc. apply Connect_returned in Hc as ->.
      destruct err; [constructor|].
      apply additive_bind; [apply additive_Forall| |].
      + by apply harmless_Check_from.
      + intros sync''. apply additive_bind; [apply additive_Forall| |].
        * apply harmless_Close.
        * intros [?|]; constructor. }
  split_and!; [done|..].
  - induction H as [|e t He _ IH]; [done|]. destruct e; try done.
  - induction H as [|e t He _ IH]; [constructor|].
    destruct e; try done. cbn. by constructor.
Qed.

(** ** A catalog query that fails *)






Lemma bind_ext {A B} (m : M A) (f g : A → M B) :
  (∀ a, f a = g a) → m ≫= f = m ≫= g.
Proof.
  intros H. destruct m as [t [a|v]]; [|done].
  by rewrite !bind_Return, H.
Qed.









(** The statement sent for the sample table. *)
Example CreateTable_sample :
  statements (trace (run_task (Sample.sync true false []) [("id", "UInt64")]
                       (GoCreateTable 0 "t" (Sample.table {[ "id" := "UInt64" ]}))))
  = ["CREATE TABLE IF NOT EXISTS t (id UInt64) ENGINE = Log"].
Proof. vm_compute. reflexivity. Qed.

(** ** A declared type without a token *)

Lemma panics_bind_l {A B} (m : M A) (f : A → M B) : panics m → panics (m ≫= f).
Proof. intros [v Hv]. exists v. by rewrite (bind_panics _ _ _ Hv). Qed.

Lemma panics_bind_r {A B} (m : M A) (f : A → M B) :
  (∀ a, outcome m = Return a → panics (f a)) → panics (m ≫= f).
Proof.
  intros Hf. destruct (outcome m) as [a|v] eqn:E.
  - destruct (Hf a eq_refl) as [v Hv]. exists v. by rewrite (bind_returns _ _ _ E).
  - apply panics_bind_l. by exists v.
Qed.

Lemma CheckTable_row_outcome sync name table i l c ty :
  outcome (CheckTable_row sync l i name table c ty) = Return tt
  ∨ outcome (CheckTable_row sync l i name table c ty) = Panic (PanicIndexOutOfRange 0 0).
Proof. destruct (CheckTable_row_events sync name table i l c ty); auto. Qed.

Section blank_type.
Variables (name : string) (table : Table) (c ty declared : string).
Hypothesis Hdeclared : Columns table !! c = Some declared.
Hypothesis Hblank : blank declared = true.

Lemma declared_nonempty : size (Columns table) ≠ 0.
Proof.
  intros Hsz. apply map_size_empty_iff in Hsz.
  rewrite Hsz in Hdeclared. by rewrite lookup_empty in Hdeclared.
Qed.

Lemma CheckTable_row_blank sync l i ty' :
  CheckTable_row sync l i name table c ty' = ([], Panic (PanicIndexOutOfRange 0 0)).
Proof.
  unfold CheckTable_row.
  rewrite bool_decide_eq_false_2 by apply declared_nonempty.
  rewrite Hdeclared. apply Fields_nil_blank in Hblank. by rewrite Hblank.
Qed.

Lemma CheckTable_row_other sync l i c' ty' :
  c' ≠ c →
  Forall (λ d, column_of d ≠ Some c)
         (divergences (trace (CheckTable_row sync l i name table c' ty'))).
Proof.
  intros Hne. rewrite CheckTable_row_divergences. unfold detect_row. cbn [fst snd].
  repeat case_match; repeat constructor; cbn; congruence.
Qed.

Lemma CheckTable_rows_blank sync l i rows ex ec :
  (c, ty) ∈ rows →
  let m := CheckTable_rows sync l i name table rows ex ec in
  outcome m = Panic (PanicIndexOutOfRange 0 0)
  ∧ Forall (λ d, column_of d ≠ Some c) (divergences (trace m)).
Proof.
  cbn zeta. revert ex ec.
  induction rows as [|[c' ty'] rows IH]; intros ex ec Hin; [by apply elem_of_nil in Hin|].
  cbn [CheckTable_rows]. destruct (decide (c' = c)) as [->|Hne].
  { rewrite CheckTable_row_blank, bind_Panic. by split; [|constructor]. }
  apply elem_of_cons in Hin as [[=]|Hin]; [congruence|].
  pose proof (CheckTable_row_other sync l i c' ty' Hne) as Hother.
  destruct (CheckTable_row_outcome sync name table i l c' ty') as [Ho|Ho].
  - rewrite (bind_returns _ _ _ Ho). cbn [trace outcome fst snd].
    destruct (IH true ({[c']} ∪ ec) Hin) as [-> Hrest]. split; [done|].
    rewrite divergences_app. by apply Forall_app.
  - by rewrite (bind_panics _ _ _ Ho).
Qed.

End blank_type.

Section blank_type_run.
Variables (name : string) (table : Table) (c ty declared : string).
Hypothesis Hdeclared : Columns table !! c = Some declared.
Hypothesis Hblank : blank declared = true.

Lemma CheckTable_body_blank sync rng l i e server :
  Servers (config sync) !! i = Some server →
  (c, ty) ∈ live_rows e →
  let m := CheckTable_body sync rng name table l i e in
  outcome m = Panic (PanicIndexOutOfRange 0 0)
  ∧ Forall (λ d, column_of d ≠ Some c) (divergences (trace m)).
Proof.
  intros Hs Hin. cbn zeta. unfold CheckTable_body, index. rewrite Hs, bind_ret.
  destruct (CheckTable_rows_blank name table c ty declared Hdeclared Hblank sync
              (WithField l "host" (Host server)) i (live_rows e) false ∅ Hin)
    as [Ho Hd].
  by rewrite (bind_panics _ _ _ Ho).
Qed.

Lemma CheckTable_loop_blank sync rng l j r k e server :
  r !! k = Some e →
  Servers (config sync) !! (j + k) = Some server →
  (c, ty) ∈ live_rows e →
  panics (CheckTable_loop sync rng name table l j r).
Proof.
  revert l j k. induction r as [|e' r IH]; intros l j k Hk Hs Hin; [done|].
  cbn [CheckTable_loop]. destruct k as [|k]; cbn in Hk.
  - simplify_eq. rewrite Nat.add_0_r in Hs. apply panics_bind_l.
    eexists. by eapply CheckTable_body_blank.
  - apply panics_bind_r. intros l' _. apply (IH l' (S j) k); [done| |done].
    by replace (S j + k) with (j + S k) by lia.
Qed.

Lemma CheckTable_blank sync rng i conn server :
  connections sync !! i = Some conn →
  Servers (config sync) !! i = Some server →
  (c, ty) ∈ live_rows (db_Query conn catalog_query [database sync; name]) →
  panics (CheckTable sync rng name table).
Proof.
  intros Hc Hs Hin. unfold CheckTable, Query.
  rewrite Query_from_spec, bind_Return. unfold panics. cbn [outcome snd].
  apply panics_bind_r. intros _ _. unfold panics. rewrite outcome_defer.
  eapply (CheckTable_loop_blank _ _ _ 0 _ i); [|done..].
  cbn [app]. by rewrite list_lookup_fmap, Hc.
Qed.

Lemma CheckDatabase_tables_blank sync cols tables i conn server :
  (name, table) ∈ tables →
  connections sync !! i = Some conn →
  Servers (config sync) !! i = Some server →
  (c, ty) ∈ live_rows (db_Query conn catalog_query [database sync; name]) →
  panics (CheckDatabase_tables sync cols tables).
Proof.
  intros Hin Hc Hs Hrow. induction tables as [|[name' table'] tables IH];
    [by apply elem_of_nil in Hin|].
  cbn [CheckDatabase_tables]. apply elem_of_cons in Hin as [[= <- <-]|Hin].
  - apply panics_bind_l. by eapply CheckTable_blank.
  - apply panics_bind_r. intros _ _. by apply IH.
Qed.

Lemma CheckDatabase_blank sync o db i conn server :
  (name, table) ∈ tables_order o →
  connections sync !! i = Some conn →
  Servers (config sync) !! i = Some server →
  (c, ty) ∈ live_rows (db_Query conn catalog_query [Name db; name]) →
  panics (CheckDatabase sync o db).
Proof.
  intros Hin Hc Hs Hrow. unfold CheckDatabase, Exec.
  rewrite Exec_from_spec, bind_Return. unfold panics. cbn [outcome snd].
  destruct (ExecResults_HasError _); [by eexists|].
  apply panics_bind_l. by eapply CheckDatabase_tables_blank.
Qed.

Lemma Check_from_blank sync o k0 dbs k db i conn server :
  dbs !! k = Some db →
  (name, table) ∈ tables_order (o (k0 + k)) →
  connections sync !! i = Some conn →
  Servers (config sync) !! i = Some server →
  (c, ty) ∈ live_rows (db_Query conn catalog_query [Name db; name]) →
  panics (Check_from sync o k0 dbs).
Proof.
  revert sync k0 k. induction dbs as [|db' dbs IH]; intros sync k0 k Hk Hin Hc Hs Hrow;
    [done|].
  cbn [Check_from]. destruct k as [|k]; cbn in Hk.
  - simplify_eq. rewrite Nat.add_0_r in Hin. apply panics_bind_l.
    by eapply CheckDatabase_blank.
  - apply panics_bind_r. intros sync' Hret.
    apply CheckDatabase_returned in Hret as ->.
    apply (IH _ (S k0) k); [done| |done..].
    by replace (S k0 + k) with (k0 + S k) by lia.
Qed.

Lemma main_blank open o cfg f d g k db i server conn :
  Databases cfg !! k = Some db →
  (name, table) ∈ tables_order (o k) →
  Servers cfg !! i = Some server →
  open "clickhouse" (dsn_of (main_synchronizer cfg f d g) server) = inr conn →
  (c, ty) ∈ live_rows (db_Query conn catalog_query [Name db; name]) →
  panics (main open o cfg f d g).
Proof.
  intros Hk Hin Hs Ho Hrow.
  destruct (failures open (main_synchronizer cfg f d g)) as [|err errs] eqn:Hf.
  - rewrite (main_connected open o cfg f d g Hf). unfold panics. cbn [outcome snd].
    unfold main_checks. apply panics_bind_l. unfold Check.
    eapply (Check_from_blank _ _ 0 _ k db i conn server); [done|done| |done|done].
    by apply (pool_lookup _ _ _ server).
  - rewrite (main_connect_failed open o cfg f d g err errs Hf). by eexists.
Qed.

End blank_type_run.

(** C10: when a declared type is blank and a live row of some replica
    names its column, the declared type has no first token; the check of
    that replica panics with an index out of range, having reported no
    divergence for the column; and so the run ends by a panic. *)
Theorem C10_blank_declared_type_panics
    open o cfg f d g k db name table c ty declared i server conn :
  Databases cfg !! k = Some db →
  Tables db !! name = Some table →
  valid_order db (o k) →
  Columns table !! c = Some declared →
  blank declared = true →
  Servers cfg !! i = Some server →
  open "clickhouse" (dsn_of (main_synchronizer cfg f d g) server) = inr conn →
  (c, ty) ∈ live_rows (db_Query conn catalog_query [Name db; name]) →
  strings.Fields declared = []
  ∧ (∀ conns rng l,
       let sync := set_database (set_connections (main_synchronizer cfg f d g) conns)
                     (Name db) in
       let m := CheckTable_body sync rng name table l i
                  (db_Query conn catalog_query [Name db; name]) in
       outcome m = Panic (PanicIndexOutOfRange 0 0)
       ∧ Forall (λ d, column_of d ≠ Some c) (divergences (trace m)))
  ∧ panics (main open o cfg f d g).
Proof.
  intros Hk Ht Horder Hc Hb Hs Ho Hrow. split_and!.
  - by apply Fields_nil_blank.
  - intros conns rng l. by eapply CheckTable_body_blank.
  - eapply main_blank; [done..| |done|done|done].
    destruct Horder as [Horder _]. unfold range_of in Horder.
    rewrite Horder. by apply elem_of_map_to_list.
Qed.

Lemma C10_blank_declared_type_panics_witness :
  let table := Sample.table {[ "id" := "UInt64"; "note" := " " ]} in
  let db := {| Name := "db"; Tables := {[ "t" := table ]} |} in
  let cfg := {| Servers := [Sample.server]; Databases := [db] |} in
  let conn := Sample.conn [("id", "UInt64"); ("note", "String")] in
  let open : sql_Open_t := λ _ _, inr conn in
  let o : nat → RangeOrder := λ _,
    {| tables_order := [("t", table)];
       columns_order := λ _ _, [("id", "UInt64"); ("note", " ")] |} in
  strings.Fields " " = []
  ∧ (∀ conns rng l,
       let sync := set_database (set_connections (main_synchronizer cfg true false false)
                                   conns) "db" in
       let m := CheckTable_body sync rng "t" table l 0
                  (db_Query conn catalog_query ["db"; "t"]) in
       outcome m = Panic (PanicIndexOutOfRange 0 0)
       ∧ Forall (λ d, column_of d ≠ Some "note") (divergences (trace m)))
  ∧ panics (main open o cfg true false false).
Proof.
  intros table db cfg conn open o.
  assert (Tables db !! "t" = Some table) as Ht by (vm_compute; reflexivity).
  assert (valid_order db (o 0)) as Horder.
  { split; [unfold range_of; vm_compute; reflexivity|].
    intros name' table' j Hl. unfold db in Hl. cbn [Tables] in Hl.
    apply lookup_singleton_Some in Hl as [_ <-].
    unfold range_of. vm_compute. reflexivity. }
  assert (Columns table !! "note" = Some " ") as Hc by (vm_compute; reflexivity).
  assert (blank " " = true) as Hb by (vm_compute; reflexivity).
  assert (("note", "String") ∈ live_rows (db_Query conn catalog_query ["db"; "t"]))
    as Hrow by (right; left).
  exact (C10_blank_declared_type_panics open o cfg true false false 0 db "t" table
           "note" "String" " " 0 Sample.server conn
           eq_refl Ht Horder Hc Hb eq_refl eq_refl Hrow).
Defined.

(** * Further properties *)

(** ** Close, Exec and Query *)

Lemma Close_loop_spec (i : nat) (conns : list sql_DB) (errs : list string) :
  Close_loop i conns errs
  = (EvClose <$> seq i (length conns), Return (errs ++ omap db_Close conns)).
Proof.
  revert i errs. induction conns as [|conn conns IH]; intros i errs.
  - cbn. by rewrite app_nil_r.
  - cbn [Close_loop]. unfold emit. rewrite bind_Return, omap_cons.
    destruct (db_Close conn) as [err|]; rewrite IH; cbn [trace outcome fst snd];
      cbn [length seq fmap list_fmap app]; by rewrite <- ?app_assoc.
Qed.

(** X1: [Close] closes every connection of the pool once, in order, also
    after a failure; it returns nil when every close succeeded and
    otherwise the failure texts in pool order, each followed by a line
    feed. It never panics. *)
Theorem X1_Close_collects (sync : Synchronizer) :
  Close sync
  = (EvClose <$> seq 0 (length (connections sync)),
     Return (match omap db_Close (connections sync) with
             | [] => None
             | errs => Some (lines errs)
             end)).
Proof.
  unfold Close. rewrite Close_loop_spec, bind_Return. cbn [app].
  destruct (omap db_Close (connections sync)) as [|err errs].
  - cbn. by rewrite app_nil_r.
  - rewrite bool_decide_eq_false_2 by done.
    cbn [trace outcome fst snd mret M_ret]. by rewrite app_nil_r, errors_text_lines.
Qed.

Lemma ExecResults_Error_from (e : list ExecResult) (acc : string) :
  foldl (λ text r, match e_error r with
                   | Some err => text +:+ (err +:+ LF)
                   | None => text
                   end) acc e
  = acc +:+ lines (omap e_error e).
Proof.
  revert acc. induction e as [|r e IH]; intros acc.
  - cbn. by rewrite append_nil_r.
  - cbn [foldl]. rewrite IH, omap_cons. destruct (e_error r) as [err|]; [|done].
    change (lines (err :: omap e_error e)) with (err +:+ LF +:+ lines (omap e_error e)).
    by rewrite !append_assoc.
Qed.

(** X2: the text of a list of results of [Exec] is made of the errors of
    the failed results, in order, each followed by a line feed; the list
    has an error exactly when one result failed, and then the text is not
    empty. *)
Theorem X2_ExecResults_Error_lines (e : list ExecResult) :
  ExecResults_Error e = lines (omap e_error e)
  ∧ (ExecResults_HasError e = true ↔ omap e_error e ≠ [])
  ∧ (ExecResults_HasError e = false ↔ ExecResults_Error e = "").
Proof.
  assert (ExecResults_Error e = lines (omap e_error e)) as Htext.
  { unfold ExecResults_Error. by rewrite ExecResults_Error_from. }
  assert (ExecResults_HasError e = true ↔ omap e_error e ≠ []) as Hhas.
  { clear Htext. unfold ExecResults_HasError. induction e as [|r e IH]; [done|].
    cbn [existsb]. rewrite omap_cons. destruct (e_error r) as [err|]; [by cbn|].
    rewrite bool_decide_eq_false_2 by (by intros ?). cbn [orb]. apply IH. }
  split_and!; [done..|]. rewrite Htext.
  destruct (omap e_error e) as [|err errs].
  - split; [done|]. intros _. destruct (ExecResults_HasError e); [|done].
    by destruct (proj1 Hhas eq_refl).
  - split.
    + intros Hf. rewrite (proj2 Hhas ltac:(done)) in Hf. discriminate.
    + change (lines (err :: errs)) with (err +:+ LF +:+ lines errs).
      destruct err; discriminate.
Qed.

Lemma QueryResults_Error_loop_spec (e : list QueryResult) (text : string) :
  QueryResults_Error_loop e text
  = ([], if existsb failed_without_error e then Panic PanicNilDereference
         else Return (text +:+ lines (omap q_error
                                        (filter (λ r, rows_failed r = true) e)))).
Proof.
  revert text. induction e as [|r e IH]; intros text.
  - cbn. by rewrite append_nil_r.
  - cbn [QueryResults_Error_loop existsb]. unfold failed_without_error at 1.
    rewrite filter_cons. destruct (rows_failed r) eqn:Hr.
    + rewrite decide_True by done. rewrite omap_cons.
      destruct (q_error r) as [err|]; [|done].
      rewrite bool_decide_eq_false_2 by done. cbn [andb orb]. rewrite IH.
      destruct (existsb failed_without_error e); [done|].
      change (lines (err :: ?l)) with (err +:+ LF +:+ lines l).
      by rewrite !append_assoc.
    + rewrite decide_False by done. cbn [andb orb]. apply IH.
Qed.

(** X3: the text of a list of query results takes the error of each
    result whose row set reports a failure, in order, each followed by a
    line feed; when such a result carries no error of its own, as after
    a query that succeeded, asking for the text panics with a nil
    dereference. It logs and sends nothing. *)
Theorem X3_QueryResults_Error_nil_error (r : list QueryResult) :
  QueryResults_Error r
  = ([], if existsb failed_without_error r then Panic PanicNilDereference
         else Return (lines (omap q_error (filter (λ e, rows_failed e = true) r)))).
Proof. apply QueryResults_Error_loop_spec. Qed.

(** X4: [Exec] and [Query] go through the whole pool in order, whatever
    the earlier connections answered, and return one result per
    connection, in pool order; they never panic. *)
Theorem X4_Exec_Query_every_connection (sync : Synchronizer) (query : string)
    (args : list string) :
  Exec sync query
  = (imap (λ i _, EvExec i query) (connections sync),
     Return ((λ conn, {| e_error := db_Exec conn query |}) <$> connections sync))
  ∧ Query sync query args
    = (imap (λ i _, EvQuery i query args) (connections sync),
       Return ((λ conn, db_Query conn query args) <$> connections sync)).
Proof.
  unfold Exec, Query. by rewrite Exec_from_spec, Query_from_spec.
Qed.

(** ** The shape of a check of a table *)

Lemma queries_app (t1 t2 : list Event) : queries (t1 ++ t2) = queries t1 ++ queries t2.
Proof. apply omap_app. Qed.

Lemma rows_closed_app (t1 t2 : list Event) :
  rows_closed (t1 ++ t2) = rows_closed t1 ++ rows_closed t2.
Proof. apply omap_app. Qed.

Lemma log_or_go_body sync rng name table l i e :
  Forall log_or_go (trace (CheckTable_body sync rng name table l i e)).
Proof.
  apply CheckTable_body_additive; [apply additive_Forall|..].
  - intros l' c ty.
    destruct (CheckTable_row_events sync name table i l' c ty);
      try constructor; try done; by destruct (fix_ sync), (dropColumns sync);
      repeat constructor.
  - intros l' c want ec _. unfold missing_events.
    case_bool_decide; [constructor|]. by destruct (fix_ sync); repeat constructor.
  - intros l'. unfold object_events. by destruct (fix_ sync); repeat constructor.
Qed.

Lemma log_or_go_loop sync rng name table l i r :
  Forall log_or_go (trace (CheckTable_loop sync rng name table l i r)).
Proof.
  revert l i. induction r as [|e r IH]; intros l i; [constructor|].
  cbn [CheckTable_loop]. apply additive_bind; auto using additive_Forall, log_or_go_body.
Qed.

Lemma log_or_go_queries (t : list Event) : Forall log_or_go t → queries t = [].
Proof. induction 1 as [|e t He _ IH]; [done|]. by destruct e. Qed.

Lemma log_or_go_rows_closed (t : list Event) : Forall log_or_go t → rows_closed t = [].
Proof. induction 1 as [|e t He _ IH]; [done|]. by destruct e. Qed.

Lemma CheckTable_unfold sync rng name table :
  CheckTable sync rng name table
  = (let l : gmap string string := {[ "database" := database sync; "table" := name ]} in
     let r := catalog_results sync name in
     let m := when (QueryResults_HasError r)
                   (text ← QueryResults_Error r; log_Error l text);;
              defer (QueryResults_Close r) (CheckTable_loop sync rng name table l 0 r) in
     (imap (λ i _, EvQuery i catalog_query [database sync; name]) (connections sync)
        ++ trace m, outcome m)).
Proof. unfold CheckTable, Query. by rewrite Query_from_spec, bind_Return. Qed.

Lemma queries_imap (conns : list sql_DB) (query : string) (args : list string)
    (g : nat → nat) :
  queries (imap (λ i _, EvQuery (g i) query args) conns)
  = imap (λ i _, (g i, query, args)) conns.
Proof.
  revert g. induction conns as [|conn conns IH]; intros g; [done|].
  cbn [imap]. change (queries (?e :: ?t)) with (queries [e] ++ queries t).
  cbn [queries omap list_omap app]. f_equal. apply (IH (g ∘ S)).
Qed.

Lemma omap_none {A} (f : Event → option A) (t : list Event) :
  Forall (λ e, f e = None) t → omap f t = [].
Proof. induction 1 as [|e t He _ IH]; [done|]. by rewrite omap_cons, He. Qed.

Lemma Forall_imap_queries (conns : list sql_DB) (query : string) (args : list string) :
  Forall (λ e, ∃ i, e = EvQuery i query args)
         (imap (λ i _, EvQuery i query args) conns).
Proof.
  apply Forall_forall. intros e He.
  apply elem_of_lookup_imap in He as (i & c & -> & _). by eexists.
Qed.

Lemma Forall_Close_from (k : nat) (r : list QueryResult) :
  Forall (λ e, ∃ i, e = EvRowsClose i) (QueryResults_Close_from k r).
Proof.
  revert k. induction r as [|e r IH]; intros k; [constructor|].
  cbn [QueryResults_Close_from]. destruct (Rows e); [constructor; [by eexists|]|]; apply IH.
Qed.

Lemma log_or_go_report (l : gmap string string) (r : list QueryResult) :
  Forall log_or_go
    (trace (when (QueryResults_HasError r)
                 (text ← QueryResults_Error r; log_Error l text))).
Proof.
  apply additive_when; [apply additive_Forall|]. intros _.
  apply additive_bind; [apply additive_Forall| |].
  - unfold QueryResults_Error. rewrite QueryResults_Error_silent. constructor.
  - intros text. by repeat constructor.
Qed.

(** After the queries a check of a table only logs, dispatches tasks and
    closes row sets. *)
Lemma CheckTable_rest sync rng name table (l : gmap string string) (r : list QueryResult) :
  Forall (λ e, log_or_go e ∨ ∃ i, e = EvRowsClose i)
    (trace (when (QueryResults_HasError r)
                 (text ← QueryResults_Error r; log_Error l text);;
            defer (QueryResults_Close r) (CheckTable_loop sync rng name table l 0 r))).
Proof.
  apply additive_bind; [apply additive_Forall| |].
  - eapply Forall_impl; [apply log_or_go_report|]. by left.
  - intros _. rewrite trace_defer. apply Forall_app. split.
    + eapply Forall_impl; [apply log_or_go_loop|]. by left.
    + eapply Forall_impl; [apply Forall_Close_from|]. by right.
Qed.

Lemma CheckTable_queries_statements sync rng name table :
  let t := trace (CheckTable sync rng name table) in
  queries t = imap (λ i _, (i, catalog_query, [database sync; name])) (connections sync)
  ∧ statements t = []
  ∧ ∃ rest, t = imap (λ i _, EvQuery i catalog_query [database sync; name])
                     (connections sync) ++ rest
            ∧ queries rest = [].
Proof.
  cbn zeta. rewrite CheckTable_unfold. cbn zeta. cbn [trace fst].
  pose proof (CheckTable_rest sync rng name table
                {[ "database" := database sync; "table" := name ]}
                (catalog_results sync name)) as Hrest.
  set (rest := trace _) in *.
  assert (queries rest = []) as Hq.
  { apply omap_none. eapply Forall_impl; [exact Hrest|].
    intros e [He|[i ->]]; [by destruct e|done]. }
  split_and!.
  - rewrite queries_app, Hq, app_nil_r. apply (queries_imap _ _ _ id).
  - unfold statements. rewrite omap_app. rewrite (omap_none _ rest).
    + rewrite app_nil_r. apply omap_none.
      eapply Forall_impl; [apply Forall_imap_queries|]. by intros e [i ->].
    + eapply Forall_impl; [exact Hrest|]. intros e [He|[i ->]]; [by destruct e|done].
  - by exists rest.
Qed.

(** X5: a check of a table sends the catalog query once to every
    connection of the pool, in pool order and before anything else, with
    the current database and the table name as arguments; it sends no
    other query and executes no statement itself. *)
Theorem X5_CheckTable_one_query_per_replica sync rng name table :
  let t := trace (CheckTable sync rng name table) in
  queries t = imap (λ i _, (i, catalog_query, [database sync; name])) (connections sync)
  ∧ statements t = []
  ∧ ∃ rest, t = imap (λ i _, EvQuery i catalog_query [database sync; name])
                     (connections sync) ++ rest
            ∧ queries rest = [].
Proof. apply CheckTable_queries_statements. Qed.

Lemma rows_closed_Close_from (k : nat) (r : list QueryResult) :
  rows_closed (QueryResults_Close_from k r)
  = fst <$> filter (λ p, is_Some (Rows p.2)) (imap (λ i e, (k + i, e)) r).
Proof.
  revert k. induction r as [|e r IH]; intros k; [done|].
  cbn [QueryResults_Close_from imap]. rewrite filter_cons. cbn [snd].
  rewrite (imap_ext _ (λ i e, (S k + i, e))) by (intros; cbn; f_equal; lia).
  destruct (Rows e) as [rows|].
  - rewrite decide_True by done. cbn [rows_closed omap list_omap fmap list_fmap fst].
    fold (rows_closed). rewrite IH. f_equal. lia.
  - rewrite decide_False by (by intros [? ?]). apply IH.
Qed.

Lemma rows_closed_queries (conns : list sql_DB) (query : string) (args : list string) :
  rows_closed (imap (λ i _, EvQuery i query args) conns) = [].
Proof.
  apply omap_none. eapply Forall_impl; [apply Forall_imap_queries|]. by intros e [i ->].
Qed.

(** X6: when asking for the error text does not panic, a check of a
    table closes every row set it obtained, each once and in pool order,
    and no other; this also holds when the check of a replica panics. *)
Theorem X6_CheckTable_closes_row_sets sync rng name table :
  existsb failed_without_error (catalog_results sync name) = false →
  rows_closed (trace (CheckTable sync rng name table))
  = fst <$> filter (λ p, is_Some (Rows p.2))
                   (imap (λ i e, (i, e)) (catalog_results sync name)).
Proof.
  intros Hok. rewrite CheckTable_unfold. cbn zeta. cbn [trace fst].
  rewrite rows_closed_app, rows_closed_queries. cbn [app].
  assert (∃ t, Forall log_or_go t ∧
               when (QueryResults_HasError (catalog_results sync name))
                 (text ← QueryResults_Error (catalog_results sync name);
                  log_Error {[ "database" := database sync; "table" := name ]} text)
               = (t, Return tt)) as (t & Ht & ->).
  { destruct (QueryResults_HasError _); [|by exists []].
    cbn [when]. unfold QueryResults_Error.
    rewrite QueryResults_Error_loop_spec, Hok, bind_Return.
    eexists. split; [|reflexivity]. by repeat constructor. }
  rewrite bind_Return. cbn [trace fst]. rewrite trace_defer, !rows_closed_app.
  rewrite (log_or_go_rows_closed t Ht).
  rewrite (log_or_go_rows_closed _ (log_or_go_loop _ _ _ _ _ _ _)). cbn [app].
  unfold QueryResults_Close. by rewrite rows_closed_Close_from.
Qed.

Lemma X6_CheckTable_closes_row_sets_witness :
  let sync := Sample.sync true false [("a", "Int"); ("x", "String")] in
  let table := Sample.table {[ "a" := "String" ]} in
  rows_closed (trace (CheckTable sync (λ _, [("a", "String")]) "t" table))
  = fst <$> filter (λ p, is_Some (Rows p.2))
                   (imap (λ i e, (i, e)) (catalog_results sync "t")).
Proof.
  intros sync table.
  exact (X6_CheckTable_closes_row_sets sync (λ _, [("a", "String")]) "t" table eq_refl).
Defined.

(** ** What a check reports *)

Lemma detect_row_excess (desired : gmap string string) (row : string * string) (c : string) :
  detect_row desired row = Some (ColumnExcess c)
  ↔ size desired ≠ 0 ∧ row.1 = c ∧ desired !! c = None.
Proof.
  unfold detect_row. case_bool_decide as Hsz; [naive_solver|].
  destruct (desired !! row.1) as [want|] eqn:Hrow.
  - destruct (head (strings.Fields want)); [case_bool_decide|]; naive_solver.
  - naive_solver.
Qed.

Lemma detect_row_mismatch (desired : gmap string string) (row : string * string)
    (c want have : string) :
  detect_row desired row = Some (TypeMismatch c want have)
  ↔ row = (c, have)
    ∧ ∃ declared, desired !! c = Some declared
                  ∧ head (strings.Fields declared) = Some want ∧ want ≠ have.
Proof.
  unfold detect_row. destruct row as [c' have']. cbn [fst snd]. split.
  - case_bool_decide as Hsz; [done|].
    destruct (desired !! c') as [declared|] eqn:Hrow; [|done].
    destruct (head (strings.Fields declared)) as [tok|] eqn:Htok; [|done].
    case_bool_decide; [done|]. intros [= -> -> ->]. eauto.
  - intros [[= -> ->] (declared & Hd & Htok & Hne)].
    rewrite bool_decide_eq_false_2.
    + rewrite Hd, Htok. by rewrite bool_decide_eq_false_2.
    + intros Hsz. apply map_size_empty_iff in Hsz. by rewrite Hsz in Hd.
Qed.

Lemma detect_row_kind (desired : gmap string string) (row : string * string) d :
  detect_row desired row = Some d → is_excess d = true ∨ is_mismatch d = true.
Proof. unfold detect_row. repeat case_match; intros [= <-]; auto. Qed.

Lemma missing_columns_detect_row (desired : gmap string string)
    (live : list (string * string)) :
  missing_columns (omap (detect_row desired) live) = [].
Proof.
  induction live as [|row live IH]; [done|]. rewrite omap_cons.
  destruct (detect_row desired row) as [d|] eqn:Hd; [|done].
  unfold missing_columns. rewrite omap_cons. fold (missing_columns (omap (detect_row desired) live)).
  rewrite IH. by destruct (detect_row_kind _ _ _ Hd), d.
Qed.

Lemma missing_columns_fmap (cs : list string) :
  missing_columns (ColumnMissing <$> cs) = cs.
Proof. induction cs as [|c cs IH]; [done|]. cbn. f_equal. apply IH. Qed.

Section reports.
Variables (sync : Synchronizer) (rng : list (string * string)) (name : string)
          (table : Table) (l : gmap string string) (i : nat) (e : QueryResult)
          (server : Server).
Hypothesis Hserver : Servers (config sync) !! i = Some server.
Hypothesis Hwf : types_well_formed table.

Lemma reported_excess (c : string) :
  ColumnExcess c ∈ divergences (trace (CheckTable_body sync rng name table l i e))
  ↔ size (Columns table) ≠ 0 ∧ c ∈ (live_rows e).*1 ∧ Columns table !! c = None.
Proof.
  rewrite (CheckTable_body_detect _ _ _ _ _ _ _ server) by done.
  unfold detect, detect_missing. destruct (live_rows e) as [|row rows] eqn:He.
  { rewrite list_elem_of_singleton. split; [done|]. intros (_ & Hin & _).
    by apply elem_of_nil in Hin. }
  rewrite elem_of_app, list_elem_of_omap, list_elem_of_fmap. split.
  - intros [(row' & Hin & Hrow)|(c' & [=] & _)].
    apply detect_row_excess in Hrow as (? & <- & ?).
    split_and!; [done| |done]. apply list_elem_of_fmap. eauto.
  - intros (Hsz & Hin & Hc). left. apply list_elem_of_fmap in Hin as (row' & -> & Hin).
    exists row'. split; [done|]. by apply detect_row_excess.
Qed.

Lemma reported_mismatch (c want have : string) :
  TypeMismatch c want have
    ∈ divergences (trace (CheckTable_body sync rng name table l i e))
  ↔ (c, have) ∈ live_rows e
    ∧ ∃ declared, Columns table !! c = Some declared
                  ∧ head (strings.Fields declared) = Some want ∧ want ≠ have.
Proof.
  rewrite (CheckTable_body_detect _ _ _ _ _ _ _ server) by done.
  unfold detect, detect_missing. destruct (live_rows e) as [|row rows] eqn:He.
  { rewrite list_elem_of_singleton. split; [done|]. intros (Hin & _).
    by apply elem_of_nil in Hin. }
  rewrite elem_of_app, list_elem_of_omap, list_elem_of_fmap. split.
  - intros [(row' & Hin & Hrow)|(c' & [=] & _)].
    apply detect_row_mismatch in Hrow as (-> & Hd). by split.
  - intros (Hin & Hd). left. exists (c, have). split; [done|].
    by apply detect_row_mismatch.
Qed.

Lemma reported_missing (c : string) :
  range_of (Columns table) rng →
  ColumnMissing c ∈ divergences (trace (CheckTable_body sync rng name table l i e))
  ↔ live_rows e ≠ [] ∧ is_Some (Columns table !! c) ∧ c ∉ (live_rows e).*1.
Proof.
  intros Hrng.
  rewrite (CheckTable_body_detect _ _ _ _ _ _ _ server) by done.
  unfold detect, detect_missing. destruct (live_rows e) as [|row rows] eqn:He.
  { rewrite list_elem_of_singleton. split; [done|]. by intros (? & _). }
  rewrite elem_of_app, list_elem_of_omap, list_elem_of_fmap. split.
  - intros [(row' & Hin & Hrow)|(c' & [= <-] & Hin)].
    { by destruct (detect_row_kind _ _ _ Hrow). }
    apply list_elem_of_filter in Hin as [Hnot Hin]. split_and!; [done| |done].
    apply list_elem_of_fmap in Hin as ([c' want] & -> & Hin).
    rewrite Hrng in Hin. apply elem_of_map_to_list in Hin. by exists want.
  - intros (_ & [want Hc] & Hnot). right. exists c. split; [done|].
    apply list_elem_of_filter. split; [done|]. apply list_elem_of_fmap.
    exists (c, want). split; [done|]. rewrite Hrng. by apply elem_of_map_to_list.
Qed.

Lemma reported_missing_once :
  range_of (Columns table) rng →
  NoDup (missing_columns
           (divergences (trace (CheckTable_body sync rng name table l i e)))).
Proof.
  intros Hrng.
  rewrite (CheckTable_body_detect _ _ _ _ _ _ _ server) by done.
  unfold detect, detect_missing. destruct (live_rows e) as [|row rows] eqn:He.
  { cbn. constructor. }
  unfold missing_columns. rewrite omap_app.
  fold (missing_columns (omap (detect_row (Columns table)) (row :: rows))).
  rewrite missing_columns_detect_row. cbn [app].
  fold (missing_columns (ColumnMissing <$> filter (λ c, c ∉ (row :: rows).*1) rng.*1)).
  rewrite missing_columns_fmap.
  apply NoDup_filter. unfold range_of in Hrng. rewrite Hrng.
  apply NoDup_fst_map_to_list.
Qed.

End reports.

(** X8: on a table whose declared types all have a first token, the check
    of a replica reports a column as excess exactly when columns are
    declared, a live row names the column and the column is not
    declared. *)
Theorem X8_excess_reported sync rng name table l i e server c :
  Servers (config sync) !! i = Some server →
  types_well_formed table →
  ColumnExcess c ∈ divergences (trace (CheckTable_body sync rng name table l i e))
  ↔ size (Columns table) ≠ 0 ∧ c ∈ (live_rows e).*1 ∧ Columns table !! c = None.
Proof. intros Hs Hwf. by eapply reported_excess. Qed.

Lemma X8_excess_reported_witness :
  let rows := [("id", "UInt64"); ("extra", "String")] in
  let table := Sample.table {[ "id" := "UInt64" ]} in
  ColumnExcess "extra"
    ∈ divergences (trace (CheckTable_body (Sample.sync false false rows)
                            [("id", "UInt64")] "t" table ∅ 0 (Sample.result rows)))
  ↔ size (Columns table) ≠ 0 ∧ "extra" ∈ rows.*1 ∧ Columns table !! "extra" = None.
Proof.
  intros rows table.
  assert (types_well_formed table) as Hwf
    by (refine (bool_decide_unpack _ _); vm_compute; exact I).
  exact (X8_excess_reported (Sample.sync false false rows) [("id", "UInt64")] "t"
           table ∅ 0 (Sample.result rows) Sample.server "extra" eq_refl Hwf).
Defined.

(** X9: on such a table, the check of a replica reports a type mismatch
    for a column, with a wanted and a live type, exactly when a live row
    has that column with that live type, the column is declared, the
    wanted type is the first token of its declared type and the two
    types differ as strings. *)
Theorem X9_mismatch_reported sync rng name table l i e server c want have :
  Servers (config sync) !! i = Some server →
  types_well_formed table →
  TypeMismatch c want have
    ∈ divergences (trace (CheckTable_body sync rng name table l i e))
  ↔ (c, have) ∈ live_rows e
    ∧ ∃ declared, Columns table !! c = Some declared
                  ∧ head (strings.Fields declared) = Some want ∧ want ≠ have.
Proof. intros Hs Hwf. by eapply reported_mismatch. Qed.

Lemma X9_mismatch_reported_witness :
  let rows := [("flag", "UInt16")] in
  let table := Sample.table {[ "flag" := "UInt8 DEFAULT 0" ]} in
  TypeMismatch "flag" "UInt8" "UInt16"
    ∈ divergences (trace (CheckTable_body (Sample.sync false false rows)
                            [("flag", "UInt8 DEFAULT 0")] "t" table ∅ 0
                            (Sample.result rows)))
  ↔ ("flag", "UInt16") ∈ rows
    ∧ ∃ declared, Columns table !! "flag" = Some declared
                  ∧ head (strings.Fields declared) = Some "UInt8" ∧ "UInt8" ≠ "UInt16".
Proof.
  intros rows table.
  assert (types_well_formed table) as Hwf
    by (refine (bool_decide_unpack _ _); vm_compute; exact I).
  exact (X9_mismatch_reported (Sample.sync false false rows)
           [("flag", "UInt8 DEFAULT 0")] "t" table ∅ 0 (Sample.result rows)
           Sample.server "flag" "UInt8" "UInt16" eq_refl Hwf).
Defined.

(** X10: on such a table, and for any order of the range over the
    declared columns, the check of a replica reports a column as missing
    exactly when at least one live row was returned, the column is
    declared and no live row names it; and it reports no column as
    missing twice. *)
Theorem X10_missing_reported sync rng name table l i e server :
  Servers (config sync) !! i = Some server →
  types_well_formed table →
  range_of (Columns table) rng →
  let ds := divergences (trace (CheckTable_body sync rng name table l i e)) in
  (∀ c, ColumnMissing c ∈ ds
        ↔ live_rows e ≠ [] ∧ is_Some (Columns table !! c) ∧ c ∉ (live_rows e).*1)
  ∧ NoDup (missing_columns ds).
Proof.
  intros Hs Hwf Hrng. cbn zeta. split.
  - intros c. by eapply reported_missing.
  - by eapply reported_missing_once.
Qed.

Lemma X10_missing_reported_witness :
  let rows := [("id", "UInt64")] in
  let rng := [("name", "String"); ("id", "UInt64")] in
  let table := Sample.table {[ "id" := "UInt64"; "name" := "String" ]} in
  let ds := divergences (trace (CheckTable_body (Sample.sync false false rows)
                                  rng "t" table ∅ 0 (Sample.result rows))) in
  (∀ c, ColumnMissing c ∈ ds
        ↔ rows ≠ [] ∧ is_Some (Columns table !! c) ∧ c ∉ rows.*1)
  ∧ NoDup (missing_columns ds).
Proof.
  intros rows rng table.
  assert (types_well_formed table) as Hwf
    by (refine (bool_decide_unpack _ _); vm_compute; exact I).
  assert (range_of (Columns table) rng) as Hrng.
  { unfold range_of. vm_compute. first [reflexivity | apply perm_swap]. }
  exact (X10_missing_reported (Sample.sync false false rows) rng "t" table ∅ 0
           (Sample.result rows) Sample.server eq_refl Hwf Hrng).
Defined.

(** ** Added columns *)

Lemma added_app (t1 t2 : list Event) : added (t1 ++ t2) = added t1 ++ added t2.
Proof. apply omap_app. Qed.

Lemma missing_columns_app (d1 d2 : list Divergence) :
  missing_columns (d1 ++ d2) = missing_columns d1 ++ missing_columns d2.
Proof. apply omap_app. Qed.

Section adds.
Variables (sync : Synchronizer) (name : string) (table : Table) (i : nat)
          (rng : list (string * string)).

Lemma adds_follow_missing_additive : additive (adds_follow_missing sync).
Proof.
  unfold adds_follow_missing. split; [by destruct (fix_ sync)|].
  intros t1 t2 H1 H2. rewrite added_app, fmap_app, H1, H2.
  destruct (fix_ sync); [|done]. by rewrite divergences_app, missing_columns_app.
Qed.

Lemma adds_carry_declared_additive : additive (adds_carry_declared name i rng).
Proof.
  unfold adds_carry_declared. split; [constructor|].
  intros t1 t2 H1 H2. rewrite added_app. by apply Forall_app.
Qed.

Lemma adds_row l c ty :
  let t := trace (CheckTable_row sync l i name table c ty) in
  adds_follow_missing sync t ∧ adds_carry_declared name i rng t.
Proof.
  unfold adds_follow_missing, adds_carry_declared.
  destruct (CheckTable_row_events sync name table i l c ty); cbn zeta;
    rewrite ?(divergences_log_go _ _ _ _ _ (divergence_of_excess _ _)),
            ?(divergences_log_go _ _ _ _ _ (divergence_of_mismatch _ _ _ _));
    split; try (by destruct (fix_ sync), (dropColumns sync)); try constructor;
    by destruct (fix_ sync), (dropColumns sync); constructor.
Qed.

Lemma adds_missing l c want ec :
  (c, want) ∈ rng →
  let t := missing_events sync name i l c want ec in
  adds_follow_missing sync t ∧ adds_carry_declared name i rng t.
Proof.
  intros Hin. unfold adds_follow_missing, adds_carry_declared, missing_events.
  case_bool_decide; cbn zeta.
  - split; [by destruct (fix_ sync)|constructor].
  - rewrite (divergences_log_go _ _ _ _ _ (divergence_of_missing _ _)).
    destruct (fix_ sync); split; try done; by repeat constructor.
Qed.

Lemma adds_object l :
  let t := object_events sync name table i l in
  adds_follow_missing sync t ∧ adds_carry_declared name i rng t.
Proof.
  unfold adds_follow_missing, adds_carry_declared, object_events. cbn zeta.
  rewrite (divergences_log_go _ _ _ _ _ (divergence_of_object _)).
  destruct (fix_ sync), (View table); split; try done; by repeat constructor.
Qed.

Lemma adds_body l e :
  let t := trace (CheckTable_body sync rng name table l i e) in
  adds_follow_missing sync t ∧ adds_carry_declared name i rng t.
Proof.
  cbn zeta. split; apply CheckTable_body_additive;
    auto using adds_follow_missing_additive, adds_carry_declared_additive;
    intros; first [eapply adds_row | by eapply adds_missing | eapply adds_object].
Qed.

End adds.

(** X11: with fixes on, the check of a replica dispatches one addition
    per ColumnMissing divergence, in the same order, and none with fixes
    off; an addition is for the replica and the table checked and carries
    the declared type of its column whole, modifiers included; the task
    sends ALTER TABLE ... ADD COLUMN with that type. *)
Theorem X11_add_carries_declared_type sync rng name table l i e :
  range_of (Columns table) rng →
  let t := trace (CheckTable_body sync rng name table l i e) in
  (λ a, a.1.2) <$> added t
  = (if fix_ sync then missing_columns (divergences t) else [])
  ∧ Forall (λ a, a.1.1.1 = i ∧ a.1.1.2 = name ∧ Columns table !! a.1.2 = Some a.2)
           (added t)
  ∧ (∀ sync' rng' c ty,
       statements (trace (run_task sync' rng' (GoAddColumn i name c ty)))
       = match connections sync' !! i, Servers (config sync') !! i with
         | Some _, Some _ =>
             ["ALTER TABLE " +:+ name +:+ " ADD COLUMN " +:+ c +:+ " " +:+ ty]
         | _, _ => []
         end).
Proof.
  intros Hrng. cbn zeta. destruct (adds_body sync name table i rng l e) as [H1 H2].
  split_and!.
  - exact H1.
  - eapply Forall_impl; [exact H2|]. intros a (? & ? & Hin). split_and!; [done..|].
    unfold range_of in Hrng. rewrite Hrng in Hin. by apply elem_of_map_to_list.
  - intros sync' rng' c ty. cbn [run_task]. unfold AddColumn.
    apply (task_statements sync' i
             (λ server, <["type" := ty]> (column_fields sync' server name c))).
Qed.

Lemma X11_add_carries_declared_type_witness :
  let rows := [("id", "UInt64")] in
  let rng := [("flag", "UInt8 DEFAULT 0"); ("id", "UInt64")] in
  let table := Sample.table {[ "id" := "UInt64"; "flag" := "UInt8 DEFAULT 0" ]} in
  let t := trace (CheckTable_body (Sample.sync true false rows) rng "t" table ∅ 0
                    (Sample.result rows)) in
  (λ a, a.1.2) <$> added t
  = (if fix_ (Sample.sync true false rows) then missing_columns (divergences t) else [])
  ∧ Forall (λ a, a.1.1.1 = 0 ∧ a.1.1.2 = "t" ∧ Columns table !! a.1.2 = Some a.2)
           (added t)
  ∧ (∀ sync' rng' c ty,
       statements (trace (run_task sync' rng' (GoAddColumn 0 "t" c ty)))
       = match connections sync' !! 0, Servers (config sync') !! 0 with
         | Some _, Some _ =>
             ["ALTER TABLE " +:+ "t" +:+ " ADD COLUMN " +:+ c +:+ " " +:+ ty]
         | _, _ => []
         end).
Proof.
  intros rows rng table.
  assert (range_of (Columns table) rng) as Hrng.
  { unfold range_of. vm_compute. first [reflexivity | apply perm_swap]. }
  exact (X11_add_carries_declared_type (Sample.sync true false rows) rng "t" table ∅ 0
           (Sample.result rows) Hrng).
Defined.

(** The addition dispatched for the sample table. *)
Example AddColumn_sample :
  let rows := [("id", "UInt64")] in
  added (trace (CheckTable_body (Sample.sync true false rows)
                  [("flag", "UInt8 DEFAULT 0"); ("id", "UInt64")] "t"
                  (Sample.table {[ "id" := "UInt64"; "flag" := "UInt8 DEFAULT 0" ]})
                  ∅ 0 (Sample.result rows)))
  = [(0, "t", "flag", "UInt8 DEFAULT 0")].
Proof. vm_compute. reflexivity. Qed.

(** ** A table declared without columns *)

Lemma CheckTable_row_no_columns sync l i name table c ty :
  size (Columns table) = 0 →
  CheckTable_row sync l i name table c ty = mret tt.
Proof. intros Hsz. unfold CheckTable_row. by rewrite bool_decide_eq_true_2. Qed.

(** X12: for a table declared without columns, a replica that returns at
    least one row passes the check silently, whatever its live columns
    are: nothing is logged and nothing dispatched. *)
Theorem X12_no_declared_columns_no_check sync rng name table l i e server :
  Servers (config sync) !! i = Some server →
  size (Columns table) = 0 →
  range_of (Columns table) rng →
  live_rows e ≠ [] →
  CheckTable_body sync rng name table l i e = ([], Return (with_host l server)).
Proof.
  intros Hs Hsz Hrng He.
  assert (Columns table = ∅) as Hempty by by apply map_size_empty_iff.
  assert (types_well_formed table) as Hwf.
  { unfold types_well_formed. rewrite Hempty. apply map_Forall_empty. }
  assert (rng = []) as ->.
  { unfold range_of in Hrng. rewrite Hempty, map_to_list_empty in Hrng.
    by apply Permutation_nil_r. }
  rewrite (CheckTable_body_rows _ _ _ _ _ _ _ server) by done.
  cbn [CheckTable_missing trace fst mret M_ret]. rewrite app_nil_r. f_equal.
  apply (CheckTable_rows_additive sync name table i (λ t, t = [])).
  - split; [done|]. by intros ? ? -> ->.
  - intros c ty. by rewrite CheckTable_row_no_columns.
Qed.

Lemma X12_no_declared_columns_no_check_witness :
  let rows := [("anything", "String"); ("else", "Date")] in
  let view := {| View := true; Materialized := false; Populate := false;
                 Columns := ∅; Engine := ""; AsAnotherTable := "";
                 AsSelect := "SELECT 1" |} in
  CheckTable_body (Sample.sync true true rows) [] "v" view ∅ 0 (Sample.result rows)
  = ([], Return (with_host ∅ Sample.server)).
Proof.
  intros rows view.
  assert (range_of (Columns view) []) as Hrng by (unfold range_of; vm_compute; reflexivity).
  assert (rows ≠ []) as Hrows by discriminate.
  exact (X12_no_declared_columns_no_check (Sample.sync true true rows) [] "v" view ∅ 0
           (Sample.result rows) Sample.server eq_refl eq_refl Hrng Hrows).
Defined.

(** ** The context of the log entries *)

Lemma entries_app (t1 t2 : list Event) : entries (t1 ++ t2) = entries t1 ++ entries t2.
Proof. apply omap_app. Qed.

Lemma carries_additive (k v : string) : additive (carries k v).
Proof.
  unfold carries. split; [constructor|].
  intros t1 t2 H1 H2. rewrite entries_app. by apply Forall_app.
Qed.

Lemma carries_log_go (k v : string) lvl (l : gmap string string) msg (b : bool) task :
  l !! k = Some v →
  carries k v (EvLog lvl l msg :: if b then [EvGo task] else []).
Proof. intros Hl. unfold carries. by destruct b; repeat constructor. Qed.

Section context.
Variables (sync : Synchronizer) (name : string) (table : Table) (i : nat)
          (k v : string) (l : gmap string string).
Hypothesis Hl : l !! k = Some v.
Hypothesis Hcolumn : k ≠ "column".
Hypothesis Hneed : k ≠ "need type".
Hypothesis Hhas : k ≠ "has type".

Lemma carries_row c ty :
  carries k v (trace (CheckTable_row sync l i name table c ty)).
Proof.
  destruct (CheckTable_row_events sync name table i l c ty);
    try apply carries_additive.
  - apply carries_log_go. unfold WithField. by rewrite lookup_insert_ne.
  - apply carries_log_go. unfold WithFields.
    rewrite lookup_union_r; [done|].
    rewrite !lookup_insert_ne by done. by rewrite lookup_singleton_ne.
Qed.

Lemma carries_missing_events c want ec :
  carries k v (missing_events sync name i l c want ec).
Proof.
  unfold missing_events. case_bool_decide; [apply carries_additive|].
  apply carries_log_go. unfold WithField. by rewrite lookup_insert_ne.
Qed.

Lemma carries_object_events : carries k v (object_events sync name table i l).
Proof. unfold object_events. by apply carries_log_go. Qed.

Lemma carries_checks rng e :
  carries k v
    (trace ('(exists_, existColumns) ←
              CheckTable_rows sync l i name table (live_rows e) false ∅;
            if negb exists_ then
              log_Error l "Table does not exist";;
              when (fix_ sync)
                (if View table then emit (EvGo (GoCreateView i name table))
                 else emit (EvGo (GoCreateTable i name table)));;
              mret l
            else
              CheckTable_missing sync l i name rng existColumns;; mret l)).
Proof.
  apply additive_bind; [apply carries_additive| |].
  - apply CheckTable_rows_additive; [apply carries_additive|apply carries_row].
  - intros [ex ec]. destruct ex; cbn [negb].
    + apply additive_bind; [apply carries_additive| |intros; apply carries_additive].
      apply CheckTable_missing_additive; [apply carries_additive|].
      intros. apply carries_missing_events.
    + rewrite CheckTable_body_object. apply carries_object_events.
Qed.

End context.

Lemma carries_body sync rng name table l i e k v :
  (∀ server, Servers (config sync) !! i = Some server →
             with_host l server !! k = Some v) →
  k ≠ "column" → k ≠ "need type" → k ≠ "has type" →
  carries k v (trace (CheckTable_body sync rng name table l i e)).
Proof.
  intros Hl ? ? ?. unfold CheckTable_body, index.
  destruct (Servers (config sync) !! i) as [server|]; [|apply carries_additive].
  rewrite bind_ret. by apply carries_checks; [apply Hl|..].
Qed.

Lemma CheckTable_body_returned sync rng name table l i e l' :
  outcome (CheckTable_body sync rng name table l i e) = Return l' →
  ∃ server, Servers (config sync) !! i = Some server ∧ l' = with_host l server.
Proof.
  unfold CheckTable_body, index.
  destruct (Servers (config sync) !! i) as [server|]; [|done].
  rewrite bind_ret. intros Hret. exists server. split; [done|].
  destruct (outcome (CheckTable_rows sync (WithField l "host" (Host server)) i name
                       table (live_rows e) false ∅)) as [[ex ec]|pv] eqn:Hrows.
  - rewrite (bind_returns _ _ _ Hrows) in Hret. cbn [outcome snd] in Hret.
    destruct ex; cbn [negb] in Hret.
    + rewrite (bind_returns _ tt) in Hret by apply CheckTable_missing_returns.
      by injection Hret as <-.
    + rewrite CheckTable_body_object in Hret. by injection Hret as <-.
  - by rewrite (bind_panics _ _ _ Hrows) in Hret.
Qed.

Lemma carries_loop sync rng name table l i r k v :
  l !! k = Some v → k ≠ "host" →
  k ≠ "column" → k ≠ "need type" → k ≠ "has type" →
  carries k v (trace (CheckTable_loop sync rng name table l i r)).
Proof.
  intros Hl ? ? ? ?. revert l i Hl.
  induction r as [|e r IH]; intros l i Hl; [apply carries_additive|].
  cbn [CheckTable_loop]. apply additive_bind_returned; [apply carries_additive|..].
  - apply carries_body; [|done..]. intros server _.
    unfold with_host, WithField. by rewrite lookup_insert_ne.
  - intros l' Hret. apply CheckTable_body_returned in Hret as (server & _ & ->).
    apply IH. unfold with_host, WithField. by rewrite lookup_insert_ne.
Qed.

(** X13: every log entry written by a check of a table carries the
    current database in the field "database" and the name of the table in
    the field "table". *)
Theorem X13_log_entries_name_the_table sync rng name table :
  carries "database" (database sync) (trace (CheckTable sync rng name table))
  ∧ carries "table" name (trace (CheckTable sync rng name table)).
Proof.
  rewrite CheckTable_unfold. cbn zeta. cbn [trace fst].
  assert (∀ k v, ({[ "database" := database sync; "table" := name ]}
                    : gmap string string) !! k = Some v →
                 k ≠ "host" → k ≠ "column" → k ≠ "need type" → k ≠ "has type" →
                 carries k v
                   (imap (λ i _, EvQuery i catalog_query [database sync; name])
                         (connections sync)
                    ++ trace (when (QueryResults_HasError (catalog_results sync name))
                                (text ← QueryResults_Error (catalog_results sync name);
                                 log_Error {[ "database" := database sync;
                                              "table" := name ]} text);;
                              defer (QueryResults_Close (catalog_results sync name))
                                (CheckTable_loop sync rng name table
                                   {[ "database" := database sync; "table" := name ]}
                                   0 (catalog_results sync name))))) as H.
  { intros k v Hl ? ? ? ?. apply carries_additive.
    - unfold carries, entries. rewrite omap_none; [constructor|].
      eapply Forall_impl; [apply Forall_imap_queries|]. by intros e [i ->].
    - apply additive_bind; [apply carries_additive| |].
      + apply additive_when; [apply carries_additive|]. intros _.
        apply additive_bind; [apply carries_additive| |].
        * unfold QueryResults_Error. rewrite QueryResults_Error_silent.
          apply carries_additive.
        * intros text. unfold carries. by repeat constructor.
      + intros _. rewrite trace_defer. apply carries_additive.
        * by apply carries_loop.
        * unfold carries, entries. rewrite omap_none; [constructor|].
          eapply Forall_impl; [apply Forall_Close_from|]. by intros e [i ->]. }
  split; apply H; done.
Qed.

(** X14: every log entry written by the check of a replica carries the
    host of the server at the position of the replica in the field
    "host". *)
Theorem X14_log_entries_name_the_host sync rng name table l i e server :
  Servers (config sync) !! i = Some server →
  carries "host" (Host server) (trace (CheckTable_body sync rng name table l i e)).
Proof.
  intros Hs. apply carries_body; [|done..].
  intros server' Hs'. rewrite Hs in Hs'. injection Hs' as <-.
  unfold with_host, WithField. by rewrite lookup_insert_eq.
Qed.

Lemma X14_log_entries_name_the_host_witness :
  let rows := [("a", "Int"); ("x", "String")] in
  carries "host" "ch1"
    (trace (CheckTable_body (Sample.sync true true rows) [("a", "String")] "t"
              (Sample.table {[ "a" := "String" ]}) ∅ 0 (Sample.result rows))).
Proof.
  intros rows.
  exact (X14_log_entries_name_the_host (Sample.sync true true rows) [("a", "String")]
           "t" (Sample.table {[ "a" := "String" ]}) ∅ 0 (Sample.result rows)
           Sample.server eq_refl).
Defined.

(** ** The logger carried from one replica to the next *)

Lemma CheckTable_body_host sync rng name table l i e server' :
  CheckTable_body sync rng name table (with_host l server') i e
  = CheckTable_body sync rng name table l i e.
Proof.
  unfold CheckTable_body. apply bind_ext. intros server.
  unfold with_host, WithField. by rewrite insert_insert_eq.
Qed.

(** X15: the host that the logger carries over from the check of one
    replica has no effect on the checks that follow: they go as if the
    logger had been the one of the table. *)
Theorem X15_logger_does_not_leak sync rng name table l i r server' :
  CheckTable_loop sync rng name table (with_host l server') i r
  = CheckTable_loop sync rng name table l i r.
Proof.
  destruct r as [|e r]; [done|]. cbn [CheckTable_loop].
  by rewrite CheckTable_body_host.
Qed.

(** ** The tasks *)

Lemma finish_spec conn sync (l : gmap string string) i query failed succeeded :
  finish conn sync l i query failed succeeded
  = ((if debug sync then [EvLog DebugLevel l query] else [])
     ++ [EvExec i query;
         match db_Exec conn query with
         | Some err => EvLog ErrorLevel (WithError l err) failed
         | None => EvLog InfoLevel l succeeded
         end],
     Return tt).
Proof.
  unfold finish, log_Debug, log_Error, log_Info, emit.
  by destruct (debug sync), (db_Exec conn query).
Qed.

Lemma finish_isolated conn sync (l : gmap string string) i query failed succeeded :
  let m := finish conn sync l i query failed succeeded in
  outcome m = Return tt
  ∧ Forall (task_event i) (trace m)
  ∧ length (statements (trace m)) ≤ 1
  ∧ reports_answer conn (trace m).
Proof.
  cbn zeta. rewrite finish_spec. cbn [trace outcome fst snd]. split_and!.
  - done.
  - destruct (debug sync), (db_Exec conn query); by repeat constructor.
  - by destruct (debug sync), (db_Exec conn query).
  - intros q Hq.
    assert (q = query) as ->.
    { destruct (debug sync), (db_Exec conn query); cbn in Hq;
        by apply list_elem_of_singleton in Hq. }
    destruct (db_Exec conn query) as [err|]; destruct (debug sync); cbn.
    all: eexists _, _; split; try reflexivity.
    all: unfold WithError; by rewrite lookup_insert_eq.
Qed.

(** X16: a task whose replica exists in the pool and in the configuration
    never panics, whatever the server answers: it only logs and executes
    on the connection of its replica, at most one statement, and its last
    log entry reports the answer, as an error with the text of the
    failure or as an information. *)
Theorem X16_task_isolated sync rng t conn server :
  connections sync !! task_index t = Some conn →
  Servers (config sync) !! task_index t = Some server →
  let m := run_task sync rng t in
  outcome m = Return tt
  ∧ Forall (task_event (task_index t)) (trace m)
  ∧ length (statements (trace m)) ≤ 1
  ∧ reports_answer conn (trace m).
Proof.
  intros Hc Hs. cbn zeta.
  destruct t as [i name table|i name view|i name c ty|i name c ty|i name c];
    cbn [task_index run_task] in *;
    unfold CreateTable, CreateView, ModifyColumn, AddColumn, DropColumn, index;
    rewrite Hc, bind_ret, Hs, bind_ret; try apply finish_isolated.
  case_bool_decide; [|apply finish_isolated].
  split_and!; [done|by repeat constructor|cbn; lia|].
  intros q Hq. by apply elem_of_nil in Hq.
Qed.

Lemma X16_task_isolated_witness :
  let refusing := {| db_Ping := None; db_Exec := λ _, Some "Code: 47";
                     db_Query := λ _ _, Sample.result []; db_Close := None |} in
  let sync := set_connections (Sample.sync true true []) [refusing] in
  let m := run_task sync [] (GoDropColumn 0 "t" "extra") in
  outcome m = Return tt
  ∧ Forall (task_event 0) (trace m)
  ∧ length (statements (trace m)) ≤ 1
  ∧ reports_answer refusing (trace m).
Proof.
  intros refusing sync.
  exact (X16_task_isolated sync [] (GoDropColumn 0 "t" "extra") refusing Sample.server
           eq_refl eq_refl).
Defined.

(** X17: a task for a replica beyond the pool panics with an index out of
    range before it logs or executes anything. *)
Theorem X17_task_beyond_pool_panics sync rng t :
  length (connections sync) ≤ task_index t →
  run_task sync rng t
  = ([], Panic (PanicIndexOutOfRange (task_index t) (length (connections sync)))).
Proof.
  intros Hlen. apply lookup_ge_None in Hlen.
  destruct t; cbn [task_index run_task] in *;
    unfold CreateTable, CreateView, ModifyColumn, AddColumn, DropColumn, index;
    by rewrite Hlen.
Qed.

Lemma X17_task_beyond_pool_panics_witness :
  run_task (Sample.sync true true []) [] (GoAddColumn 3 "t" "c" "String")
  = ([], Panic (PanicIndexOutOfRange 3 1)).
Proof.
  assert (length (connections (Sample.sync true true [])) ≤ 3) as H by (cbn; lia).
  exact (X17_task_beyond_pool_panics (Sample.sync true true []) []
           (GoAddColumn 3 "t" "c" "String") H).
Defined.

(** ** The statements that create *)

Lemma CreateView_SQL_flat rng name view :
  CreateView_SQL rng name view
  = (if Materialized view then "CREATE MATERIALIZED VIEW IF NOT EXISTS "
     else "CREATE VIEW IF NOT EXISTS ")
    +:+ name +:+ " "
    +:+ (if bool_decide (size (Columns view) ≠ 0)
         then "(" +:+ strings.Join (column_defs rng) ", " +:+ ") " else "")
    +:+ (if bool_decide (Engine view ≠ "") then "ENGINE = " +:+ Engine view +:+ " " else "")
    +:+ (if Populate view then "POPULATE " else "")
    +:+ "AS " +:+ AsSelect view.
Proof.
  unfold CreateView_SQL. cbn zeta.
  destruct (Materialized view), (Populate view); repeat case_bool_decide;
    by rewrite !append_assoc.
Qed.

(** X18: creating a view whose definition has no select sends nothing to
    the server and logs one error; otherwise it executes one statement:
    CREATE VIEW or CREATE MATERIALIZED VIEW, IF NOT EXISTS, the name, then
    the declared columns if there are any, the engine if one is given,
    POPULATE if asked for, and AS with the select. *)
Theorem X18_CreateView_needs_as_select sync rng i name view conn server :
  connections sync !! i = Some conn →
  Servers (config sync) !! i = Some server →
  let m := CreateView sync rng i name view in
  statements (trace m)
  = (if bool_decide (AsSelect view = "") then [] else [CreateView_SQL rng name view])
  ∧ (if bool_decide (AsSelect view = "")
     then m = ([EvLog ErrorLevel
                  {[ "host" := Host server; "database" := database sync;
                     "view" := name ]}
                  "as_select is not defined"], Return tt)
     else outcome m = Return tt)
  ∧ CreateView_SQL rng name view
    = (if Materialized view then "CREATE MATERIALIZED VIEW IF NOT EXISTS "
       else "CREATE VIEW IF NOT EXISTS ")
      +:+ name +:+ " "
      +:+ (if bool_decide (size (Columns view) ≠ 0)
           then "(" +:+ strings.Join (column_defs rng) ", " +:+ ") " else "")
      +:+ (if bool_decide (Engine view ≠ "")
           then "ENGINE = " +:+ Engine view +:+ " " else "")
      +:+ (if Populate view then "POPULATE " else "")
      +:+ "AS " +:+ AsSelect view.
Proof.
  intros Hc Hs. cbn zeta. unfold CreateView, index.
  rewrite Hc, bind_ret, Hs, bind_ret. split_and!.
  - case_bool_decide; [done|]. apply finish_statements.
  - case_bool_decide; [done|]. by rewrite finish_spec.
  - apply CreateView_SQL_flat.
Qed.

Lemma X18_CreateView_needs_as_select_witness :
  let view := {| View := true; Materialized := true; Populate := true;
                 Columns := ∅; Engine := "Log"; AsAnotherTable := "";
                 AsSelect := "" |} in
  let sync := Sample.sync true false [] in
  let m := CreateView sync [] 0 "v" view in
  statements (trace m)
  = (if bool_decide (AsSelect view = "") then [] else [CreateView_SQL [] "v" view])
  ∧ (if bool_decide (AsSelect view = "")
     then m = ([EvLog ErrorLevel
                  {[ "host" := Host Sample.server; "database" := database sync;
                     "view" := "v" ]}
                  "as_select is not defined"], Return tt)
     else outcome m = Return tt)
  ∧ CreateView_SQL [] "v" view
    = (if Materialized view then "CREATE MATERIALIZED VIEW IF NOT EXISTS "
       else "CREATE VIEW IF NOT EXISTS ")
      +:+ "v" +:+ " "
      +:+ (if bool_decide (size (Columns view) ≠ 0)
           then "(" +:+ strings.Join (column_defs []) ", " +:+ ") " else "")
      +:+ (if bool_decide (Engine view ≠ "")
           then "ENGINE = " +:+ Engine view +:+ " " else "")
      +:+ (if Populate view then "POPULATE " else "")
      +:+ "AS " +:+ AsSelect view.
Proof.
  intros view sync.
  exact (X18_CreateView_needs_as_select sync [] 0 "v" view (Sample.conn [])
           Sample.server eq_refl eq_refl).
Defined.

(** The statement sent for a materialized view. *)
Example CreateView_sample :
  CreateView_SQL [] "v"
    {| View := true; Materialized := true; Populate := true;
       Columns := ∅; Engine := "Log"; AsAnotherTable := "ignored";
       AsSelect := "SELECT id FROM t" |}
  = "CREATE MATERIALIZED VIEW IF NOT EXISTS v ENGINE = Log POPULATE AS SELECT id FROM t".
Proof. vm_compute. reflexivity. Qed.

Lemma CreateTable_SQL_flat rng name table :
  CreateTable_SQL rng name table
  = "CREATE TABLE IF NOT EXISTS " +:+ name +:+ " "
    +:+ (if bool_decide (size (Columns table) ≠ 0)
         then "(" +:+ strings.Join (column_defs rng) ", " +:+ ") "
         else if bool_decide (AsAnotherTable table ≠ "")
              then "AS " +:+ AsAnotherTable table +:+ " " else "")
    +:+ "ENGINE = " +:+ Engine table.
Proof.
  unfold CreateTable_SQL. cbn zeta. repeat case_bool_decide; by rewrite !append_assoc.
Qed.

(** X19: the statement that creates a table is CREATE TABLE IF NOT EXISTS
    with the name, then the column list if columns are declared, else the
    AS clause if another table is named, then the engine; the column list
    has one definition per declared column, each made of the name, a
    space and the declared type, whatever the order of the range. *)
Theorem X19_CreateTable_declares_every_column rng name table :
  range_of (Columns table) rng →
  CreateTable_SQL rng name table
  = "CREATE TABLE IF NOT EXISTS " +:+ name +:+ " "
    +:+ (if bool_decide (size (Columns table) ≠ 0)
         then "(" +:+ strings.Join (column_defs rng) ", " +:+ ") "
         else if bool_decide (AsAnotherTable table ≠ "")
              then "AS " +:+ AsAnotherTable table +:+ " " else "")
    +:+ "ENGINE = " +:+ Engine table
  ∧ length (column_defs rng) = size (Columns table)
  ∧ (∀ c ty, Columns table !! c = Some ty → (c +:+ " " +:+ ty) ∈ column_defs rng).
Proof.
  intros Hrng. split_and!.
  - apply CreateTable_SQL_flat.
  - unfold column_defs. rewrite length_fmap. unfold range_of in Hrng.
    by rewrite Hrng, length_map_to_list.
  - intros c ty Hc. unfold column_defs. apply list_elem_of_fmap.
    exists (c, ty). split; [done|]. unfold range_of in Hrng. rewrite Hrng.
    by apply elem_of_map_to_list.
Qed.

Lemma X19_CreateTable_declares_every_column_witness :
  let rng := [("name", "String"); ("id", "UInt64")] in
  let table := Sample.table {[ "id" := "UInt64"; "name" := "String" ]} in
  CreateTable_SQL rng "t" table
  = "CREATE TABLE IF NOT EXISTS " +:+ "t" +:+ " "
    +:+ (if bool_decide (size (Columns table) ≠ 0)
         then "(" +:+ strings.Join (column_defs rng) ", " +:+ ") "
         else if bool_decide (AsAnotherTable table ≠ "")
              then "AS " +:+ AsAnotherTable table +:+ " " else "")
    +:+ "ENGINE = " +:+ Engine table
  ∧ length (column_defs rng) = size (Columns table)
  ∧ (∀ c ty, Columns table !! c = Some ty → (c +:+ " " +:+ ty) ∈ column_defs rng).
Proof.
  intros rng table.
  assert (range_of (Columns table) rng) as Hrng.
  { unfold range_of. vm_compute. first [reflexivity | apply perm_swap]. }
  exact (X19_CreateTable_declares_every_column rng "t" table Hrng).
Defined.

(** ** Selecting a database *)

Lemma CheckDatabase_unfold sync o db :
  CheckDatabase sync o db
  = (let r := (λ conn, {| e_error := db_Exec conn ("USE " +:+ Name db) |})
                <$> connections sync in
     let m := if ExecResults_HasError r then panic (PanicExecResults r)
              else CheckDatabase_tables (set_database sync (Name db))
                     (columns_order o) (tables_order o);;
                   mret (set_database sync (Name db)) in
     (imap (λ i _, EvExec i ("USE " +:+ Name db)) (connections sync) ++ trace m,
      outcome m)).
Proof. unfold CheckDatabase, Exec. by rewrite Exec_from_spec, bind_Return. Qed.

Lemma Check_from_panics_at (P : Synchronizer → Prop) sync o k0 dbs k db :
  (∀ s name, P s → P (set_database s name)) →
  (∀ s, P s → panics (CheckDatabase s (o (k0 + k)) db)) →
  P sync → dbs !! k = Some db →
  panics (Check_from sync o k0 dbs).
Proof.
  intros Hkeep Hdb. revert sync k0 k Hdb.
  induction dbs as [|db' dbs IH]; intros sync k0 k Hdb HP Hk; [done|].
  cbn [Check_from]. destruct k as [|k]; cbn in Hk.
  - simplify_eq. rewrite Nat.add_0_r in Hdb. apply panics_bind_l. by apply Hdb.
  - apply panics_bind_r. intros sync' Hret.
    apply CheckDatabase_returned in Hret as ->.
    apply (IH _ (S k0) k); [|by apply Hkeep|done].
    by replace (S k0 + k) with (k0 + S k) by lia.
Qed.

(** X20: when USE fails on a connection, the statement is still executed
    on every connection of the pool, then the check of the database
    panics with the results: no table of the database is checked, and a
    run that reaches this database ends by a panic. *)
Theorem X20_USE_failure_aborts sync o db k i conn err :
  Databases (config sync) !! k = Some db →
  connections sync !! i = Some conn →
  db_Exec conn ("USE " +:+ Name db) = Some err →
  CheckDatabase sync (o k) db
  = (imap (λ i _, EvExec i ("USE " +:+ Name db)) (connections sync),
     Panic (PanicExecResults
              ((λ conn, {| e_error := db_Exec conn ("USE " +:+ Name db) |})
                 <$> connections sync)))
  ∧ panics (Check sync o).
Proof.
  intros Hk Hc Herr.
  assert (∀ s, connections s = connections sync →
               CheckDatabase s (o k) db
               = (imap (λ i _, EvExec i ("USE " +:+ Name db)) (connections sync),
                  Panic (PanicExecResults
                           ((λ conn, {| e_error := db_Exec conn ("USE " +:+ Name db) |})
                              <$> connections sync)))) as Hdb.
  { intros s Hs. rewrite CheckDatabase_unfold. cbn zeta. rewrite Hs.
    assert (ExecResults_HasError
              ((λ conn, {| e_error := db_Exec conn ("USE " +:+ Name db) |})
                 <$> connections sync) = true) as ->.
    { unfold ExecResults_HasError. apply existsb_exists.
      exists {| e_error := db_Exec conn ("USE " +:+ Name db) |}. split.
      - apply list_elem_of_In, list_elem_of_fmap. exists conn.
        split; [done|]. by eapply list_elem_of_lookup_2.
      - cbn. rewrite Herr. by apply bool_decide_eq_true_2. }
    cbn [panic trace outcome fst snd]. by rewrite app_nil_r. }
  split; [by apply Hdb|].
  unfold Check.
  apply (Check_from_panics_at (λ s, connections s = connections sync) _ _ 0 _ k db);
    [done| |done|done].
  intros s Hs. change (0 + k) with k. eexists. by rewrite (Hdb s Hs).
Qed.

Lemma X20_USE_failure_aborts_witness :
  let refusing := {| db_Ping := None; db_Exec := λ _, Some "Code: 81";
                     db_Query := λ _ _, Sample.result []; db_Close := None |} in
  let db := {| Name := "logs"; Tables := ∅ |} in
  let sync := {| config := {| Servers := [Sample.server; Sample.server];
                              Databases := [db] |};
                 connections := [Sample.conn []; refusing]; database := "";
                 fix_ := true; dropColumns := false; debug := false |} in
  let o : nat → RangeOrder := λ _, {| tables_order := []; columns_order := λ _ _, [] |} in
  CheckDatabase sync (o 0) db
  = (imap (λ i _, EvExec i ("USE " +:+ Name db)) (connections sync),
     Panic (PanicExecResults
              ((λ conn, {| e_error := db_Exec conn ("USE " +:+ Name db) |})
                 <$> connections sync)))
  ∧ panics (Check sync o).
Proof.
  intros refusing db sync o.
  exact (X20_USE_failure_aborts sync o db 0 1 refusing "Code: 81"
           eq_refl eq_refl eq_refl).
Defined.

(** ** Connecting, again *)

Lemma pool_failures_length open sync :
  length (pool open sync) + length (failures open sync)
  = length (Servers (config sync)).
Proof.
  unfold pool, failures. induction (Servers (config sync)) as [|s servers IH]; [done|].
  rewrite !omap_cons. destruct (attempt open sync s); cbn [failure_of opened_of length];
    lia.
Qed.

Lemma attempt_opened open sync server conn :
  attempt open sync server = inr conn →
  open "clickhouse" (dsn_of sync server) = inr conn ∧ db_Ping conn = None.
Proof.
  unfold attempt. destruct (open _ _) as [err|conn']; [done|].
  destruct (db_Ping conn') eqn:Hp; [done|]. by intros [= <-].
Qed.

Lemma pool_positions open sync i server :
  failures open sync = [] →
  Servers (config sync) !! i = Some server →
  ∃ conn, pool open sync !! i = Some conn
          ∧ open "clickhouse" (dsn_of sync server) = inr conn
          ∧ db_Ping conn = None.
Proof.
  unfold failures, pool. revert i.
  induction (Servers (config sync)) as [|s servers IH]; intros i Hf Hs; [done|].
  rewrite omap_cons in Hf. rewrite omap_cons.
  destruct (attempt open sync s) as [err|c] eqn:Ha;
    cbn [failure_of opened_of] in Hf |- *; [done|].
  destruct i as [|i]; cbn in Hs |- *.
  - simplify_eq. exists c. split; [done|]. by apply attempt_opened.
  - by apply IH.
Qed.

(** X21: when [Connect] returns nil, the synchronizer it leaves has the
    configuration it had and a pool with as many connections as there
    are servers, and the connection at a position is the one opened for
    the server at that position, which answered the ping: the host of
    [sync.config.Servers[i]] is the host of [sync.connections[i]]. *)
Theorem X21_pool_follows_servers open sync sync' :
  outcome (Connect open sync) = Return (sync', None) →
  config sync' = config sync
  ∧ length (connections sync') = length (Servers (config sync'))
  ∧ ∀ i server, Servers (config sync') !! i = Some server →
      ∃ conn, connections sync' !! i = Some conn
              ∧ open "clickhouse" (dsn_of sync server) = inr conn
              ∧ db_Ping conn = None.
Proof.
  intros Hc. destruct (Connect_spec open sync) as [Ho _].
  rewrite Ho in Hc. injection Hc as <- Herr.
  assert (failures open sync = []) as Hf by by destruct (failures open sync).
  pose proof (pool_failures_length open sync) as Hlen.
  cbn [config connections set_connections]. split_and!.
  - done.
  - rewrite Hf in Hlen. cbn in Hlen. lia.
  - intros i server Hs. by apply pool_positions.
Qed.

Lemma X21_pool_follows_servers_witness :
  let open : sql_Open_t := λ _ _, inr (Sample.conn []) in
  let sync := NewSynchronizer (config (Sample.sync false false [])) in
  let sync' := set_connections sync [Sample.conn []] in
  config sync' = config sync
  ∧ length (connections sync') = length (Servers (config sync'))
  ∧ ∀ i server, Servers (config sync') !! i = Some server →
      ∃ conn, connections sync' !! i = Some conn
              ∧ open "clickhouse" (dsn_of sync server) = inr conn
              ∧ db_Ping conn = None.
Proof.
  intros open sync sync'.
  exact (X21_pool_follows_servers open sync sync' eq_refl).
Defined.

Lemma dsn_of_debug sync b server : dsn_of (SetupLogger sync b) server = dsn_of sync server.
Proof. unfold dsn_of. cbn [debug SetupLogger]. by destruct b, (debug sync). Qed.

Lemma Connect_loop_debug open sync b servers errs conns :
  Connect_loop open (SetupLogger sync b) servers errs conns
  = Connect_loop open sync servers errs conns.
Proof.
  revert errs conns. induction servers as [|server servers IH]; intros errs conns;
    [done|].
  cbn [Connect_loop]. rewrite dsn_of_debug. apply bind_ext. intros _.
  destruct (open _ _) as [err|conn]; [apply IH|].
  apply bind_ext. intros _. destruct (db_Ping conn); apply IH.
Qed.

(** X22: the -debug flag does not reach the driver: the data source name
    of a server carries debug=0 whatever the flag, and [Connect] opens
    the same endpoints, keeps the same connections and returns the same
    error with the flag on or off. *)
Theorem X22_debug_flag_not_passed_on open sync b :
  (∀ server, dsn_of (SetupLogger sync b) server = dsn_of sync server)
  ∧ (∀ server, ∃ front, dsn_of sync server = front +:+ "&debug=0")
  ∧ trace (Connect open (SetupLogger sync b)) = trace (Connect open sync)
  ∧ pool open (SetupLogger sync b) = pool open sync
  ∧ failures open (SetupLogger sync b) = failures open sync.
Proof.
  split_and!.
  - intros server. apply dsn_of_debug.
  - intros server. unfold dsn_of.
    exists ("tcp://" +:+ Host server +:+ ":" +:+ pretty (Port server)
            +:+ "?username=" +:+ User server +:+ "&password=" +:+ Pass server).
    rewrite !append_assoc. by destruct (debug sync).
  - unfold Connect. cbn [config SetupLogger]. rewrite Connect_loop_debug.
    destruct (Connect_loop open sync (Servers (config sync)) [] [])
      as [t [[errs conns]|v]]; [|done].
    rewrite !bind_Return. by case_bool_decide.
  - unfold pool, attempt. cbn [config SetupLogger].
    induction (Servers (config sync)) as [|s servers IH]; [done|].
    by rewrite !omap_cons, IH, dsn_of_debug.
  - unfold failures, attempt. cbn [config SetupLogger].
    induction (Servers (config sync)) as [|s servers IH]; [done|].
    by rewrite !omap_cons, IH, dsn_of_debug.
Qed.

(** ** Runs that end normally *)

Lemma CheckTable_body_returns sync rng name table l i e server :
  Servers (config sync) !! i = Some server →
  types_well_formed table →
  outcome (CheckTable_body sync rng name table l i e) = Return (with_host l server).
Proof.
  intros Hs Hwf. destruct (live_rows e) as [|row rows] eqn:He.
  - by rewrite (CheckTable_body_empty _ _ _ _ _ _ _ server).
  - rewrite (CheckTable_body_rows _ _ _ _ _ _ _ server); [done..|]. by rewrite He.
Qed.

Lemma CheckTable_loop_returns sync rng name table l i r :
  types_well_formed table →
  i + length r ≤ length (Servers (config sync)) →
  outcome (CheckTable_loop sync rng name table l i r) = Return tt.
Proof.
  intros Hwf. revert l i. induction r as [|e r IH]; intros l i Hlen; [done|].
  cbn [CheckTable_loop]. cbn [length] in Hlen.
  destruct (lookup_lt_is_Some_2 (Servers (config sync)) i) as [server Hs]; [lia|].
  rewrite (bind_returns _ _ _ (CheckTable_body_returns _ _ _ _ _ _ _ _ Hs Hwf)).
  cbn [outcome snd]. apply IH. lia.
Qed.

Lemma HasError_sound (r : list QueryResult) :
  Forall (λ e, rows_failed e = false) r → QueryResults_HasError r = false.
Proof.
  unfold QueryResults_HasError. induction 1 as [|e r He _ IH]; [done|].
  cbn [existsb]. by rewrite He, IH.
Qed.

Section healthy_run.
Variables (sync : Synchronizer).
Hypothesis Hpool : Forall healthy (connections sync).
Hypothesis Hlen : length (connections sync) ≤ length (Servers (config sync)).

Lemma CheckTable_returns rng name table :
  types_well_formed table →
  outcome (CheckTable sync rng name table) = Return tt.
Proof.
  intros Hwf. rewrite CheckTable_unfold. cbn zeta. cbn [outcome snd].
  rewrite HasError_sound.
  - cbn [when]. rewrite bind_ret, outcome_defer. apply CheckTable_loop_returns; [done|].
    unfold catalog_results. rewrite length_fmap. cbn. lia.
  - unfold catalog_results. apply Forall_fmap.
    eapply Forall_impl; [exact Hpool|]. intros conn (_ & Hq & _). apply Hq.
Qed.

Lemma CheckDatabase_tables_returns cols tables :
  Forall (λ nt, types_well_formed nt.2) tables →
  outcome (CheckDatabase_tables sync cols tables) = Return tt.
Proof.
  induction 1 as [|[name table] tables Hwf _ IH]; [done|].
  cbn [CheckDatabase_tables].
  by rewrite (bind_returns _ _ _ (CheckTable_returns _ _ _ Hwf)).
Qed.

End healthy_run.

Lemma USE_succeeds (conns : list sql_DB) (query : string) :
  Forall healthy conns →
  ExecResults_HasError ((λ conn, {| e_error := db_Exec conn query |}) <$> conns) = false.
Proof.
  unfold ExecResults_HasError. induction 1 as [|conn conns Hc _ IH]; [done|].
  cbn [fmap list_fmap existsb e_error]. destruct Hc as (He & _). rewrite He.
  by rewrite bool_decide_eq_false_2 by (by intros ?).
Qed.

Lemma CheckDatabase_returns sync o db :
  Forall healthy (connections sync) →
  length (connections sync) ≤ length (Servers (config sync)) →
  Forall (λ nt, types_well_formed nt.2) (tables_order o) →
  outcome (CheckDatabase sync o db) = Return (set_database sync (Name db)).
Proof.
  intros Hpool Hlen Hwf. rewrite CheckDatabase_unfold. cbn zeta. cbn [outcome snd].
  rewrite USE_succeeds by done.
  by rewrite (bind_returns _ tt)
    by (by apply (CheckDatabase_tables_returns (set_database sync (Name db)))).
Qed.

Lemma Check_from_returns sync o k dbs :
  Forall healthy (connections sync) →
  length (connections sync) ≤ length (Servers (config sync)) →
  (∀ j, Forall (λ nt, types_well_formed nt.2) (tables_order (o j))) →
  ∃ sync', outcome (Check_from sync o k dbs) = Return sync'
           ∧ connections sync' = connections sync.
Proof.
  intros Hpool Hlen Hwf. revert sync k Hpool Hlen.
  induction dbs as [|db dbs IH]; intros sync k Hpool Hlen; [by exists sync|].
  cbn [Check_from].
  rewrite (bind_returns _ _ _ (CheckDatabase_returns sync (o k) db Hpool Hlen (Hwf k))).
  cbn [outcome snd]. by apply (IH (set_database sync (Name db))).
Qed.

Lemma Close_healthy sync :
  Forall healthy (connections sync) → outcome (Close sync) = Return None.
Proof.
  intros Hpool. unfold Close. rewrite Close_loop_spec, bind_Return. cbn [app].
  assert (omap db_Close (connections sync) = []) as ->; [|done].
  induction Hpool as [|conn conns (_ & _ & Hc) _ IH]; [done|].
  by rewrite omap_cons, Hc.
Qed.

Lemma pool_length open sync :
  length (pool open sync) ≤ length (Servers (config sync)).
Proof. pose proof (pool_failures_length open sync). lia. Qed.

(** X23: when every endpoint opens and answers the ping, every
    connection of the pool is healthy and every declared type of every
    table visited has a first token, the run ends normally: no panic
    from connecting, from USE, from the checks or from closing. *)
Theorem X23_healthy_run_ends_normally open o cfg f d g :
  failures open (main_synchronizer cfg f d g) = [] →
  Forall healthy (pool open (main_synchronizer cfg f d g)) →
  (∀ j, Forall (λ nt, types_well_formed nt.2) (tables_order (o j))) →
  outcome (main open o cfg f d g) = Return tt.
Proof.
  intros Hf Hpool Hwf. rewrite (main_connected open o cfg f d g Hf).
  cbn zeta. cbn [outcome snd]. unfold main_checks, Check.
  destruct (Check_from_returns
              (set_connections (main_synchronizer cfg f d g)
                 (pool open (main_synchronizer cfg f d g)))
              o 0 (Databases cfg)) as (sync' & Hret & Hconns); [done| |done|].
  { exact (pool_length open (main_synchronizer cfg f d g)). }
  rewrite (bind_returns _ _ _ Hret). cbn [outcome snd].
  rewrite (bind_returns _ None); [done|].
  apply Close_healthy. by rewrite Hconns.
Qed.

Lemma X23_healthy_run_ends_normally_witness :
  let table := Sample.table {[ "id" := "UInt64"; "name" := "String" ]} in
  let db := {| Name := "db"; Tables := {[ "t" := table ]} |} in
  let cfg := {| Servers := [Sample.server]; Databases := [db] |} in
  let open : sql_Open_t := λ _ _, inr (Sample.conn [("id", "UInt64")]) in
  let o : nat → RangeOrder := λ _,
    {| tables_order := [("t", table)];
       columns_order := λ _ _, [("id", "UInt64"); ("name", "String")] |} in
  outcome (main open o cfg true true false) = Return tt.
Proof.
  intros table db cfg open o.
  assert (Forall healthy (pool open (main_synchronizer cfg true true false))) as Hpool.
  { repeat constructor. }
  assert (∀ j, Forall (λ nt, types_well_formed nt.2) (tables_order (o j))) as Hwf.
  { intros j. repeat constructor. cbn.
    refine (bool_decide_unpack _ _). vm_compute. exact I. }
  exact (X23_healthy_run_ends_normally open o cfg true true false eq_refl Hpool Hwf).
Defined.

(** ** A configuration without servers *)

Lemma CheckTable_no_connection sync rng name table :
  connections sync = [] → CheckTable sync rng name table = ([], Return tt).
Proof.
  intros Hc. rewrite CheckTable_unfold. unfold catalog_results. by rewrite Hc.
Qed.

Lemma CheckDatabase_tables_no_connection sync cols tables :
  connections sync = [] → CheckDatabase_tables sync cols tables = ([], Return tt).
Proof.
  intros Hc. induction tables as [|[name table] tables IH]; [done|].
  cbn [CheckDatabase_tables]. rewrite CheckTable_no_connection by done.
  by rewrite bind_Return, IH.
Qed.

Lemma Check_from_no_connection sync o k dbs :
  connections sync = [] →
  ∃ sync', Check_from sync o k dbs = ([], Return sync') ∧ connections sync' = [].
Proof.
  revert sync k. induction dbs as [|db dbs IH]; intros sync k Hc; [by exists sync|].
  cbn [Check_from]. rewrite CheckDatabase_unfold, Hc. cbn zeta.
  cbn [fmap list_fmap imap ExecResults_HasError existsb app].
  rewrite CheckDatabase_tables_no_connection by done.
  rewrite bind_Return. cbn [mret M_ret trace outcome fst snd app]. rewrite bind_Return.
  destruct (IH (set_database sync (Name db)) (S k) Hc) as (sync' & -> & Hc').
  by exists sync'.
Qed.

(** X24: with no server configured a run opens nothing, sends nothing,
    logs nothing and ends normally, whatever databases and tables are
    declared. *)
Theorem X24_no_server_nothing_done open o cfg f d g :
  Servers cfg = [] →
  main open o cfg f d g = ([], Return tt).
Proof.
  intros Hs. unfold main. fold (main_synchronizer cfg f d g).
  unfold Connect. cbn [config main_synchronizer SetupLogger SetDropColumns SetFix
                       NewSynchronizer]. rewrite Hs. cbn [Connect_loop].
  rewrite bind_ret. cbn [length]. rewrite bool_decide_eq_true_2 by done.
  rewrite bind_ret.
  destruct (Check_from_no_connection
              (set_connections (main_synchronizer cfg f d g) []) o 0 (Databases cfg)
              eq_refl) as (sync' & Hcheck & Hc').
  unfold Check. cbn [config set_connections main_synchronizer SetupLogger
                     SetDropColumns SetFix NewSynchronizer] in Hcheck |- *.
  rewrite Hcheck, bind_Return. unfold Close. rewrite Hc'. cbn [Close_loop].
  by rewrite bind_ret.
Qed.

Lemma X24_no_server_nothing_done_witness :
  let table := Sample.table {[ "id" := "UInt64" ]} in
  let cfg := {| Servers := [];
                Databases := [{| Name := "db"; Tables := {[ "t" := table ]} |}] |} in
  let o : nat → RangeOrder := λ _,
    {| tables_order := [("t", table)]; columns_order := λ _ _, [("id", "UInt64")] |} in
  main (λ _ _, inl "unreachable") o cfg true true true = ([], Return tt).
Proof.
  intros table cfg o.
  exact (X24_no_server_nothing_done (λ _ _, inl "unreachable") o cfg true true true
           eq_refl).
Defined.

(** ** What the orchestrating thread sends *)

Lemma statements_imap_USE (conns : list sql_DB) (query : string) :
  Forall (λ q, q = query) (statements (imap (λ i _, EvExec i query) conns)).
Proof.
  apply Forall_forall. intros q Hq. unfold statements in Hq.
  apply list_elem_of_omap in Hq as (e & He & Hq).
  apply elem_of_lookup_imap in He as (i & c & -> & _). by injection Hq as <-.
Qed.

Lemma queries_imap_EvExec (conns : list sql_DB) (query : string) :
  queries (imap (λ i _, EvExec i query) conns) = [].
Proof.
  apply omap_none. apply Forall_forall. intros e He.
  by apply elem_of_lookup_imap in He as (i & c & -> & _).
Qed.

Lemma CheckDatabase_tables_sends sync cols tables :
  let t := trace (CheckDatabase_tables sync cols tables) in
  statements t = []
  ∧ Forall (λ q, q.1.2 = catalog_query
                 ∧ ∃ name table, (name, table) ∈ tables ∧ q.2 = [database sync; name])
           (queries t).
Proof.
  cbn zeta. induction tables as [|[name table] tables [IH1 IH2]]; [by split; [|constructor]|].
  cbn [CheckDatabase_tables].
  destruct (CheckTable_queries_statements sync (cols name) name table) as (Hq & Hs & _).
  destruct (outcome (CheckTable sync (cols name) name table)) as [[]|v] eqn:Ho.
  - rewrite (bind_returns _ _ _ Ho). cbn [trace fst].
    rewrite statements_app, queries_app, Hs, IH1, Hq. split; [done|].
    apply Forall_app. split.
    + apply Forall_forall. intros q Hin.
      apply elem_of_lookup_imap in Hin as (i & c & -> & _). split; [done|].
      exists name, table. split; [left|done].
    + eapply Forall_impl; [exact IH2|]. intros q (? & n & tb & ? & ?).
      split; [done|]. exists n, tb. split; [by right|done].
  - rewrite (bind_panics _ _ _ Ho). cbn [trace fst]. rewrite Hs, Hq. split; [done|].
    apply Forall_forall. intros q Hin.
    apply elem_of_lookup_imap in Hin as (i & c & -> & _). split; [done|].
    exists name, table. split; [left|done].
Qed.

Lemma CheckDatabase_sends sync o db :
  let t := trace (CheckDatabase sync o db) in
  Forall (λ q, q = "USE " +:+ Name db) (statements t)
  ∧ Forall (λ q, q.1.2 = catalog_query
                 ∧ ∃ name table, (name, table) ∈ tables_order o ∧ q.2 = [Name db; name])
           (queries t).
Proof.
  cbn zeta. rewrite CheckDatabase_unfold. cbn zeta. cbn [trace fst].
  rewrite statements_app, queries_app, queries_imap_EvExec. cbn [app].
  destruct (ExecResults_HasError _).
  { cbn [panic trace fst]. rewrite app_nil_r. split; [apply statements_imap_USE|constructor]. }
  destruct (CheckDatabase_tables_sends (set_database sync (Name db)) (columns_order o)
              (tables_order o)) as [Hs Hq].
  assert (trace (CheckDatabase_tables (set_database sync (Name db)) (columns_order o)
                   (tables_order o);; mret (set_database sync (Name db)))
          = trace (CheckDatabase_tables (set_database sync (Name db)) (columns_order o)
                     (tables_order o))) as ->.
  { destruct (CheckDatabase_tables _ _ _) as [t [[]|v]]; [|done].
    rewrite bind_Return. cbn. by rewrite app_nil_r. }
  rewrite Hs, app_nil_r. split; [apply statements_imap_USE|exact Hq].
Qed.

Lemma Check_from_sends sync o k dbs :
  Forall (λ q, ∃ db, db ∈ dbs ∧ q = "USE " +:+ Name db)
         (statements (trace (Check_from sync o k dbs))).
Proof.
  revert sync k. induction dbs as [|db dbs IH]; intros sync k; [constructor|].
  cbn [Check_from].
  apply (additive_bind (λ t, Forall (λ q, ∃ db0, db0 ∈ db :: dbs ∧ q = "USE " +:+ Name db0)
                               (statements t))).
  - split; [constructor|]. intros t1 t2 H1 H2. rewrite statements_app. by apply Forall_app.
  - eapply Forall_impl; [apply CheckDatabase_sends|]. intros q ->. exists db.
    split; [left|done].
  - intros sync'. eapply Forall_impl; [apply IH|]. intros q (db0 & ? & ?).
    exists db0. split; [by right|done].
Qed.

(** X25: while a database is checked, the only statement executed is the
    USE of that database, and every catalog query asks for a table of
    that database under the name of that database, not the name of the
    database checked before. *)
Theorem X25_queries_name_the_database sync o db :
  let t := trace (CheckDatabase sync o db) in
  Forall (λ q, q = "USE " +:+ Name db) (statements t)
  ∧ Forall (λ q, q.1.2 = catalog_query
                 ∧ ∃ name table, (name, table) ∈ tables_order o ∧ q.2 = [Name db; name])
           (queries t).
Proof. apply CheckDatabase_sends. Qed.

Lemma statements_Connect_loop open sync servers errs conns :
  statements (trace (Connect_loop open sync servers errs conns)) = [].
Proof.
  revert errs conns. induction servers as [|server servers IH]; intros errs conns;
    [done|].
  cbn [Connect_loop]. unfold emit. rewrite bind_Return. cbn [trace fst].
  rewrite statements_app. cbn [statements omap list_omap app].
  destruct (open _ _) as [err|conn]; [apply IH|].
  rewrite bind_Return. cbn [trace fst]. fold (statements). rewrite statements_app.
  cbn [statements omap list_omap app]. destruct (db_Ping conn); apply IH.
Qed.

Lemma statements_Connect open sync : statements (trace (Connect open sync)) = [].
Proof.
  unfold Connect.
  destruct (Connect_loop open sync (Servers (config sync)) [] []) as [t [[errs conns]|v]] eqn:E.
  - rewrite bind_Return.
    pose proof (statements_Connect_loop open sync (Servers (config sync)) [] []) as H.
    rewrite E in H. cbn [trace fst] in H |- *. rewrite statements_app, H.
    by case_bool_decide.
  - pose proof (statements_Connect_loop open sync (Servers (config sync)) [] []) as H.
    by rewrite E in H.
Qed.

Lemma statements_Close sync : statements (trace (Close sync)) = [].
Proof.
  unfold Close. rewrite Close_loop_spec, bind_Return. cbn [trace fst].
  rewrite statements_app. unfold statements at 1.
  rewrite (omap_none _ (EvClose <$> _)) by (apply Forall_fmap, Forall_forall; done).
  by case_bool_decide.
Qed.

(** X26: with or without -sync, the only statements that the thread of
    [main] executes itself are the USE statements of the configured
    databases: every corrective statement is left to a dispatched task. *)
Theorem X26_main_thread_sends_only_USE open o cfg f d g :
  Forall (λ q, ∃ db, db ∈ Databases cfg ∧ q = "USE " +:+ Name db)
         (statements (trace (main open o cfg f d g))).
Proof.
  unfold main.
  apply (additive_bind_returned
           (λ t, Forall (λ q, ∃ db, db ∈ Databases cfg ∧ q = "USE " +:+ Name db)
                        (statements t))).
  - split; [constructor|]. intros t1 t2 H1 H2. rewrite statements_app. by apply Forall_app.
  - rewrite statements_Connect. constructor.
  - intros [sync' err] Hc. apply Connect_returned in Hc as ->.
    destruct err; [constructor|]. unfold Check.
    destruct (Check_from _ o 0 _) as [t1 [sync''|v]] eqn:E.
    + rewrite bind_Return. cbn [trace fst]. rewrite statements_app. apply Forall_app.
      split.
      * pose proof (Check_from_sends
                      (set_connections (SetupLogger (SetDropColumns
                         (SetFix (NewSynchronizer cfg) f) d) g)
                         (pool open (SetupLogger (SetDropColumns
                            (SetFix (NewSynchronizer cfg) f) d) g)))
                      o 0 (Databases cfg)) as H.
        cbn [config set_connections SetupLogger SetDropColumns SetFix NewSynchronizer]
          in E.
        by rewrite E in H.
      * destruct (Close sync'') as [t2 [err|v]] eqn:E2.
        -- rewrite bind_Return. cbn [trace fst]. rewrite statements_app.
           pose proof (statements_Close sync'') as H2. rewrite E2 in H2.
           cbn [trace fst] in H2. rewrite H2. by destruct err; constructor.
        -- pose proof (statements_Close sync'') as H2. rewrite E2 in H2.
           cbn in H2 |- *. rewrite H2. constructor.
    + pose proof (Check_from_sends
                    (set_connections (SetupLogger (SetDropColumns
                       (SetFix (NewSynchronizer cfg) f) d) g)
                       (pool open (SetupLogger (SetDropColumns
                          (SetFix (NewSynchronizer cfg) f) d) g)))
                    o 0 (Databases cfg)) as H.
      cbn [config set_connections SetupLogger SetDropColumns SetFix NewSynchronizer]
        in E.
      by rewrite E in H.
Qed.
